(** * FaceRecApps: the face-database pipeline

    A shallow embedding of the three command-line tools of the repository
    (FaceRecognitionImage.cpp, Name2Protraits.cpp and FaceCollection.cpp):
    the directory catalog [traverseDirectory], the dataset loader
    [loadFaceData], the output step shared by the batch tools, the
    name-to-portraits tool and the per-face steps of the recognition loops.

    The file system, the image decoder, the detector and the recognizer are
    external to the repository.  The file system is a read-only snapshot
    ([FileSystem]), with the number of file descriptors that the process
    can still open: the tools never close a directory, so the descriptors
    held are threaded through the loader.  OpenCV's calls are modelled by
    their documented contract on the dimensions of a [Mat] and by the
    exceptions they raise, and the detector and recognizer are black boxes
    whose answers are inputs of the model.  What the tools print on the
    console is left out.  An [int] is a [Z]: the counters of
    the loops stay far below 2^31 for any directory or frame that fits in
    memory, so no wrap-around is written out. *)

From Stdlib Require Import ZArith String Ascii List Lia Bool.
From Stdlib Require Import DecimalString.
From Stdlib Require Import PrimFloat FloatOps SpecFloat Uint63.
From stdpp Require Import base gmap list strings sorting.

Local Open Scope Z_scope.

(** ** Strings *)

(** [dirp->d_name[0] == '.']: the first character of a C string; an empty
    name has the terminating NUL there. *)
Definition is_hidden (d_name : string) : bool :=
  match d_name with
  | String c _ => bool_decide (c = "."%char)
  | EmptyString => false
  end.

(** [dirpath + "/" + name], the path concatenation used throughout. *)
Definition path_join (dir name : string) : string := dir +:+ "/" +:+ name.

(** The double-quote character, written into the JSON output. *)
Definition dquote : string := String "034"%char "".

(** Whitespace of the classic C locale, which ends a word read by
    [operator>>]: space, tab, line feed, vertical tab, form feed and
    carriage return. *)
Definition isspace (c : ascii) : bool :=
  match c with
  | " "%char | "009"%char | "010"%char | "011"%char | "012"%char
  | "013"%char => true
  | _ => false
  end.

Fixpoint skip_ws (s : string) : string :=
  match s with
  | String c s' => if isspace c then skip_ws s' else s
  | EmptyString => EmptyString
  end.

Fixpoint take_word (s : string) : string :=
  match s with
  | String c s' => if isspace c then EmptyString else String c (take_word s')
  | EmptyString => EmptyString
  end.

(** [stream >> str] into a default-constructed [str], on a stream holding
    [stream] that has not been read yet: leading whitespace is skipped and
    the characters up to the next whitespace are extracted; when nothing is
    left, [str] stays empty. *)
Definition extract_word (stream : string) : string :=
  take_word (skip_ws stream).

(** [stream << n] for an [int]. *)
Definition show_int (n : Z) : string := NilZero.string_of_int (Z.to_int n).

(** ** The file system seen by the tools *)

(** A decoded image, reduced to what the tools read of it: its dimensions. *)
Record Mat := mkMat { rows : Z; cols : Z }.

Definition Mat_empty (m : Mat) : bool := bool_decide (rows m * cols m <= 0).

(** [fs_opendir p] is [None] when [opendir] returns NULL, and otherwise the
    [d_name]s that successive [readdir] calls return, in that order;
    [fs_stat p] is the [st_mode] that [stat] fills in, [None] when it
    returns -1; [fs_access p] tells whether [access(p, 0) == 0];
    [fs_imread p] is what [imread] returns for [p] (an empty [Mat] when
    the file does not decode; the flag of the call changes the channels,
    not the dimensions); [fs_ofstream p] tells whether an [ofstream] opened
    on [p] is open.  These are the answers while the process has a file
    descriptor to spare: [opendir], [imread] and [ofstream] each need one.
    The process starts with at least three free descriptors, and
    [fs_spare] is the number it has beyond these three (the limit
    RLIMIT_NOFILE less the descriptors in use at the start).
    [fs_encoder p] tells whether [cv::imwrite] finds an encoder for the
    extension of the file name [p]; it raises a [cv::Exception] when it
    finds none. *)
Record FileSystem := mkFS {
  fs_opendir : string → option (list string);
  fs_stat : string → option Z;
  fs_access : string → bool;
  fs_imread : string → Mat;
  fs_ofstream : string → bool;
  fs_spare : nat;
  fs_encoder : string → bool
}.

(** The number of descriptors that the process can hold at a time, besides
    those it starts with. *)
Definition nofile (fs : FileSystem) : nat := (3 + fs_spare fs)%nat.

(** The file system as the process sees it while it holds [opened]
    descriptors: with none to spare no directory opens, no image is read
    and no output stream opens; [stat] and [access] need no descriptor. *)
Definition at_open (fs : FileSystem) (opened : nat) : FileSystem :=
  if (opened <? nofile fs)%nat then fs
  else mkFS (λ _, None) (fs_stat fs) (fs_access fs) (λ _, mkMat 0 0)
         (λ _, false) (fs_spare fs) (fs_encoder fs).

(** The file-type bits of [st_mode] (<sys/stat.h>, octal 0170000, 0100000
    and 0040000 on Linux). *)
Definition S_IFMT : Z := 61440.
Definition S_IFREG : Z := 32768.
Definition S_IFDIR : Z := 16384.
Definition S_ISREG (m : Z) : bool := Z.land m S_IFMT =? S_IFREG.
Definition S_ISDIR (m : Z) : bool := Z.land m S_IFMT =? S_IFDIR.

(** ** Directory catalog *)

Inductive DirectoryItemType : Set :=
  | DIRITEM_OTHER
  | DIRITEM_FILE
  | DIRITEM_DIR.

#[global] Instance DirectoryItemType_eq_dec : EqDecision DirectoryItemType.
Proof. solve_decision. Defined.

#[global] Instance DirectoryItemType_inhabited : Inhabited DirectoryItemType :=
  populate DIRITEM_OTHER.

(** The item type computed from [st_mode] by the two successive [if]s. *)
Definition item_type_of_mode (st_mode : Z) : DirectoryItemType :=
  let itemType := DIRITEM_OTHER in
  let itemType := if S_ISREG st_mode then DIRITEM_FILE else itemType in
  let itemType := if S_ISDIR st_mode then DIRITEM_DIR else itemType in
  itemType.

(** The [while ((dirp = readdir(dp)) != NULL)] loop, over the entries that
    remain to be read.  The result is the returned [int] and the two output
    vectors as they stand at the [return]. *)
Fixpoint readdir_loop (fs : FileSystem) (dirpath : string)
    (entries : list string) (items : list string)
    (types : list DirectoryItemType)
  : Z * (list string * list DirectoryItemType) :=
  match entries with
  | [] => (0, (items, types))
  | d_name :: entries' =>
      if is_hidden d_name then readdir_loop fs dirpath entries' items types
      else
        let fullname := path_join dirpath d_name in
        match fs_stat fs fullname with
        | None => (-1, (items, types))
        | Some st_mode =>
            readdir_loop fs dirpath entries'
              (items ++ [d_name]) (types ++ [item_type_of_mode st_mode])
        end
  end.

(** [traverseDirectory(dirpath, items, types)]: the vectors passed by
    reference come in as [items0] and [types0]. *)
Definition traverseDirectory (fs : FileSystem) (dirpath : string)
    (items0 : list string) (types0 : list DirectoryItemType)
  : Z * (list string * list DirectoryItemType) :=
  let items := @nil string in
  let types := @nil DirectoryItemType in
  match fs_opendir fs dirpath with
  | None => (-1, (items, types))
  | Some entries => readdir_loop fs dirpath entries items types
  end.

(** [traverseDirectory] never calls [closedir]: a call made while the
    process holds [opened] descriptors leaves one more in use when the
    directory opens, however the call returns. *)
Definition opened_after (fs : FileSystem) (opened : nat) (dirpath : string)
  : nat :=
  match fs_opendir (at_open fs opened) dirpath with
  | Some _ => S opened
  | None => opened
  end.

(** *** What a directory holds, in the words of the specification *)

(** The entries of a listing that are not hidden. *)
Definition visible (entries : list string) : list string :=
  filter (λ n, is_hidden n = false) entries.

(** The classification of the entry [name] of directory [dirpath]. *)
Definition entry_type (fs : FileSystem) (dirpath name : string)
  : option DirectoryItemType :=
  item_type_of_mode <$> fs_stat fs (path_join dirpath name).

(** ** Containers and exceptions *)

(** [m.insert(pair(k, v))] on a [std::map]: an existing key keeps its
    value. *)
Definition map_insert `{Countable K} {V} (k : K) (v : V) (m : gmap K V)
  : gmap K V :=
  match m !! k with
  | Some _ => m
  | None => <[k := v]> m
  end.

(** [m[k]] on a [std::map<int, string>]: a missing key is first inserted
    with a default-constructed (empty) string.  The result is the string
    read and the map afterwards. *)
Definition map_index (k : Z) (m : gmap Z string) : string * gmap Z string :=
  match m !! k with
  | Some v => (v, m)
  | None => ("", <[k := ""]> m)
  end.

(** The order in which a [std::map<int, string>] is iterated. *)
Definition label_le (a b : Z * string) : Prop := a.1 ≤ b.1.

#[global] Instance label_le_dec : RelDecision label_le.
Proof. intros a b. unfold label_le. apply _. Defined.

(** How a call that may throw a [cv::Exception] ends. *)
Inductive outcome : Type :=
  | Returned
  | Thrown (error_message : string).

(** ** OpenCV calls, by their contract on dimensions *)

Record Rect := mkRect { rx : Z; ry : Z; rwidth : Z; rheight : Z }.

(** [cv::resize(src, dst, Size(width, height), 1.0, 1.0, INTER_CUBIC)]:
    an empty source fails the library's assertion (a [cv::Exception]); a
    size of zero area stands for the source size scaled by the factors
    1.0; otherwise the destination has the size asked for. *)
Definition resize (src : Mat) (width height : Z) : option Mat :=
  if Mat_empty src then None
  else if width * height =? 0 then Some src
  else Some (mkMat height width).

(** [m(roi)], the region of interest of a matrix: the library asserts that
    the rectangle lies inside the matrix. *)
Definition Mat_roi (m : Mat) (roi : Rect) : option Mat :=
  if bool_decide (0 <= rx roi ∧ 0 <= rwidth roi ∧ rx roi + rwidth roi <= cols m
                  ∧ 0 <= ry roi ∧ 0 <= rheight roi
                  ∧ ry roi + rheight roi <= rows m)
  then Some (mkMat (rheight roi) (rwidth roi))
  else None.

Definition resize_error : string := "ssize.area() > 0".
Definition roi_error : string := "roi inside the matrix".

(** [cv::imwrite(filename, img)] on an image that is not empty: it raises
    a [cv::Exception] when no encoder matches the extension of the name,
    and otherwise returns (whether the file could be written or not: the
    tools do not look at the value returned). *)
Definition imwrite_error : string :=
  "could not find a writer for the specified extension".

Definition imwrite (encoder : string → bool) (filename : string) : outcome :=
  if encoder filename then Returned else Thrown imwrite_error.

(** The conversion [(char) key] of the [int] that [waitKey] returns: the
    low eight bits, as a signed value. *)
Definition char_of_int (key : Z) : Z := (key + 128) mod 256 - 128.

Definition STD_PROTRAIT_SIZE : Z := 256.
Definition STD_FACE_REC_SIZE : Z := 64.
Definition STD_DETECT_FRAME_WIDTH : Z := 320.
Definition STD_DETECT_FRAME_HEIGHT : Z := 240.

(** ** Dataset loader *)

(** The three result containers of [loadFaceData]. *)
Record FaceData := mkFaceData {
  images : list Mat;
  labels : list Z;
  names : gmap Z string
}.

(** The loop over [j] of [loadFaceData], for the person directory at index
    [i] of the faces listing; [js] are the indices still to visit.  An
    index is read with [!!!]: the two vectors come from one call of
    [traverseDirectory] and have the same length, so no read is out of
    range. *)
Fixpoint load_images (fs : FileSystem) (faceImagePath : string) (i : nat)
    (name_i : string) (items_face : list string)
    (types_face : list DirectoryItemType) (js : list nat) (d : FaceData)
  : outcome * FaceData :=
  match js with
  | [] => (Returned, d)
  | j :: js' =>
      if negb (bool_decide (types_face !!! j = DIRITEM_FILE))
      then load_images fs faceImagePath i name_i items_face types_face js' d
      else
        let imagePath := path_join faceImagePath (items_face !!! j) in
        let img_original := fs_imread fs imagePath in
        match resize img_original STD_FACE_REC_SIZE STD_FACE_REC_SIZE with
        | None => (Thrown resize_error, d)
        | Some img_resized =>
            load_images fs faceImagePath i name_i items_face types_face js'
              {| images := images d ++ [img_resized];
                 labels := labels d ++ [Z.of_nat i];
                 names := map_insert (Z.of_nat i) name_i (names d) |}
        end
  end.

(** The loop over [i] of [loadFaceData]; [items_face] and [types_face] are
    the vectors reused from one iteration to the next, and [opened] is the
    number of descriptors that the process holds: every person directory
    that opens adds one, and an image is read while they are all held.
    The result gives that number as well. *)
Fixpoint load_persons (fs : FileSystem) (faceDataPath : string)
    (items_data : list string) (types_data : list DirectoryItemType)
    (ix : list nat) (items_face : list string)
    (types_face : list DirectoryItemType) (opened : nat) (d : FaceData)
  : outcome * FaceData * nat :=
  match ix with
  | [] => (Returned, d, opened)
  | i :: ix' =>
      if negb (bool_decide (types_data !!! i = DIRITEM_DIR))
      then load_persons fs faceDataPath items_data types_data ix'
             items_face types_face opened d
      else
        let faceImagePath := path_join faceDataPath (items_data !!! i) in
        let '(r, (items_face, types_face)) :=
          traverseDirectory (at_open fs opened) faceImagePath items_face
            types_face in
        let opened := opened_after fs opened faceImagePath in
        if r <? 0 then
          (Thrown ("Cannot read the face image directory "
                     +:+ faceImagePath +:+ "."), d, opened)
        else
          match load_images (at_open fs opened) faceImagePath i
                  (items_data !!! i) items_face types_face
                  (seq 0%nat (length items_face)) d with
          | (Returned, d') =>
              load_persons fs faceDataPath items_data types_data ix'
                items_face types_face opened d'
          | (thrown, d') => (thrown, d', opened)
          end
  end.

(** [loadFaceData(datapath, images, labels, names)], called while the
    process holds [opened] descriptors; the containers passed by reference
    come in as [d0], and the result gives them as they stand when the call
    returns or throws, with the number of descriptors then held. *)
Definition loadFaceData_at (fs : FileSystem) (opened : nat)
    (datapath : string) (d0 : FaceData) : outcome * FaceData * nat :=
  let d := {| images := []; labels := []; names := ∅ |} in
  let faceDataPath := datapath +:+ "/faces" in
  let '(r, (items_data, types_data)) :=
    traverseDirectory (at_open fs opened) faceDataPath [] [] in
  let opened := opened_after fs opened faceDataPath in
  if r <? 0 then
    (Thrown ("Cannot read the face database directory "
               +:+ faceDataPath +:+ "."), d, opened)
  else
    load_persons fs faceDataPath items_data types_data
      (seq 0%nat (length items_data)) [] [] opened d.

(** The call as the tools make it, before they have opened anything: how
    it ends and the containers. *)
Definition loadFaceData (fs : FileSystem) (datapath : string) (d0 : FaceData)
  : outcome * FaceData :=
  (loadFaceData_at fs 0 datapath d0).1.

(** ** The output step of the two batch tools *)

(** The text file written through [ofsInfo]: its lines, each ended by
    [endl]; [None] when the stream did not open and nothing was written.
    [ssInfo] is what the string stream holds. *)
Definition write_info (fs : FileSystem) (fn_info : string) (ssInfo : string)
  : option (list string) :=
  if fs_ofstream fs fn_info then
    let strInfo := extract_word ssInfo in
    Some ["[" +:+ strInfo +:+ "]"]
  else None.

(** ** Name2Protraits *)

(** The loop over [j], appending the quoted paths to [ssInfo]. *)
Fixpoint usrprotraits_loop (dir_usrprotraits : string)
    (items_usrprotraits : list string)
    (types_usrprotraits : list DirectoryItemType) (js : list nat)
    (ssInfo : string) (firstFileFlag : bool) : string :=
  match js with
  | [] => ssInfo
  | j :: js' =>
      if bool_decide (types_usrprotraits !!! j = DIRITEM_FILE) then
        let ssInfo := if negb firstFileFlag then ssInfo +:+ "," else ssInfo in
        let protraitImagePath :=
          path_join dir_usrprotraits (items_usrprotraits !!! j) in
        let ssInfo := ssInfo +:+ dquote +:+ protraitImagePath +:+ dquote in
        usrprotraits_loop dir_usrprotraits items_usrprotraits
          types_usrprotraits js' ssInfo false
      else
        usrprotraits_loop dir_usrprotraits items_usrprotraits
          types_usrprotraits js' ssInfo firstFileFlag
  end.

(** The loop over [i], looking for the entry called [name]; it stops at the
    first one. *)
Fixpoint protraits_loop (fs : FileSystem) (dir_protraits name : string)
    (items_protraits : list string)
    (types_protraits : list DirectoryItemType) (ix : list nat)
    (ssInfo : string) : string :=
  match ix with
  | [] => ssInfo
  | i :: ix' =>
      if bool_decide (name = items_protraits !!! i) then
        if bool_decide (types_protraits !!! i ≠ DIRITEM_DIR) then ssInfo
        else
          let dir_usrprotraits := path_join dir_protraits name in
          let '(_, (items_usrprotraits, types_usrprotraits)) :=
            traverseDirectory fs dir_usrprotraits [] [] in
          usrprotraits_loop dir_usrprotraits items_usrprotraits
            types_usrprotraits (seq 0%nat (length items_usrprotraits))
            ssInfo true
      else
        protraits_loop fs dir_protraits name items_protraits types_protraits
          ix' ssInfo
  end.

(** What [ssInfo] holds when the output step is reached.  The tool opens
    two directories at most and then the output file: the three
    descriptors that a process starts with suffice for it, so that its
    calls get the answers of [fs] itself. *)
Definition Name2Protraits_ssInfo (fs : FileSystem) (dir_data name : string)
  : string :=
  let ssInfo := "" in
  let dir_protraits := dir_data +:+ "/protraits" in
  if fs_access fs dir_protraits then
    let '(_, (items_protraits, types_protraits)) :=
      traverseDirectory fs dir_protraits [] [] in
    protraits_loop fs dir_protraits name items_protraits types_protraits
      (seq 0%nat (length items_protraits)) ssInfo
  else ssInfo.

(** [main] of Name2Protraits.cpp on the arguments [argv] (the program name
    first): the exit status and the output file. *)
Definition Name2Protraits_main (fs : FileSystem) (argv : list string)
  : Z * option (list string) :=
  match argv with
  | [_; dir_data; name; fn_info] =>
      (0, write_info fs fn_info (Name2Protraits_ssInfo fs dir_data name))
  | _ => (1, None)
  end.

(** ** The detector and the recognizer, as black boxes *)

(** One rectangle of [haar_cascade.detectMultiScale], with what
    [model->predict] answers for the face cropped from it. *)
Record Face := mkFace {
  face_rect : Rect;
  face_prediction : Z;
  face_confidence : float
}.

(** What is drawn on the output image for one face: the rectangle, and the
    origin, name and confidence of the text put above it. *)
Record Annotation := mkAnnotation {
  ann_rect : Rect;
  ann_org : Z * Z;
  ann_name : string;
  ann_confidence : float
}.

(** How a process ends: [exit(code)] or a return from [main]; an uncaught
    [cv::Exception]; or undefined behaviour (reading [images[0]] of an
    empty vector). *)
Inductive ending : Type :=
  | Exit (code : Z)
  | Terminated (what : string)
  | Undefined.

(** [cvtColor(src, gray, CV_BGR2GRAY)]: same dimensions; an empty source
    fails the library's assertion on the channel count. *)
Definition cvtColor (src : Mat) : option Mat :=
  if Mat_empty src then None else Some src.

Definition cvtColor_error : string := "scn == 3 || scn == 4".

(** *** Conversions between [int] and [double] *)

(** [(double)n] for an [int]: exact. *)
Definition double_of_int (n : Z) : float :=
  if n <? 0 then PrimFloat.opp (PrimFloat.of_uint63 (Uint63.of_Z (- n)))
  else PrimFloat.of_uint63 (Uint63.of_Z n).

(** The implicit conversion of a [double] to [int]: the fractional part is
    discarded.  (The conversion is undefined in C++ for a value that is not
    finite or does not fit; the model gives 0 for NaN and infinities.) *)
Definition int_of_double (f : float) : Z :=
  match Prim2SF f with
  | S754_finite s m e =>
      let a := if 0 <=? e then Z.shiftl (Zpos m) e
               else Z.shiftr (Zpos m) (- e) in
      if s then - a else a
  | _ => 0
  end.

(** [Rect face_i_original(...)] of the live loop. *)
Definition scale_rect (face_i : Rect) (invfscale_x invfscale_y : float)
  : Rect :=
  {| rx := int_of_double (double_of_int (rx face_i) * invfscale_x)%float;
     ry := int_of_double (double_of_int (ry face_i) * invfscale_y)%float;
     rwidth :=
       int_of_double (double_of_int (rwidth face_i) * invfscale_x)%float;
     rheight :=
       int_of_double (double_of_int (rheight face_i) * invfscale_y)%float |}.

Definition invfscale_x (frame : Mat) : float :=
  (double_of_int (cols frame) / double_of_int STD_DETECT_FRAME_WIDTH)%float.
Definition invfscale_y (frame : Mat) : float :=
  (double_of_int (rows frame) / double_of_int STD_DETECT_FRAME_HEIGHT)%float.

Section Tools.

(** [stream << x] for a [double]: the text is chosen by the C++ runtime. *)
Variable show_double : float → string.

(** How [model->train(images, labels)] ends. *)
Variable train_result : list Mat → list Z → outcome.

(** ** FaceRecognitionImage *)

Definition quoted (s : string) : string := dquote +:+ s +:+ dquote.

(** The JSON object appended to [ssInfo] for one face. *)
Definition json_face (strName : string) (confidence : float) (face_i : Rect)
  : string :=
  "{"
  +:+ quoted "prediction" +:+ ":" +:+ quoted strName +:+ ","
  +:+ quoted "confidence" +:+ ":" +:+ show_double confidence +:+ ","
  +:+ quoted "position" +:+ ":" +:+ "{"
      +:+ quoted "x" +:+ ":" +:+ show_int (rx face_i) +:+ ","
      +:+ quoted "y" +:+ ":" +:+ show_int (ry face_i)
      +:+ "},"
  +:+ quoted "size" +:+ ":" +:+ "{"
      +:+ quoted "width" +:+ ":" +:+ show_int (rwidth face_i) +:+ ","
      +:+ quoted "height" +:+ ":" +:+ show_int (rheight face_i)
      +:+ "}"
  +:+ "}".

(** The loop "Recognize all the faces found", from face number [i] on.  The
    state is the registry [names] (which [names[prediction]] may extend),
    the stream [ssInfo] and what has been drawn on [original]. *)
Fixpoint recognize_loop (gray : Mat) (im_width im_height : Z)
    (has_outimage : bool) (faces : list Face) (i : nat)
    (names : gmap Z string) (ssInfo : string) (drawn : list Annotation)
  : outcome * (gmap Z string * string * list Annotation) :=
  match faces with
  | [] => (Returned, (names, ssInfo, drawn))
  | f :: faces' =>
      let face_i := face_rect f in
      match Mat_roi gray face_i with
      | None => (Thrown roi_error, (names, ssInfo, drawn))
      | Some face =>
          match resize face im_width im_height with
          | None => (Thrown resize_error, (names, ssInfo, drawn))
          | Some face_resized =>
              let confidence := face_confidence f in
              let prediction := face_prediction f in
              let '(strName, names) := map_index prediction names in
              let drawn :=
                if has_outimage then
                  let pos_x := Z.max (rx face_i - 10) 0 in
                  let pos_y := Z.max (ry face_i - 10) 0 in
                  drawn ++ [mkAnnotation face_i (pos_x, pos_y) strName
                              confidence]
                else drawn in
              let ssInfo :=
                if bool_decide (0 < i)%nat then ssInfo +:+ "," else ssInfo in
              let ssInfo := ssInfo +:+ json_face strName confidence face_i in
              recognize_loop gray im_width im_height has_outimage faces'
                (S i) names ssInfo drawn
          end
      end
  end.

(** What a run of the tool leaves behind. *)
Record BatchRun := mkBatchRun {
  br_ending : ending;
  br_outinfo : option (list string);
  br_outimage : option (list Annotation)
}.

(** [main] of FaceRecognitionImage.cpp on the arguments [argv] (the program
    name first), up to the output step; [faces] is what the detector and
    the recognizer answer on the input image.  The result is how the run
    ended, when it ended before the output step, and otherwise the number
    of descriptors that the process holds (the loader has left one per
    directory it opened), the names of the two output files,
    [has_outimage], what [ssInfo] holds and what was drawn. *)
Definition FaceRecognitionImage_recognize (fs : FileSystem)
    (argv : list string) (faces : list Face)
  : ending + (nat * string * string * bool * string * list Annotation) :=
  match argv with
  | _ :: fn_cascade :: dir_data :: fn_inimage :: fn_outinfo :: rest =>
      let fn_outimage := "" in
      let has_outimage := false in
      let '(fn_outimage, has_outimage) :=
        match rest with
        | a5 :: _ => (a5, true)
        | [] => (fn_outimage, has_outimage)
        end in
      let dir_faces := dir_data +:+ "/faces" in
      if negb (fs_access fs dir_faces) then inl (Exit 1)
      else
        match loadFaceData_at fs 0 dir_data (mkFaceData [] [] ∅) with
        | (Thrown _, _, _) => inl (Exit 1)
        | (Returned, d, opened) =>
            match images d with
            | [] => inl Undefined
            | images_0 :: _ =>
                let im_width := cols images_0 in
                let im_height := rows images_0 in
                match train_result (images d) (labels d) with
                | Thrown e => inl (Terminated e)
                | Returned =>
                    let original :=
                      fs_imread (at_open fs opened) fn_inimage in
                    match cvtColor original with
                    | None => inl (Terminated cvtColor_error)
                    | Some gray =>
                        match recognize_loop gray im_width im_height
                                has_outimage faces 0 (names d) "" [] with
                        | (Thrown e, _) => inl (Terminated e)
                        | (Returned, (_, ssInfo, drawn)) =>
                            inr (opened, fn_outinfo, fn_outimage,
                                 has_outimage, ssInfo, drawn)
                        end
                    end
                end
            end
        end
  | _ => inl (Exit 1)
  end.

(** The whole of [main]: the output step follows, and then [imwrite] of the
    annotated image when one was asked for.  An exception of [imwrite] is
    not caught: the process is terminated after the information file has
    been written.  [br_outimage] is what is drawn on the image handed to
    an [imwrite] that returns. *)
Definition FaceRecognitionImage_main (fs : FileSystem) (argv : list string)
    (faces : list Face) : BatchRun :=
  match FaceRecognitionImage_recognize fs argv faces with
  | inl e => mkBatchRun e None None
  | inr (opened, fn_outinfo, fn_outimage, has_outimage, ssInfo, drawn) =>
      match write_info (at_open fs opened) fn_outinfo ssInfo with
      | None => mkBatchRun (Exit 1) None None
      | Some text =>
          if has_outimage then
            match imwrite (fs_encoder fs) fn_outimage with
            | Thrown e => mkBatchRun (Terminated e) (Some text) None
            | Returned => mkBatchRun (Exit 0) (Some text) (Some drawn)
            end
          else mkBatchRun (Exit 0) (Some text) None
      end
  end.

(** ** FaceCollection *)

(** The variables of [main] that the loop changes: the dataset and its two
    registries, the data the recognizer was last trained on, the flags set
    from the keyboard, the counter of saved images and the image files
    written so far. *)
Record Session := mkSession {
  s_images : list Mat;
  s_labels : list Z;
  s_names : gmap Z string;
  s_name2label : gmap string Z;
  s_model : list Mat * list Z;
  s_saveFaceFlag : bool;
  s_saveProtraitFlag : bool;
  s_saveImageCount : Z;
  s_written : list (string * Mat)
}.

(** What does not change during the loop; [has_encoder] tells for which
    file names [cv::imwrite] finds an encoder. *)
Record Setup := mkSetup {
  expectName : string;
  dir_usrfaces : string;
  dir_usrprotraits : string;
  im_width : Z;
  im_height : Z;
  inv_x : float;
  inv_y : float;
  has_encoder : string → bool
}.

(** The file name built in [ssFilename] and read back with [>>]. *)
Definition image_filename (dir : string) (now saveImageCount : Z) : string :=
  extract_word
    (dir +:+ "/" +:+ show_int now +:+ "_" +:+ show_int saveImageCount
       +:+ ".jpg").

(** The block "Check if save face image", entered when [saveFaceFlag] is
    set; [now] is what [time(NULL)] returns.  [imwrite] comes first: when
    it raises, nothing of the block has been done.  [s_written] takes the
    files handed to an [imwrite] that returned. *)
Definition enroll_face (cfg : Setup) (now : Z) (face_resized : Mat)
    (s : Session) : outcome * Session :=
  let strFilename :=
    image_filename (dir_usrfaces cfg) now (s_saveImageCount s) in
  match imwrite (has_encoder cfg) strFilename with
  | Thrown e => (Thrown e, s)
  | Returned =>
      let written := s_written s ++ [(strFilename, face_resized)] in
      let saveImageCount := s_saveImageCount s + 1 in
      let usrLabel := -1 in
      let usrLabel :=
        match s_name2label s !! expectName cfg with
        | Some l => l
        | None => usrLabel
        end in
      let images := s_images s ++ [face_resized] in
      let labels := s_labels s ++ [usrLabel] in
      let names := map_insert usrLabel (expectName cfg) (s_names s) in
      let name2label :=
        map_insert (expectName cfg) usrLabel (s_name2label s) in
      match train_result images labels with
      | Thrown e =>
          (Thrown e,
           mkSession images labels names name2label (s_model s)
             (s_saveFaceFlag s) (s_saveProtraitFlag s) saveImageCount
             written)
      | Returned =>
          (Returned,
           mkSession images labels names name2label (images, labels)
             false (s_saveProtraitFlag s) saveImageCount written)
      end
  end.

(** The block "Check if save protrait image". *)
Definition save_protrait (cfg : Setup) (now : Z) (original_resized : Mat)
    (face_i : Rect) (s : Session) : outcome * Session :=
  match Mat_roi original_resized face_i with
  | None => (Thrown roi_error, s)
  | Some protrait =>
      match resize protrait STD_PROTRAIT_SIZE STD_PROTRAIT_SIZE with
      | None => (Thrown resize_error, s)
      | Some protrait_resize =>
          let strFilename :=
            image_filename (dir_usrprotraits cfg) now (s_saveImageCount s) in
          match imwrite (has_encoder cfg) strFilename with
          | Thrown e => (Thrown e, s)
          | Returned =>
              (Returned,
               mkSession (s_images s) (s_labels s) (s_names s)
                 (s_name2label s) (s_model s) (s_saveFaceFlag s) false
                 (s_saveImageCount s + 1)
                 (s_written s ++ [(strFilename, protrait_resize)]))
          end
      end
  end.

(** The body of the loop "Process all the faces detected" for one face:
    how it ends, the session afterwards and, when the end of the body is
    reached, what is drawn on the preview. *)
Definition process_face (cfg : Setup) (gray original_resized : Mat)
    (now : Z) (f : Face) (s : Session)
  : outcome * Session * option Annotation :=
  let face_i := face_rect f in
  let face_i_original := scale_rect face_i (inv_x cfg) (inv_y cfg) in
  match Mat_roi gray face_i with
  | None => (Thrown roi_error, s, None)
  | Some face =>
      match resize face (im_width cfg) (im_height cfg) with
      | None => (Thrown resize_error, s, None)
      | Some face_resized =>
          let confidence := face_confidence f in
          let prediction := face_prediction f in
          match (if s_saveFaceFlag s then enroll_face cfg now face_resized s
                 else (Returned, s)) with
          | (Thrown e, s) => (Thrown e, s, None)
          | (Returned, s) =>
              match (if s_saveProtraitFlag s
                     then save_protrait cfg now original_resized face_i s
                     else (Returned, s)) with
              | (Thrown e, s) => (Thrown e, s, None)
              | (Returned, s) =>
                  let '(strName, names) := map_index prediction (s_names s) in
                  let pos_x := Z.max (rx face_i_original - 10) 0 in
                  let pos_y := Z.max (ry face_i_original - 10) 0 in
                  (Returned,
                   mkSession (s_images s) (s_labels s) names (s_name2label s)
                     (s_model s) (s_saveFaceFlag s) (s_saveProtraitFlag s)
                     (s_saveImageCount s) (s_written s),
                   Some (mkAnnotation face_i_original (pos_x, pos_y) strName
                           confidence))
              end
          end
      end
  end.

Fixpoint process_faces (cfg : Setup) (gray original_resized : Mat) (now : Z)
    (faces : list Face) (s : Session) (drawn : list Annotation)
  : outcome * Session * list Annotation :=
  match faces with
  | [] => (Returned, s, drawn)
  | f :: faces' =>
      match process_face cfg gray original_resized now f s with
      | (Returned, s, Some a) =>
          process_faces cfg gray original_resized now faces' s (drawn ++ [a])
      | (Returned, s, None) =>
          process_faces cfg gray original_resized now faces' s drawn
      | (Thrown e, s, _) => (Thrown e, s, drawn)
      end
  end.

(** One turn of the [for(;;)] loop: the frame grabbed, the faces found in
    it with the recognizer's answers, the clock, and the [int] that
    [waitKey] returns at the end of the turn. *)
Record Turn := mkTurn {
  turn_frame : Mat;
  turn_faces : list Face;
  turn_now : Z;
  turn_key : Z
}.

(** One turn: how it ends, the session afterwards, the preview shown and
    whether [exitAppFlag] was set. *)
Definition process_frame (cfg : Setup) (t : Turn) (s : Session)
  : outcome * Session * list Annotation * bool :=
  let original := turn_frame t in
  match resize original STD_DETECT_FRAME_WIDTH STD_DETECT_FRAME_HEIGHT with
  | None => (Thrown resize_error, s, [], false)
  | Some original_resized =>
      match cvtColor original_resized with
      | None => (Thrown cvtColor_error, s, [], false)
      | Some gray =>
          match process_faces cfg gray original_resized (turn_now t)
                  (turn_faces t) s [] with
          | (Thrown e, s, drawn) => (Thrown e, s, drawn, false)
          | (Returned, s, drawn) =>
              let key := char_of_int (turn_key t) in
              if key =? 27 then (Returned, s, drawn, true)
              else if key =? 112 then
                (Returned,
                 mkSession (s_images s) (s_labels s) (s_names s)
                   (s_name2label s) (s_model s) (s_saveFaceFlag s) true
                   (s_saveImageCount s) (s_written s), drawn, false)
              else if key =? 32 then
                (Returned,
                 mkSession (s_images s) (s_labels s) (s_names s)
                   (s_name2label s) (s_model s) true (s_saveProtraitFlag s)
                   (s_saveImageCount s) (s_written s), drawn, false)
              else (Returned, s, drawn, false)
          end
      end
  end.

(** The [for(;;)] loop over the turns that the camera and the user
    provide: it stops at the turn that sets [exitAppFlag], or with the
    exception that a turn throws; the previews shown are collected. *)
Fixpoint capture_loop (cfg : Setup) (turns : list Turn) (s : Session)
    (shown : list (list Annotation))
  : outcome * Session * list (list Annotation) :=
  match turns with
  | [] => (Returned, s, shown)
  | t :: turns' =>
      match process_frame cfg t s with
      | (Thrown e, s, _, _) => (Thrown e, s, shown)
      | (Returned, s, drawn, exitAppFlag) =>
          if exitAppFlag then (Returned, s, shown ++ [drawn])
          else capture_loop cfg turns' s (shown ++ [drawn])
      end
  end.

(** [name2label] as built from [names] after loading: the entries of
    [names] are visited by increasing label and inserted by name. *)
Definition build_name2label (names : gmap Z string) : gmap string Z :=
  foldl (λ m kv, map_insert kv.2 kv.1 m) ∅
    (merge_sort label_le (map_to_list names)).

(** The start of [main] of FaceCollection.cpp, from loading the database to
    the first frame [frame0]: the setup of the loop and the session it
    starts in; [None] stands for the runs that do not reach the loop. *)
Definition start_session (fs : FileSystem) (dir_data expectName : string)
    (frame0 : Mat) : option (Setup * Session) :=
  let dir_faces := dir_data +:+ "/faces" in
  let dir_protraits := dir_data +:+ "/protraits" in
  let dir_usrfaces := path_join dir_faces expectName in
  let dir_usrprotraits := path_join dir_protraits expectName in
  match loadFaceData fs dir_data (mkFaceData [] [] ∅) with
  | (Thrown _, _) => None
  | (Returned, d) =>
      let name2label := build_name2label (names d) in
      match images d with
      | [] => None
      | images_0 :: _ =>
          match train_result (images d) (labels d) with
          | Thrown _ => None
          | Returned =>
              Some (mkSetup expectName dir_usrfaces dir_usrprotraits
                      (cols images_0) (rows images_0)
                      (invfscale_x frame0) (invfscale_y frame0)
                      (fs_encoder fs),
                    mkSession (images d) (labels d) (names d) name2label
                      (images d, labels d) false false 0 [])
          end
      end
  end.

End Tools.

(** ** The database layout, in the words of the specification *)

(** The catalog of a directory: its visible entries, each with its kind;
    it fails when the directory cannot be opened or an entry cannot be
    examined. *)
Definition catalog (fs : FileSystem) (dir : string)
  : option (list (string * DirectoryItemType)) :=
  entries ← fs_opendir fs dir;
  mapM (λ n, pair n <$> entry_type fs dir n) (visible entries).

Definition person_dirs (l : list (string * DirectoryItemType)) : list string :=
  (filter (λ e, e.2 = DIRITEM_DIR) l).*1.

Definition regular_files (l : list (string * DirectoryItemType))
  : list string :=
  (filter (λ e, e.2 = DIRITEM_FILE) l).*1.

Definition faces_path (datapath : string) : string := datapath +:+ "/faces".

Definition person_path (datapath p : string) : string :=
  path_join (faces_path datapath) p.

(** The image file decodes to an image that is not empty. *)
Definition decodes (fs : FileSystem) (path : string) : Prop :=
  Mat_empty (fs_imread fs path) = false.

(** A person directory that can be listed and whose regular files are
    images. *)
Definition valid_person (fs : FileSystem) (datapath p : string) : Prop :=
  ∃ lp, catalog fs (person_path datapath p) = Some lp
        ∧ Forall (λ f, decodes fs (path_join (person_path datapath p) f))
            (regular_files lp).

(** A valid two-level layout [faces/<name>/<image>]. *)
Definition valid_layout (fs : FileSystem) (datapath : string) : Prop :=
  ∃ l, catalog fs (faces_path datapath) = Some l
       ∧ Forall (valid_person fs datapath) (person_dirs l).

(** The person directories that the faces directory enumerates, and the
    number of regular image files of one of them. *)
Definition persons (fs : FileSystem) (datapath : string) : list string :=
  person_dirs (default [] (catalog fs (faces_path datapath))).

Definition image_count (fs : FileSystem) (datapath p : string) : nat :=
  length (regular_files (default [] (catalog fs (person_path datapath p)))).

Definition label_set (d : FaceData) : gset Z := list_to_set (labels d).

Definition canonical (m : Mat) : Prop :=
  cols m = STD_FACE_REC_SIZE ∧ rows m = STD_FACE_REC_SIZE.

(** ** The output of the tools, in the words of the specification *)

(** The string holds no whitespace. *)
Fixpoint no_space (s : string) : bool :=
  match s with
  | EmptyString => true
  | String c s' => negb (isspace c) && no_space s'
  end.

(** The string does not begin with whitespace. *)
Definition starts_word (s : string) : Prop :=
  match s with
  | String c _ => isspace c = false
  | EmptyString => True
  end.

(** The elements of a JSON array, separated by commas. *)
Fixpoint join_comma (l : list string) : string :=
  match l with
  | [] => ""
  | x :: l' =>
      match l' with
      | [] => x
      | _ :: _ => x +:+ "," +:+ join_comma l'
      end
  end.

(** The text of the output file, for what [ssInfo] holds: the only line is
    the first word of [ssInfo] between brackets; it is the empty array for
    an empty stream, and the stream cut at its first whitespace when it
    has one. *)
Definition reported (ssInfo : string) (text : list string) : Prop :=
  text = ["[" +:+ extract_word ssInfo +:+ "]"]
  ∧ (ssInfo = "" → text = ["[]"])
  ∧ ∀ pre c rest,
      ssInfo = pre +:+ String c rest → no_space pre = true →
      isspace c = true → text = ["[" +:+ pre +:+ "]"].

(** A path that starts at the root. *)
Definition absolute (p : string) : Prop :=
  match p with
  | String c _ => c = "/"%char
  | EmptyString => False
  end.

(** The output file is a JSON array of exactly [K] absolute paths. *)
Definition lists_paths (out : option (list string)) (K : nat) : Prop :=
  ∃ paths, length paths = K ∧ Forall absolute paths
           ∧ out = Some ["[" +:+ join_comma (quoted <$> paths) +:+ "]"].

Definition protraits_path (dir_data : string) : string :=
  dir_data +:+ "/protraits".

(** The directory [dir] enumerates a visible entry [name] that is a
    directory. *)
Definition is_listed_dir (fs : FileSystem) (dir name : string) : Prop :=
  ∃ entries, fs_opendir fs dir = Some entries ∧ name ∈ visible entries
             ∧ entry_type fs dir name = Some DIRITEM_DIR.

(** The claim on Name2Protraits as the specification words it: the empty
    array when no directory matches the name, and otherwise as many
    absolute paths as the directory has regular files. *)
Definition portraits_as_specified (fs : FileSystem)
    (dir_data name fn_info : string) : Prop :=
  let run := Name2Protraits_main fs ["Name2Protraits"; dir_data; name; fn_info] in
  (¬ (fs_access fs (protraits_path dir_data) = true
      ∧ is_listed_dir fs (protraits_path dir_data) name) →
   run = (0, Some ["[]"]))
  ∧ ∀ lp,
      fs_access fs (protraits_path dir_data) = true →
      is_listed_dir fs (protraits_path dir_data) name →
      catalog fs (path_join (protraits_path dir_data) name) = Some lp →
      run.1 = 0 ∧ lists_paths run.2 (length (regular_files lp)).

(** ** The recognition loops, in the words of the specification *)

(** A detected rectangle that lies fully inside the frame. *)
Definition inside (frame : Mat) (r : Rect) : Prop :=
  0 <= rx r ∧ 0 < rwidth r ∧ rx r + rwidth r <= cols frame
  ∧ 0 <= ry r ∧ 0 < rheight r ∧ ry r + rheight r <= rows frame.



(** The name is new: the registries do not know it. *)
Definition brand_new (cfg : Setup) (s : Session) : Prop :=
  s_name2label s !! expectName cfg = None
  ∧ ∀ l, s_names s !! l ≠ Some (expectName cfg).

(** What the specification expects of one enrollment that takes the
    session from [s] to [s']: one more sample, one new registry entry from
    a label that was not in use to the name, and a recognizer trained on
    the whole dataset. *)
Definition enrolled (cfg : Setup) (s s' : Session) : Prop :=
  length (s_images s') = S (length (s_images s))
  ∧ length (s_labels s') = S (length (s_labels s))
  ∧ (∃ l, s_names s !! l = None
          ∧ s_names s' = <[l := expectName cfg]> (s_names s))
  ∧ s_model s' = (s_images s', s_labels s').


(** The claim on enrollment as the specification words it. *)
Definition enrollment_as_specified
    (train_result : list Mat → list Z → outcome) (cfg : Setup) (now : Z)
    (face_resized : Mat) (s : Session) : Prop :=
  brand_new cfg s →
  train_result (s_images s ++ [face_resized]) (s_labels s ++ [-1])
    = Returned →
  enrolled cfg s (enroll_face train_result cfg now face_resized s).2.

(** ** The loader, in the words of the specification *)

(** The numbers that the specification gives for a loaded database: as
    many samples as image files, as many distinct labels as person
    directories, and images of the canonical size. *)
Definition loader_counts (fs : FileSystem) (datapath : string) : Prop :=
  ∀ d0,
    let run := loadFaceData fs datapath d0 in
    run.1 = Returned
    ∧ length (images run.2)
      = sum_list (image_count fs datapath <$> persons fs datapath)
    ∧ length (labels run.2) = length (images run.2)
    ∧ size (label_set run.2) = length (persons fs datapath)
    ∧ Forall canonical (images run.2).

(** The labels that the specification gives: the person directories are
    numbered from 0 in the order of enumeration, other entries apart. *)
Definition labels_dense (fs : FileSystem) (datapath : string) : Prop :=
  ∀ d0,
    let d := (loadFaceData fs datapath d0).2 in
    (∀ k p, persons fs datapath !! k = Some p →
            names d !! Z.of_nat k = Some p)
    ∧ label_set d
      = list_to_set (Z.of_nat <$> seq 0%nat (length (persons fs datapath))).

(** Some directory of the database cannot be read: the faces directory, or
    a person directory that it lists. *)
Definition unreadable (fs : FileSystem) (datapath : string) : Prop :=
  catalog fs (faces_path datapath) = None
  ∨ ∃ p, p ∈ persons fs datapath
         ∧ catalog fs (person_path datapath p) = None.

(** The error exit that the specification gives: an error, with nothing in
    the containers. *)
Definition fails_empty (fs : FileSystem) (datapath : string) : Prop :=
  ∀ d0,
    let run := loadFaceData fs datapath d0 in
    (∃ e, run.1 = Thrown e)
    ∧ images run.2 = [] ∧ labels run.2 = [] ∧ names run.2 = ∅.

(** ** Auxiliary definitions of the proofs *)

(** The paths that the loop over [j] of Name2Protraits appends, by the
    indices it visits. *)
Definition indexed_paths (dir : string) (items : list string)
    (types : list DirectoryItemType) (js : list nat) : list string :=
  (λ j, path_join dir (items !!! j))
    <$> filter (λ j, types !!! j = DIRITEM_FILE) js.

Definition canonical_Mat : Mat := mkMat STD_FACE_REC_SIZE STD_FACE_REC_SIZE.

(** The containers after [m] images of the person at index [i] have been
    pushed. *)
Definition add_samples (m i : nat) (name_i : string) (d : FaceData)
  : FaceData :=
  {| images := images d ++ replicate m canonical_Mat;
     labels := labels d ++ replicate m (Z.of_nat i);
     names := if decide (m = 0%nat) then names d
              else map_insert (Z.of_nat i) name_i (names d) |}.

(** What the visit of index [i] of the catalog [l] of the faces directory
    adds to the containers. *)
Definition visit (fs : FileSystem) (datapath : string)
    (l : list (string * DirectoryItemType)) (d : FaceData) (i : nat)
  : FaceData :=
  if decide (l.*2 !!! i = DIRITEM_DIR)
  then add_samples (image_count fs datapath (l.*1 !!! i)) i (l.*1 !!! i) d
  else d.

(** The labels that the visit of index [i] pushes. *)
Definition pushed (fs : FileSystem) (datapath : string)
    (l : list (string * DirectoryItemType)) (i : nat) : list Z :=
  if decide (l.*2 !!! i = DIRITEM_DIR)
  then replicate (image_count fs datapath (l.*1 !!! i)) (Z.of_nat i)
  else [].

(** The number of image files of an entry of the faces directory that is a
    person directory. *)
Definition files_of (fs : FileSystem) (datapath : string)
    (e : string * DirectoryItemType) : nat :=
  if decide (e.2 = DIRITEM_DIR) then image_count fs datapath e.1 else 0%nat.

(** What holds of the containers of [loadFaceData] while it has visited the
    first [n] entries [items] of the faces directory: the images and the
    labels go in pairs, the images have the canonical size, the labels in
    use are the keys of the registry, lie below [n] and come in increasing
    order, and the registry maps a label to the entry at that index. *)
Definition loaded_inv (n : nat) (items : list string) (d : FaceData) : Prop :=
  length (images d) = length (labels d)
  ∧ Forall canonical (images d)
  ∧ (∀ z, z ∈ labels d ↔ is_Some (names d !! z))
  ∧ Forall (λ z, 0 ≤ z < Z.of_nat n) (labels d)
  ∧ StronglySorted Z.le (labels d)
  ∧ ∀ z name, names d !! z = Some name →
              ∃ i, z = Z.of_nat i ∧ items !! i = Some name.

(** The name that [names[prediction]] gives for a label: the registered
    one, and the empty string for a label that is not registered. *)
Definition resolve (names : gmap Z string) (prediction : Z) : string :=
  default "" (names !! prediction).

(** The JSON object and the annotation of a face in the batch tool, for
    the registry that the loop starts with. *)
Definition face_object (show_double : float → string)
    (names : gmap Z string) (f : Face) : string :=
  json_face show_double (resolve names (face_prediction f))
    (face_confidence f) (face_rect f).

Definition face_annotation (names : gmap Z string) (f : Face) : Annotation :=
  mkAnnotation (face_rect f)
    (Z.max (rx (face_rect f) - 10) 0, Z.max (ry (face_rect f) - 10) 0)
    (resolve names (face_prediction f)) (face_confidence f).

(** What holds of a session of the live tool between two faces: the images
    and the labels go in pairs, every image has the size of the setup, and
    the counter of saved images counts the files written. *)
Definition session_inv (cfg : Setup) (s : Session) : Prop :=
  length (s_images s) = length (s_labels s)
  ∧ Forall (λ m, m = mkMat (im_height cfg) (im_width cfg)) (s_images s)
  ∧ s_saveImageCount s = Z.of_nat (length (s_written s)).


(** The recognizer is trained on the dataset of the session. *)
Definition model_fresh (s : Session) : Prop :=
  s_model s = (s_images s, s_labels s).

(** The label that the live tool gives to a sample it enrolls: the one
    that [name2label] has for the name of the user, and -1 without one. *)
Definition user_label (cfg : Setup) (s : Session) : Z :=
  default (-1) (s_name2label s !! expectName cfg).

(** From [s] to [s'] the labels have grown by samples of the user only,
    and the label of the user is the same. *)
Definition same_user (cfg : Setup) (s s' : Session) : Prop :=
  user_label cfg s' = user_label cfg s
  ∧ ∃ k, s_labels s' = s_labels s ++ replicate k (user_label cfg s).

(** The visible entries of a directory that [traverseDirectory] gets to,
    each with its type: those enumerated before the first one that cannot
    be examined; none when the directory does not open. *)
Fixpoint scan (fs : FileSystem) (dir : string) (entries : list string)
  : list (string * DirectoryItemType) :=
  match entries with
  | [] => []
  | n :: ns =>
      match entry_type fs dir n with
      | Some t => (n, t) :: scan fs dir ns
      | None => []
      end
  end.

Definition listing (fs : FileSystem) (dir : string)
  : list (string * DirectoryItemType) :=
  scan fs dir (visible (default [] (fs_opendir fs dir))).

(** The portraits of [name], read off the file system: when [protraits]
    exists and the first entry of its listing that bears the name is a
    directory, the regular files in the listing of that directory. *)
Definition portrait_paths (fs : FileSystem) (dir_data name : string)
  : list string :=
  if fs_access fs (protraits_path dir_data) then
    match List.find (λ e, bool_decide (name = e.1))
            (listing fs (protraits_path dir_data)) with
    | Some (_, DIRITEM_DIR) =>
        path_join (path_join (protraits_path dir_data) name)
          <$> regular_files
                (listing fs (path_join (protraits_path dir_data) name))
    | _ => []
    end
  else [].

(** From [s] to [s'] the registry of names has kept its entries, and has
    gained only labels with the empty name and the label of the user with
    the name of the user. *)
Definition registry_grows (cfg : Setup) (s s' : Session) : Prop :=
  user_label cfg s' = user_label cfg s
  ∧ s_names s ⊆ s_names s'
  ∧ ∀ k v, s_names s' !! k = Some v →
           s_names s !! k = Some v ∨ v = ""
           ∨ (k = user_label cfg s ∧ v = expectName cfg).

(** ** Example databases *)

(** A table of paths, read as a partial function. *)
Definition assoc {A} (tbl : list (string * A)) (p : string) : option A :=
  snd <$> List.find (λ kv, String.eqb kv.1 p) tbl.

(** [st_mode] of a directory (octal 040755), of a regular file (0100644)
    and of a named pipe (010644). *)
Definition mode_dir : Z := 16877.
Definition mode_reg : Z := 33188.
Definition mode_fifo : Z := 4516.

(** The string [s] ends with [suffix]. *)
Fixpoint ends_with (suffix s : string) : bool :=
  String.eqb suffix s
  || match s with
     | String _ s' => ends_with suffix s'
     | EmptyString => false
     end.

(** A file system given by its directories and the modes of its entries:
    every listed path exists, every file decodes to a 100x80 image and
    every output file can be opened; the process has the 1021 descriptors
    that a limit of 1024 leaves beside the three standard streams, and
    [cv::imwrite] has an encoder for the names that end in [.jpg]. *)
Definition make_fs (dirs : list (string * list string))
    (modes : list (string * Z)) : FileSystem :=
  mkFS (assoc dirs) (assoc modes)
    (λ p, bool_decide (is_Some (assoc modes p))) (λ _, mkMat 100 80)
    (λ _, true) 1018 (ends_with ".jpg").

(** The same file system seen by a process that has [n] descriptors beyond
    the first three. *)
Definition with_spare (n : nat) (fs : FileSystem) : FileSystem :=
  mkFS (fs_opendir fs) (fs_stat fs) (fs_access fs) (fs_imread fs)
    (fs_ofstream fs) n (fs_encoder fs).

(** A directory that holds hidden entries only. *)
Definition fs_hidden : FileSystem :=
  make_fs [("d", ["."; ".."; ".git"; ".DS_Store"])] [].

(** A database given by a relative path, with one portrait of bob. *)
Definition fs_relative : FileSystem :=
  make_fs
    [("db/protraits", ["."; ".."; "bob"]);
     ("db/protraits/bob", ["."; ".."; "1.jpg"])]
    [("db/protraits", mode_dir); ("db/protraits/bob", mode_dir);
     ("db/protraits/bob/1.jpg", mode_reg)].

(** A database with two portraits of bob, a hidden file and a
    subdirectory next to them, and a file where a person is expected. *)
Definition fs_portraits : FileSystem :=
  make_fs
    [("/db/protraits", ["."; ".."; "notes"; "bob"]);
     ("/db/protraits/bob", ["2.jpg"; "."; ".cache"; "old"; ".."; "1.jpg"])]
    [("/db/protraits", mode_dir); ("/db/protraits/notes", mode_reg);
     ("/db/protraits/bob", mode_dir); ("/db/protraits/bob/2.jpg", mode_reg);
     ("/db/protraits/bob/.cache", mode_reg);
     ("/db/protraits/bob/old", mode_dir);
     ("/db/protraits/bob/1.jpg", mode_reg)].

(** A database where a portrait has a space in its file name. *)
Definition fs_space : FileSystem :=
  make_fs
    [("/db/protraits", ["."; ".."; "bob"]);
     ("/db/protraits/bob", ["."; ".."; "a b.jpg"; "c.jpg"])]
    [("/db/protraits", mode_dir); ("/db/protraits/bob", mode_dir);
     ("/db/protraits/bob/a b.jpg", mode_reg);
     ("/db/protraits/bob/c.jpg", mode_reg)].

(** A database with one face image of alice and one of bob, and the
    directories that FaceCollection has just made for carol. *)
Definition fs_session : FileSystem :=
  make_fs
    [("/db/faces", ["."; ".."; "alice"; "bob"; "carol"]);
     ("/db/faces/alice", ["."; ".."; "1.jpg"]);
     ("/db/faces/bob", ["."; ".."; "1.jpg"]);
     ("/db/faces/carol", ["."; ".."]);
     ("/db/protraits", ["."; ".."; "carol"]);
     ("/db/protraits/carol", ["."; ".."])]
    [("/db/faces", mode_dir); ("/db/faces/alice", mode_dir);
     ("/db/faces/bob", mode_dir); ("/db/faces/carol", mode_dir);
     ("/db/faces/alice/1.jpg", mode_reg); ("/db/faces/bob/1.jpg", mode_reg);
     ("/db/protraits", mode_dir); ("/db/protraits/carol", mode_dir)].

(** A recognizer whose training always returns. *)
Definition train_ok (images : list Mat) (labels : list Z) : outcome :=
  Returned.

(** The session of carol on this database, with a 480x360 camera. *)
Definition camera_frame : Mat := mkMat 360 480.

Definition carol_setup : Setup :=
  mkSetup "carol" "/db/faces/carol" "/db/protraits/carol" 64 64
    (invfscale_x camera_frame) (invfscale_y camera_frame)
    (ends_with ".jpg").

(** The same setup for a database given as [my db]: the directories of
    carol have a space in their paths. *)
Definition spaced_setup : Setup :=
  mkSetup "carol" "my db/faces/carol" "my db/protraits/carol" 64 64
    (invfscale_x camera_frame) (invfscale_y camera_frame)
    (ends_with ".jpg").

Definition carol_session : Session :=
  mkSession [mkMat 64 64; mkMat 64 64] [0; 1]
    {[ 0 := "alice"; 1 := "bob" ]} {[ "alice" := 0; "bob" := 1 ]}
    ([mkMat 64 64; mkMat 64 64], [0; 1]) false false 0 [].

(** A face found at (1, 3), 50 wide and high, that the recognizer does not
    know: it answers -1. *)
Definition unknown_face : Face := mkFace (mkRect 1 3 50 50) (-1) 0%float.

(** A turn in which the unknown face is seen and the space bar pressed. *)
Definition unknown_turn : Turn := mkTurn camera_frame [unknown_face] 1400000000 32.

(** A faces directory where a stray file comes before the only person,
    who has one image. *)
Definition fs_stray : FileSystem :=
  make_fs
    [("/db/faces", ["."; ".."; "readme.txt"; "alice"]);
     ("/db/faces/alice", ["."; ".."; "1.jpg"])]
    [("/db/faces", mode_dir); ("/db/faces/readme.txt", mode_reg);
     ("/db/faces/alice", mode_dir); ("/db/faces/alice/1.jpg", mode_reg)].

(** A faces directory where the directory of bob, listed after alice,
    cannot be opened. *)
Definition fs_locked : FileSystem :=
  make_fs
    [("/db/faces", ["."; ".."; "alice"; "bob"]);
     ("/db/faces/alice", ["."; ".."; "1.jpg"; "2.jpg"])]
    [("/db/faces", mode_dir); ("/db/faces/alice", mode_dir);
     ("/db/faces/bob", mode_dir); ("/db/faces/alice/1.jpg", mode_reg);
     ("/db/faces/alice/2.jpg", mode_reg)].

(** A directory whose second visible entry is a dangling link: [stat]
    fails on it. *)
Definition fs_dangling : FileSystem :=
  make_fs [("d", ["."; "a"; "ghost"; "b"])]
    [("d/a", mode_reg); ("d/b", mode_dir)].

(** Two views of one directory that differ on a hidden entry only: [stat]
    fails on it in the first and succeeds in the second. *)
Definition fs_hidden_unknown : FileSystem :=
  make_fs [("d", [".git"; "a"])] [("d/a", mode_reg)].

Definition fs_hidden_known : FileSystem :=
  make_fs [("d", [".git"; "a"])] [("d/a", mode_reg); ("d/.git", mode_dir)].

(** A runtime that prints every [double] with two decimals of zero. *)
Definition show_fixed (x : float) : string := "0.00".



(** A turn that ends with the escape key as a GTK build of [waitKey]
    returns it while Num Lock is on: 27 with bit 20 set. *)
Definition escape_turn_flagged : Turn :=
  mkTurn camera_frame [unknown_face] 1400000001 1048603.

Definition idle_turn : Turn :=
  mkTurn camera_frame [unknown_face] 1400000002 (-1).

(** The database that the live tool has just prepared for its first user:
    the directory of carol, still empty. *)
Definition fs_fresh : FileSystem :=
  make_fs
    [("/db/faces", ["."; ".."; "carol"]); ("/db/faces/carol", ["."; ".."])]
    [("/db/faces", mode_dir); ("/db/faces/carol", mode_dir)].

(** A database whose only person has a space in the name, and a face that
    the recognizer takes for that person. *)
Definition fs_named : FileSystem :=
  make_fs
    [("/db/faces", ["."; ".."; "ann lee"]);
     ("/db/faces/ann lee", ["."; ".."; "1.jpg"])]
    [("/db/faces", mode_dir); ("/db/faces/ann lee", mode_dir);
     ("/db/faces/ann lee/1.jpg", mode_reg)].

Definition known_face : Face := mkFace (mkRect 1 3 50 50) 0 0%float.

(** A database with one image of alice and one of bob, seen by a process
    that has three free descriptors and no more. *)
Definition fs_tight : FileSystem :=
  with_spare 0
    (make_fs
       [("/db/faces", ["."; ".."; "alice"; "bob"]);
        ("/db/faces/alice", ["."; ".."; "1.jpg"]);
        ("/db/faces/bob", ["."; ".."; "1.jpg"])]
       [("/db/faces", mode_dir); ("/db/faces/alice", mode_dir);
        ("/db/faces/bob", mode_dir); ("/db/faces/alice/1.jpg", mode_reg);
        ("/db/faces/bob/1.jpg", mode_reg)]).


(** * Facts *)

(** ** The catalog *)

Section Catalog.
Variable fs : FileSystem.
Variable dirpath : string.

(** Every run of the loop keeps the two vectors in step: the pairs
    appended are the visible entries read so far, each with the type
    computed from its own [stat]; the loop stops early only at a visible
    entry whose [stat] fails. *)
Lemma readdir_loop_spec entries items types :
  ∃ read rtypes rest r,
    readdir_loop fs dirpath entries items types
      = (r, (items ++ read, types ++ rtypes))
    ∧ Forall2 (λ n t, entry_type fs dirpath n = Some t) read rtypes
    ∧ visible entries = read ++ rest
    ∧ ((r = 0 ∧ rest = [])
       ∨ (r = -1 ∧ ∃ n rest', rest = n :: rest'
                    ∧ fs_stat fs (path_join dirpath n) = None)).
Proof.
  revert items types.
  induction entries as [|d es IH]; intros items types; simpl.
  - exists [], [], [], 0. rewrite !app_nil_r.
    split; [done|]. split; [constructor|]. split; [done|]. by left.
  - unfold visible. rewrite filter_cons.
    destruct (is_hidden d) eqn:Hd.
    + rewrite decide_False by done. apply IH.
    + rewrite decide_True by done.
      destruct (fs_stat fs (path_join dirpath d)) as [m|] eqn:Hst.
      * destruct (IH (items ++ [d]) (types ++ [item_type_of_mode m]))
          as (read & rtypes & rest & r & Hrun & HF & Hv & Hr).
        exists (d :: read), (item_type_of_mode m :: rtypes), rest, r.
        rewrite Hrun, <- !app_assoc. split; [done|]. split.
        { constructor; [|done]. unfold entry_type. by rewrite Hst. }
        split; [|done]. fold (visible es). by rewrite Hv.
      * exists [], [], (d :: visible es), (-1). rewrite !app_nil_r.
        split; [done|]. split; [constructor|]. split; [done|].
        right. eauto.
Qed.


Lemma visible_not_hidden entries n :
  n ∈ visible entries → is_hidden n = false.
Proof. unfold visible. rewrite list_elem_of_filter. tauto. Qed.

(** The catalog of the specification and the call agree. *)
Lemma traverseDirectory_catalog items0 types0 :
  match catalog fs dirpath with
  | Some l => traverseDirectory fs dirpath items0 types0 = (0, (l.*1, l.*2))
  | None => ∃ items types,
      traverseDirectory fs dirpath items0 types0 = (-1, (items, types))
  end.
Proof.
  unfold catalog, traverseDirectory.
  destruct (fs_opendir fs dirpath) as [entries|]; simpl; [|eauto].
  destruct (readdir_loop_spec entries [] [])
    as (read & rtypes & rest & r & Hrun & HF & Hv & Hr).
  simpl in Hrun. rewrite Hrun.
  destruct Hr as [[-> ->]|(-> & n & rest' & -> & Hst)].
  - rewrite app_nil_r in Hv. rewrite Hv.
    assert (Hm : mapM (λ n, pair n <$> entry_type fs dirpath n) read
                 = Some (zip read rtypes)).
    { apply mapM_Some_2. clear -HF.
      induction HF as [|n t ns ts Hnt HF IH]; simpl; constructor; [|done].
      by rewrite Hnt. }
    rewrite Hm. pose proof (Forall2_length _ _ _ HF) as Hlen.
    rewrite fst_zip, snd_zip by lia. done.
  - assert (Hm : mapM (λ n, pair n <$> entry_type fs dirpath n)
                   (visible entries) = None).
    { apply mapM_None_2. rewrite Hv. apply Exists_app. right.
      constructor. unfold entry_type. by rewrite Hst. }
    rewrite Hm. eauto.
Qed.

End Catalog.

(** C8: no entry whose name begins with a dot is ever put in the output of
    [traverseDirectory], whatever the directory and however the call ends;
    and on a directory that enumerates hidden entries only the call returns
    0 with both vectors empty. *)
Theorem traverseDirectory_skips_hidden (fs : FileSystem) (dirpath : string)
    (items0 : list string) (types0 : list DirectoryItemType) :
  Forall (λ n, is_hidden n = false)
    (traverseDirectory fs dirpath items0 types0).2.1
  ∧ ∀ entries,
      fs_opendir fs dirpath = Some entries →
      Forall (λ n, is_hidden n = true) entries →
      traverseDirectory fs dirpath items0 types0 = (0, ([], [])).
Proof.
  split.
  - unfold traverseDirectory.
    destruct (fs_opendir fs dirpath) as [entries|]; simpl; [|constructor].
    destruct (readdir_loop_spec fs dirpath entries [] [])
      as (read & rtypes & rest & r & Hrun & _ & Hv & _).
    rewrite Hrun. simpl. apply Forall_forall. intros n Hn.
    apply (visible_not_hidden entries). rewrite Hv.
    apply elem_of_app. by left.
  - intros entries Hopen Hall. unfold traverseDirectory. rewrite Hopen.
    clear Hopen. induction Hall as [|n ns Hn _ IH]; simpl; [done|].
    by rewrite Hn.
Qed.

Lemma traverseDirectory_skips_hidden_witness :
  traverseDirectory fs_hidden "d" ["old"] [DIRITEM_FILE] = (0, ([], [])).
Proof.
  apply (proj2 (traverseDirectory_skips_hidden fs_hidden "d" ["old"]
                  [DIRITEM_FILE]) ["."; ".."; ".git"; ".DS_Store"]).
  - reflexivity.
  - repeat constructor.
Defined.

(** One call, whatever it is given: the items and types it leaves are the
    visible entries read before it stopped, each with the type computed
    from its [stat]. *)
Lemma traverseDirectory_run (fs : FileSystem) (dirpath : string)
    (items0 : list string) (types0 : list DirectoryItemType) :
  ∃ r read rtypes rest,
    traverseDirectory fs dirpath items0 types0 = (r, (read, rtypes))
    ∧ (r = 0 ∨ r = -1)
    ∧ Forall2 (λ n t, entry_type fs dirpath n = Some t) read rtypes
    ∧ visible (default [] (fs_opendir fs dirpath)) = read ++ rest.
Proof.
  unfold traverseDirectory.
  destruct (fs_opendir fs dirpath) as [entries|]; simpl.
  - destruct (readdir_loop_spec fs dirpath entries [] [])
      as (read & rtypes & rest & r & Hrun & HF & Hv & Hr).
    exists r, read, rtypes, rest. split; [done|]. split; [|done].
    destruct Hr as [[-> _]|[-> _]]; auto.
  - exists (-1), [], [], []. split; [done|]. split; [by right|].
    split; [constructor|done].
Qed.


(** ** Words and streams *)

Lemma string_app_cons (c : ascii) (s t : string) :
  String c s +:+ t = String c (s +:+ t).
Proof. reflexivity. Qed.

Lemma string_app_nil_l (t : string) : "" +:+ t = t.
Proof. reflexivity. Qed.

Lemma string_app_assoc (s t u : string) : (s +:+ t) +:+ u = s +:+ t +:+ u.
Proof.
  induction s as [|c s IH]; [done|].
  rewrite !string_app_cons. f_equal. apply IH.
Qed.

Lemma string_app_nil_r (s : string) : s +:+ "" = s.
Proof.
  induction s as [|c s IH]; [done|]. rewrite string_app_cons. by f_equal.
Qed.

Lemma no_space_app (s t : string) :
  no_space (s +:+ t) = no_space s && no_space t.
Proof.
  induction s as [|c s IH]; [done|]. rewrite string_app_cons. simpl.
  rewrite IH. by rewrite andb_assoc.
Qed.

Lemma take_word_no_space (s : string) : no_space s = true → take_word s = s.
Proof.
  induction s as [|c s IH]; simpl; [done|].
  intros [Hc Hs]%andb_true_iff. apply negb_true_iff in Hc.
  rewrite Hc. by rewrite IH.
Qed.

Lemma take_word_cut (pre : string) (c : ascii) (rest : string) :
  no_space pre = true → isspace c = true →
  take_word (pre +:+ String c rest) = pre.
Proof.
  intros Hpre Hc. induction pre as [|a pre IH].
  - rewrite string_app_nil_l. simpl. by rewrite Hc.
  - simpl in Hpre. apply andb_true_iff in Hpre as [Ha Hpre].
    apply negb_true_iff in Ha. rewrite string_app_cons. simpl.
    rewrite Ha. by rewrite IH.
Qed.

Lemma skip_ws_starts_word (s : string) : starts_word s → skip_ws s = s.
Proof. destruct s as [|c s]; simpl; [done|]. by intros ->. Qed.

Lemma starts_word_app (s t : string) :
  starts_word s → s ≠ "" → starts_word (s +:+ t).
Proof. destruct s; [done|]. rewrite string_app_cons. done. Qed.

Lemma extract_word_no_space (s : string) :
  no_space s = true → extract_word s = s.
Proof.
  intros Hs. unfold extract_word. rewrite skip_ws_starts_word.
  - by apply take_word_no_space.
  - destruct s as [|c s]; simpl in *; [done|].
    apply andb_true_iff in Hs as [Hc _]. by apply negb_true_iff.
Qed.

(** The output step writes what [reported] says, for a stream that does
    not begin with whitespace. *)
Lemma write_info_reported (fs : FileSystem) (fn ssInfo : string)
    (text : list string) :
  starts_word ssInfo →
  write_info fs fn ssInfo = Some text → reported ssInfo text.
Proof.
  intros Hstart. unfold write_info.
  destruct (fs_ofstream fs fn); [|done]. intros [= <-].
  split; [done|]. split.
  - by intros ->.
  - intros pre c rest -> Hpre Hc. unfold extract_word.
    rewrite skip_ws_starts_word by done. by rewrite take_word_cut.
Qed.

(** ** Loops over the indices of a vector *)

Lemma fmap_lookup_total_seq {T : Type} `{!Inhabited T} (l : list T) :
  (λ j, l !!! j) <$> seq 0%nat (length l) = l.
Proof.
  apply list_eq. intros i. rewrite list_lookup_fmap.
  destruct (decide (i < length l)%nat) as [Hi|Hi].
  - rewrite lookup_seq_lt by done. simpl.
    by rewrite list_lookup_lookup_total_lt.
  - rewrite lookup_seq_ge, lookup_ge_None_2 by lia. done.
Qed.

Lemma filter_fmap_comm {T C : Type} (g : C → T) (P : T → Prop)
    `{!∀ x, Decision (P x)} (js : list C) :
  filter P (g <$> js) = g <$> filter (P ∘ g) js.
Proof.
  induction js as [|j js IH]; [done|].
  rewrite fmap_cons, !filter_cons. simpl. rewrite IH.
  by destruct (decide (P (g j))).
Qed.

Lemma filter_ext_elem {C : Type} (P1 P2 : C → Prop)
    `{!∀ x, Decision (P1 x), !∀ x, Decision (P2 x)} (l : list C) :
  (∀ x, x ∈ l → P1 x ↔ P2 x) → filter P1 l = filter P2 l.
Proof.
  induction l as [|x l IH]; intros Hext; [done|].
  rewrite !filter_cons.
  rewrite IH by (intros y Hy; apply Hext; by right).
  destruct (decide (P1 x)) as [H1|H1], (decide (P2 x)) as [H2|H2];
    try done; exfalso; apply (Hext x) in H1 || apply (Hext x) in H2;
    try done; by left.
Qed.

Section Indices.
Context {A B : Type} `{!Inhabited A, !Inhabited B}.

(** The indices of a vector of pairs at which the second component
    satisfies [P], read through the two vectors of components. *)
Lemma filter_indices (P : B → Prop) `{!∀ x, Decision (P x)}
    (l : list (A * B)) :
  filter (λ j, P (l.*2 !!! j)) (seq 0%nat (length l.*1))
  = filter (λ j, P (l !!! j).2) (seq 0%nat (length l)).
Proof.
  rewrite length_fmap. apply filter_ext_elem. intros j Hj.
  apply elem_of_seq in Hj. rewrite (list_lookup_total_fmap snd l j) by lia.
  done.
Qed.

Lemma fmap_filter_indices {C : Type} (f : A → C) (P : B → Prop)
    `{!∀ x, Decision (P x)} (l : list (A * B)) :
  (λ j, f (l.*1 !!! j))
    <$> filter (λ j, P (l.*2 !!! j)) (seq 0%nat (length l.*1))
  = f <$> (filter (λ e, P e.2) l).*1.
Proof.
  rewrite filter_indices.
  replace (filter (λ e, P e.2) l)
    with (filter (λ e, P e.2) ((λ j, l !!! j) <$> seq 0%nat (length l)))
    by (by rewrite fmap_lookup_total_seq).
  rewrite filter_fmap_comm, <- !list_fmap_compose.
  apply Forall_fmap_ext_1, Forall_forall. intros j Hj.
  apply list_elem_of_filter in Hj as [_ Hj]. apply elem_of_seq in Hj.
  simpl. rewrite (list_lookup_total_fmap fst l j) by lia. done.
Qed.

Lemma length_filter_indices (P : B → Prop) `{!∀ x, Decision (P x)}
    (l : list (A * B)) :
  length (filter (λ j, P (l.*2 !!! j)) (seq 0%nat (length l.*1)))
  = length (filter (λ e, P e.2) l).
Proof.
  transitivity (length ((λ j : nat, id (l.*1 !!! j))
    <$> filter (λ j : nat, P (l.*2 !!! j)) (seq 0%nat (length l.*1)))).
  { symmetry. apply length_fmap. }
  rewrite (fmap_filter_indices id P l).
  etransitivity; [apply length_fmap|apply length_fmap].
Qed.

End Indices.

(** ** Name2Protraits *)

Lemma usrprotraits_loop_spec dir items types js ssInfo firstFileFlag :
  usrprotraits_loop dir items types js ssInfo firstFileFlag
  = match indexed_paths dir items types js with
    | [] => ssInfo
    | ps => (if firstFileFlag then ssInfo else ssInfo +:+ ",")
              +:+ join_comma (quoted <$> ps)
    end.
Proof.
  unfold indexed_paths. revert ssInfo firstFileFlag.
  induction js as [|j js IH]; intros ssInfo flag; simpl; [done|].
  rewrite filter_cons.
  destruct (decide (types !!! j = DIRITEM_FILE)) as [Hj|Hj].
  - rewrite bool_decide_eq_true_2 by done. rewrite IH, fmap_cons.
    set (ps := (λ j, path_join dir (items !!! j))
                 <$> filter (λ j, types !!! j = DIRITEM_FILE) js).
    set (p := path_join dir (items !!! j)).
    change (dquote +:+ p +:+ dquote) with (quoted p).
    destruct ps as [|p' ps]; destruct flag; simpl;
      rewrite ?string_app_assoc; done.
  - rewrite bool_decide_eq_false_2 by done. apply IH.
Qed.

Lemma indexed_paths_catalog dir (l : list (string * DirectoryItemType)) :
  indexed_paths dir l.*1 l.*2 (seq 0%nat (length l.*1))
  = path_join dir <$> regular_files l.
Proof.
  unfold indexed_paths, regular_files.
  exact (fmap_filter_indices (path_join dir) (λ t, t = DIRITEM_FILE) l).
Qed.

(** The search stops at the first entry called [name]. *)
Lemma protraits_loop_miss fs dir name items types ix ssInfo :
  (∀ i, i ∈ ix → items !!! i = name → types !!! i ≠ DIRITEM_DIR) →
  protraits_loop fs dir name items types ix ssInfo = ssInfo.
Proof.
  induction ix as [|i ix IH]; intros Hmiss; simpl; [done|].
  destruct (decide (name = items !!! i)) as [Hi|Hi].
  - rewrite bool_decide_eq_true_2 by done.
    rewrite bool_decide_eq_true_2; [done|]. apply Hmiss; [by left|done].
  - rewrite bool_decide_eq_false_2 by done. apply IH.
    intros j Hj. apply Hmiss. by right.
Qed.

Lemma protraits_loop_hit fs dir name items types ix ssInfo :
  (∃ i, i ∈ ix ∧ items !!! i = name) →
  (∀ i, i ∈ ix → items !!! i = name → types !!! i = DIRITEM_DIR) →
  protraits_loop fs dir name items types ix ssInfo
  = let r := traverseDirectory fs (path_join dir name) [] [] in
    usrprotraits_loop (path_join dir name) r.2.1 r.2.2
      (seq 0%nat (length r.2.1)) ssInfo true.
Proof.
  induction ix as [|i ix IH]; intros (k & Hk & Hname) Hdir; simpl.
  - by apply elem_of_nil in Hk.
  - destruct (decide (name = items !!! i)) as [Hi|Hi].
    + rewrite bool_decide_eq_true_2 by done.
      rewrite bool_decide_eq_false_2.
      * by destruct (traverseDirectory fs (path_join dir name) [] [])
          as [r [its tys]].
      * intros Hne. apply Hne. apply Hdir; [by left|done].
    + rewrite bool_decide_eq_false_2 by done. apply IH.
      * exists k. split; [|done]. apply elem_of_cons in Hk as [->|Hk]; done.
      * intros j Hj. apply Hdir. by right.
Qed.

(** What the catalog lists is what the directory enumerates. *)
Lemma catalog_elem fs dir l n t :
  catalog fs dir = Some l → (n, t) ∈ l →
  entry_type fs dir n = Some t
  ∧ ∃ entries, fs_opendir fs dir = Some entries ∧ n ∈ visible entries.
Proof.
  unfold catalog. destruct (fs_opendir fs dir) as [entries|]; [|done].
  simpl. intros Hm%mapM_Some_1 Hin.
  apply list_elem_of_lookup in Hin as [i Hi].
  destruct (Forall2_lookup_r _ _ _ _ _ Hm Hi) as (n' & Hn' & Hf).
  destruct (entry_type fs dir n') as [t'|] eqn:Ht; [|done].
  simpl in Hf. injection Hf as <- <-. split; [done|].
  exists entries. split; [done|]. by eapply list_elem_of_lookup_2.
Qed.

Lemma quoted_cons (p : string) :
  quoted p = String "034"%char (p +:+ dquote).
Proof. reflexivity. Qed.

Lemma no_space_quoted (p : string) :
  no_space p = true → no_space (quoted p) = true.
Proof.
  intros Hp. rewrite quoted_cons. simpl. rewrite no_space_app, Hp. done.
Qed.

Lemma no_space_join_quoted (ps : list string) :
  Forall (λ p, no_space p = true) ps →
  no_space (join_comma (quoted <$> ps)) = true.
Proof.
  induction 1 as [|p ps Hp Hps IH]; [done|].
  rewrite fmap_cons. simpl. destruct ps as [|p' ps].
  - by apply no_space_quoted.
  - rewrite fmap_cons in *. rewrite !no_space_app.
    rewrite (no_space_quoted p Hp). simpl. apply IH.
Qed.

Lemma starts_word_join_quoted (ps : list string) :
  starts_word (join_comma (quoted <$> ps)).
Proof. destruct ps as [|p [|p' ps]]; done. Qed.

(** Nothing is appended when no listed directory bears the name. *)
Lemma Name2Protraits_ssInfo_miss fs dir_data name :
  ¬ (fs_access fs (protraits_path dir_data) = true
     ∧ is_listed_dir fs (protraits_path dir_data) name) →
  Name2Protraits_ssInfo fs dir_data name = "".
Proof.
  intros Hno. unfold Name2Protraits_ssInfo.
  fold (protraits_path dir_data).
  destruct (fs_access fs (protraits_path dir_data)) eqn:Hacc; [|done].
  destruct (traverseDirectory_run fs (protraits_path dir_data) [] [])
    as (r & items & types & rest & Hrun & _ & HF & Hpre).
  rewrite Hrun. pose proof (Forall2_length _ _ _ HF) as Hlen.
  apply protraits_loop_miss. intros i Hi Hname Hdir.
  apply elem_of_seq in Hi as [_ Hi]. simpl in Hi.
  assert (Hit : items !! i = Some name).
  { rewrite <- Hname. by apply list_lookup_lookup_total_lt. }
  assert (Htt : types !! i = Some DIRITEM_DIR).
  { rewrite <- Hdir. apply list_lookup_lookup_total_lt. lia. }
  pose proof (Forall2_lookup_lr _ _ _ _ _ _ HF Hit Htt) as Het.
  simpl in Het. apply Hno. split; [done|].
  destruct (fs_opendir fs (protraits_path dir_data)) as [entries|] eqn:Hop.
  - exists entries. split; [done|]. split; [|done]. simpl in Hpre.
    rewrite Hpre. apply elem_of_app. left.
    by eapply list_elem_of_lookup_2.
  - simpl in Hpre. destruct items; [|done]. by rewrite lookup_nil in Hit.
Qed.

(** The paths of the regular files of the directory that bears the name,
    in the order of the catalog. *)
Lemma Name2Protraits_ssInfo_hit fs dir_data name l lp :
  fs_access fs (protraits_path dir_data) = true →
  catalog fs (protraits_path dir_data) = Some l →
  (name, DIRITEM_DIR) ∈ l →
  catalog fs (path_join (protraits_path dir_data) name) = Some lp →
  Name2Protraits_ssInfo fs dir_data name
  = join_comma (quoted <$> (path_join (path_join (protraits_path dir_data)
                                         name) <$> regular_files lp)).
Proof.
  intros Hacc Hl Hin Hlp. unfold Name2Protraits_ssInfo.
  fold (protraits_path dir_data). rewrite Hacc.
  pose proof (traverseDirectory_catalog fs (protraits_path dir_data) [] [])
    as Htr. rewrite Hl in Htr. rewrite Htr.
  rewrite protraits_loop_hit.
  - pose proof (traverseDirectory_catalog fs
                  (path_join (protraits_path dir_data) name) [] []) as Htr'.
    rewrite Hlp in Htr'. rewrite Htr'. simpl.
    rewrite usrprotraits_loop_spec, indexed_paths_catalog.
    by destruct (path_join _ <$> regular_files lp).
  - apply list_elem_of_lookup in Hin as [i Hi]. exists i. split.
    + apply elem_of_seq. split; [lia|]. simpl. rewrite length_fmap.
      by eapply lookup_lt_Some.
    + apply list_lookup_total_correct. by rewrite list_lookup_fmap, Hi.
  - intros i Hi Hname. apply elem_of_seq in Hi as [_ Hi]. simpl in Hi.
    rewrite length_fmap in Hi.
    destruct (lookup_lt_is_Some_2 l i Hi) as [[n t] Hnt].
    assert (n = name) as ->.
    { rewrite <- Hname. symmetry. apply list_lookup_total_correct.
      by rewrite list_lookup_fmap, Hnt. }
    assert (l.*2 !!! i = t) as ->.
    { apply list_lookup_total_correct. by rewrite list_lookup_fmap, Hnt. }
    apply list_elem_of_lookup_2 in Hnt.
    destruct (catalog_elem _ _ _ _ _ Hl Hnt) as [Ht _].
    destruct (catalog_elem _ _ _ _ _ Hl Hin) as [Hd _]. congruence.
Qed.

(** C5, as the code has it: the tool returns 0 from [main]; when the
    output file opens, it holds the empty array if [protraits] does not
    exist or lists no directory of the given name; and if [protraits] can
    be cataloged and lists a directory of that name, whose catalog has K
    regular files, it holds the K paths [dir_data/protraits/name/file] of
    these files (visible ones, in the order of enumeration), provided no
    path holds whitespace. *)
Theorem Name2Protraits_output (fs : FileSystem)
    (prog dir_data name fn_info : string) :
  let run := Name2Protraits_main fs [prog; dir_data; name; fn_info] in
  run.1 = 0
  ∧ (fs_ofstream fs fn_info = true →
     (¬ (fs_access fs (protraits_path dir_data) = true
         ∧ is_listed_dir fs (protraits_path dir_data) name) →
      run = (0, Some ["[]"]))
     ∧ ∀ l lp,
         fs_access fs (protraits_path dir_data) = true →
         catalog fs (protraits_path dir_data) = Some l →
         (name, DIRITEM_DIR) ∈ l →
         catalog fs (path_join (protraits_path dir_data) name) = Some lp →
         let paths := path_join (path_join (protraits_path dir_data) name)
                        <$> regular_files lp in
         Forall (λ p, no_space p = true) paths →
         length paths = length (regular_files lp)
         ∧ run = (0, Some ["[" +:+ join_comma (quoted <$> paths) +:+ "]"])).
Proof.
  simpl. split; [done|]. intros Hopen. unfold write_info. rewrite Hopen.
  split.
  - intros Hno. by rewrite Name2Protraits_ssInfo_miss.
  - intros l lp Hacc Hl Hin Hlp Hns. split; [by rewrite length_fmap|].
    rewrite (Name2Protraits_ssInfo_hit fs dir_data name l lp) by done.
    rewrite extract_word_no_space; [done|].
    by apply no_space_join_quoted.
Qed.

Lemma Name2Protraits_output_witness :
  Name2Protraits_main fs_portraits ["Name2Protraits"; "/db"; "bob"; "out.json"]
  = (0, Some ["[" +:+ quoted "/db/protraits/bob/2.jpg" +:+ ","
                +:+ quoted "/db/protraits/bob/1.jpg" +:+ "]"]).
Proof.
  destruct (Name2Protraits_output fs_portraits "Name2Protraits" "/db" "bob"
              "out.json") as [_ H].
  destruct (H eq_refl) as [_ H2].
  refine (proj2 (H2 [("notes", DIRITEM_FILE); ("bob", DIRITEM_DIR)]
                   [("2.jpg", DIRITEM_FILE); ("old", DIRITEM_DIR);
                    ("1.jpg", DIRITEM_FILE)] _ _ _ _ _)).
  - reflexivity.
  - reflexivity.
  - right. left.
  - reflexivity.
  - repeat constructor.
Defined.

(** C5 as stated fails on a database given by a relative path: the one path
    written is [db/protraits/bob/1.jpg], which is not absolute. *)
Lemma Name2Protraits_relative_paths :
  ¬ portraits_as_specified fs_relative "db" "bob" "out.json".
Proof.
  intros [_ H].
  destruct (H [("1.jpg", DIRITEM_FILE)]) as [_ (paths & Hlen & Habs & Hout)].
  - reflexivity.
  - exists ["."; ".."; "bob"]. split; [reflexivity|]. split; [|reflexivity].
    vm_compute. left.
  - reflexivity.
  - destruct paths as [|p [|p' paths]]; try discriminate Hlen.
    apply Forall_inv in Habs. destruct p as [|c p]; [done|].
    simpl in Habs. subst c. vm_compute in Hout. discriminate Hout.
Qed.

(** ** The output step *)

Lemma starts_word_app2 (s t : string) :
  starts_word s → starts_word t → starts_word (s +:+ t).
Proof. destruct s; [done|]. rewrite string_app_cons. done. Qed.

Lemma Name2Protraits_ssInfo_starts_word fs dir_data name :
  starts_word (Name2Protraits_ssInfo fs dir_data name).
Proof.
  unfold Name2Protraits_ssInfo.
  destruct (fs_access fs (dir_data +:+ "/protraits")); [|done].
  destruct (traverseDirectory fs (dir_data +:+ "/protraits") [] [])
    as [r [items types]].
  induction (seq 0%nat (length items)) as [|i ix IH]; simpl; [done|].
  destruct (bool_decide (name = items !!! i)); [|done].
  destruct (bool_decide (types !!! i ≠ DIRITEM_DIR)); [done|].
  destruct (traverseDirectory fs _ [] []) as [r' [items' types']].
  rewrite usrprotraits_loop_spec.
  destruct (indexed_paths _ items' types' _) as [|p ps] eqn:Hps; [done|].
  rewrite string_app_nil_l. apply starts_word_join_quoted.
Qed.

Section Report.
Variable show_double : float → string.
Variable train_result : list Mat → list Z → outcome.

Lemma starts_word_json_face strName confidence face_i :
  starts_word (json_face show_double strName confidence face_i).
Proof. unfold json_face. rewrite string_app_cons. done. Qed.

Lemma recognize_loop_starts_word gray w h out faces i names ssInfo drawn :
  starts_word ssInfo →
  starts_word
    (recognize_loop show_double gray w h out faces i names ssInfo drawn).2.1.2.
Proof.
  revert i names ssInfo drawn.
  induction faces as [|f faces IH]; intros i names ssInfo drawn Hs; simpl;
    [done|].
  destruct (Mat_roi gray (face_rect f)) as [face|]; [|done].
  destruct (resize face w h) as [face_resized|]; [|done].
  destruct (map_index (face_prediction f) names) as [strName names'].
  apply IH. apply starts_word_app2; [|apply starts_word_json_face].
  destruct (bool_decide (0 < i)%nat); [|done].
  by apply starts_word_app2.
Qed.

Lemma FaceRecognitionImage_stream_starts_word fs argv faces opened fn fn'
    out ssInfo drawn :
  FaceRecognitionImage_recognize show_double train_result fs argv faces
    = inr (opened, fn, fn', out, ssInfo, drawn) →
  starts_word ssInfo.
Proof.
  unfold FaceRecognitionImage_recognize. intros Hrun.
  repeat (case_match; simplify_eq; try done).
  all: match goal with
  | H : recognize_loop _ ?g ?w ?h ?o _ _ ?n _ _ = _ |- _ =>
      pose proof (recognize_loop_starts_word g w h o faces 0%nat n "" [] I)
        as Hs; rewrite H in Hs; exact Hs
  end.
Qed.

End Report.

(** The information file of the batch tool, once the output step is
    reached: it is written exactly when the stream opens. *)
Lemma FaceRecognitionImage_outinfo show_double train_result fs argv faces
    opened fn fn' out ssInfo drawn :
  FaceRecognitionImage_recognize show_double train_result fs argv faces
    = inr (opened, fn, fn', out, ssInfo, drawn) →
  br_outinfo (FaceRecognitionImage_main show_double train_result fs argv
                faces)
  = write_info (at_open fs opened) fn ssInfo.
Proof.
  intros Hrun. unfold FaceRecognitionImage_main. rewrite Hrun.
  destruct (write_info (at_open fs opened) fn ssInfo) as [text|]; [|done].
  destruct out; [|done]. by destruct (imwrite (fs_encoder fs) fn').
Qed.

(** C10: in Name2Protraits and in FaceRecognitionImage, whenever the
    output file is written its text is the bracket, the first
    whitespace-delimited word extracted from the string stream and the
    closing bracket (so the empty array for an empty stream); and when the
    stream holds a whitespace character, everything from the first one on
    is left out of the file.  Both tools do write that text whenever the
    output stream opens: Name2Protraits on every run with three arguments,
    FaceRecognitionImage on every run that reaches its output step. *)
Theorem output_is_first_word :
  (∀ fs prog dir_data name fn_info text,
     (Name2Protraits_main fs [prog; dir_data; name; fn_info]).2 = Some text →
     reported (Name2Protraits_ssInfo fs dir_data name) text)
  ∧ (∀ show_double train_result fs argv faces text,
       br_outinfo (FaceRecognitionImage_main show_double train_result fs
                     argv faces) = Some text →
       ∃ opened fn_outinfo fn_outimage has_outimage ssInfo drawn,
         FaceRecognitionImage_recognize show_double train_result fs argv
           faces
         = inr (opened, fn_outinfo, fn_outimage, has_outimage, ssInfo, drawn)
         ∧ reported ssInfo text)
  ∧ (∀ fs prog dir_data name fn_info,
       fs_ofstream fs fn_info = true →
       (Name2Protraits_main fs [prog; dir_data; name; fn_info]).2
       = Some ["[" +:+ extract_word (Name2Protraits_ssInfo fs dir_data name)
               +:+ "]"])
  ∧ (∀ show_double train_result fs argv faces opened fn_outinfo fn_outimage
       has_outimage ssInfo drawn,
       FaceRecognitionImage_recognize show_double train_result fs argv faces
       = inr (opened, fn_outinfo, fn_outimage, has_outimage, ssInfo, drawn) →
       fs_ofstream (at_open fs opened) fn_outinfo = true →
       br_outinfo (FaceRecognitionImage_main show_double train_result fs
                     argv faces)
       = Some ["[" +:+ extract_word ssInfo +:+ "]"]).
Proof.
  split; [|split; [|split]].
  - intros fs prog dir_data name fn_info text. simpl.
    apply write_info_reported, Name2Protraits_ssInfo_starts_word.
  - intros show_double train_result fs argv faces text.
    destruct (FaceRecognitionImage_recognize show_double train_result fs
                argv faces)
      as [e|[[[[[opened fn] fn'] out] ssInfo] drawn]] eqn:Hrun.
    { unfold FaceRecognitionImage_main. by rewrite Hrun. }
    rewrite (FaceRecognitionImage_outinfo _ _ _ _ _ _ _ _ _ _ _ Hrun).
    intros Hw. exists opened, fn, fn', out, ssInfo, drawn. split; [done|].
    eapply write_info_reported; [|exact Hw].
    by eapply FaceRecognitionImage_stream_starts_word.
  - intros fs prog dir_data name fn_info Hopen. simpl.
    unfold write_info. by rewrite Hopen.
  - intros show_double train_result fs argv faces opened fn fn' out ssInfo
      drawn Hrun Hopen.
    rewrite (FaceRecognitionImage_outinfo _ _ _ _ _ _ _ _ _ _ _ Hrun).
    unfold write_info. by rewrite Hopen.
Qed.

Lemma output_is_first_word_witness :
  reported (Name2Protraits_ssInfo fs_space "/db" "bob")
    ["[" +:+ dquote +:+ "/db/protraits/bob/a]"]
  ∧ br_outinfo
      (FaceRecognitionImage_main show_fixed train_ok fs_named
         ["FaceRecognitionImage"; "cascade.xml"; "/db"; "in.jpg"; "out.json"]
         [known_face])
    = Some ["[{" +:+ dquote +:+ "prediction" +:+ dquote +:+ ":" +:+ dquote
            +:+ "ann]"].
Proof.
  split.
  - apply (proj1 output_is_first_word fs_space "Name2Protraits" "/db" "bob"
             "out.json").
    reflexivity.
  - refine (eq_trans
              (proj2 (proj2 (proj2 output_is_first_word)) show_fixed train_ok
                 fs_named
                 ["FaceRecognitionImage"; "cascade.xml"; "/db"; "in.jpg";
                  "out.json"]
                 [known_face] 2%nat "out.json" "" false
                 (json_face show_fixed "ann lee" 0%float (mkRect 1 3 50 50))
                 [] _ _) _).
    + vm_compute. reflexivity.
    + vm_compute. reflexivity.
    + vm_compute. reflexivity.
Defined.

(** ** Resolving a predicted label *)


Section Recognition.
Variable show_double : float → string.
Variable train_result : list Mat → list Z → outcome.

(** One face of the batch loop, when the crop and the resize go through. *)
Lemma recognize_loop_step gray w h out f faces i names ssInfo drawn face
    face_resized :
  Mat_roi gray (face_rect f) = Some face →
  resize face w h = Some face_resized →
  recognize_loop show_double gray w h out (f :: faces) i names ssInfo drawn
  = let '(strName, names') := map_index (face_prediction f) names in
    recognize_loop show_double gray w h out faces (S i) names'
      ((if bool_decide (0 < i)%nat then ssInfo +:+ "," else ssInfo)
         +:+ json_face show_double strName (face_confidence f) (face_rect f))
      (if out then
         drawn ++ [mkAnnotation (face_rect f)
                     (Z.max (rx (face_rect f) - 10) 0,
                      Z.max (ry (face_rect f) - 10) 0)
                     strName (face_confidence f)]
       else drawn).
Proof. intros Hroi Hres. simpl. rewrite Hroi, Hres. done. Qed.


End Recognition.

Lemma carol_start :
  start_session train_ok fs_session "/db" "carol" camera_frame
  = Some (carol_setup, carol_session).
Proof. vm_compute. reflexivity. Qed.

Lemma inside_roi (gray : Mat) (r : Rect) :
  inside gray r → Mat_roi gray r = Some (mkMat (rheight r) (rwidth r)).
Proof.
  intros (? & ? & ? & ? & ? & ?). unfold Mat_roi.
  rewrite bool_decide_eq_true_2; [done|]. lia.
Qed.

Lemma inside_resize (gray : Mat) (r : Rect) (w h : Z) :
  inside gray r → ∃ face_resized,
    resize (mkMat (rheight r) (rwidth r)) w h = Some face_resized.
Proof.
  intros (? & ? & ? & ? & ? & ?). unfold resize, Mat_empty. simpl.
  rewrite bool_decide_eq_false_2 by nia.
  destruct (w * h =? 0); eauto.
Qed.







(** ** Enrollment *)

(** C6, as the code has it: when the name is new (no label is registered
    for it), label -1 is not yet a key of the registry and [cv::imwrite]
    finds an encoder for the name of the image file, one run of the
    enrollment block appends exactly one sample, labelled -1, adds exactly
    one registry entry, from -1 to the name, and retrains the recognizer
    on the whole updated dataset; the block runs inside the handling of
    the face at hand, so the retrained recognizer is in place when that
    face has been handled, before the next frame.  When [cv::imwrite]
    finds no encoder (the file name has lost its extension: the path of
    the directory holds whitespace), it raises before anything is added:
    the session is as it was and the exception ends the process. *)
Theorem enrollment_of_new_name
    (train_result : list Mat → list Z → outcome) (cfg : Setup) (now : Z)
    (face_resized : Mat) (s : Session) :
  brand_new cfg s →
  s_names s !! (-1) = None →
  train_result (s_images s ++ [face_resized]) (s_labels s ++ [-1])
    = Returned →
  let strFilename :=
    image_filename (dir_usrfaces cfg) now (s_saveImageCount s) in
  let run := enroll_face train_result cfg now face_resized s in
  (has_encoder cfg strFilename = true →
   run.1 = Returned
   ∧ s_images run.2 = s_images s ++ [face_resized]
   ∧ s_labels run.2 = s_labels s ++ [-1]
   ∧ s_names run.2 = <[-1 := expectName cfg]> (s_names s)
   ∧ s_name2label run.2 = <[expectName cfg := -1]> (s_name2label s)
   ∧ s_model run.2 = (s_images run.2, s_labels run.2)
   ∧ s_saveFaceFlag run.2 = false
   ∧ enrolled cfg s run.2
   ∧ ∀ gray original_resized f face,
       s_saveFaceFlag s = true → s_saveProtraitFlag s = false →
       Mat_roi gray (face_rect f) = Some face →
       resize face (im_width cfg) (im_height cfg) = Some face_resized →
       ∃ s' a,
         process_face train_result cfg gray original_resized now f s
           = (Returned, s', Some a)
         ∧ s_images s' = s_images run.2 ∧ s_labels s' = s_labels run.2
         ∧ s_model s' = (s_images s', s_labels s'))
  ∧ (has_encoder cfg strFilename = false →
     run = (Thrown imwrite_error, s)
     ∧ ∀ gray original_resized f face,
         s_saveFaceFlag s = true →
         Mat_roi gray (face_rect f) = Some face →
         resize face (im_width cfg) (im_height cfg) = Some face_resized →
         process_face train_result cfg gray original_resized now f s
         = (Thrown imwrite_error, s, None)).
Proof.
  intros [Hnew _] Hfree Htrain. cbv zeta. split.
  - intros Henc.
    assert (Hrun : enroll_face train_result cfg now face_resized s
      = (Returned,
         mkSession (s_images s ++ [face_resized]) (s_labels s ++ [-1])
           (<[-1 := expectName cfg]> (s_names s))
           (<[expectName cfg := -1]> (s_name2label s))
           (s_images s ++ [face_resized], s_labels s ++ [-1]) false
           (s_saveProtraitFlag s) (s_saveImageCount s + 1)
           (s_written s ++ [(image_filename (dir_usrfaces cfg) now
                               (s_saveImageCount s), face_resized)]))).
    { unfold enroll_face, imwrite, map_insert.
      by rewrite Henc, Hnew, Hfree, Htrain. }
    rewrite Hrun. simpl. repeat (split; [done|]). split.
    + unfold enrolled. simpl. rewrite !length_app. simpl.
      repeat (split; [lia || done|]). split; [|done]. by exists (-1).
    + intros gray original_resized f face Hface Hprot Hroi Hres.
      unfold process_face. rewrite Hroi, Hres, Hface, Hrun. simpl.
      rewrite Hprot. simpl.
      destruct (map_index (face_prediction f) _) as [strName names'].
      eexists _, _. split; [reflexivity|]. simpl. done.
  - intros Henc.
    assert (Hrun : enroll_face train_result cfg now face_resized s
                   = (Thrown imwrite_error, s)).
    { unfold enroll_face, imwrite. by rewrite Henc. }
    split; [done|]. intros gray original_resized f face Hface Hroi Hres.
    unfold process_face. by rewrite Hroi, Hres, Hface, Hrun.
Qed.

Lemma enrollment_of_new_name_witness :
  enrolled carol_setup carol_session
    (enroll_face train_ok carol_setup 1400000000 (mkMat 64 64)
       carol_session).2
  ∧ enroll_face train_ok spaced_setup 1400000000 (mkMat 64 64) carol_session
    = (Thrown imwrite_error, carol_session).
Proof.
  split.
  - refine (proj1 (proj2 (proj2 (proj2 (proj2 (proj2 (proj2 (proj2
      (proj1 (enrollment_of_new_name train_ok carol_setup 1400000000
                (mkMat 64 64) carol_session _ _ _) _))))))))).
    + split; [vm_compute; reflexivity|].
      intros l Hl. unfold carol_session in Hl. simpl in Hl.
      apply lookup_insert_Some in Hl as [[_ Hl]|[_ Hl]]; [done|].
      apply lookup_singleton_Some in Hl as [_ Hl]. done.
    + vm_compute. reflexivity.
    + reflexivity.
    + vm_compute. reflexivity.
  - refine (proj1 (proj2 (enrollment_of_new_name train_ok spaced_setup
                            1400000000 (mkMat 64 64) carol_session _ _ _)
                     _)).
    + split; [vm_compute; reflexivity|].
      intros l Hl. unfold carol_session in Hl. simpl in Hl.
      apply lookup_insert_Some in Hl as [[_ Hl]|[_ Hl]]; [done|].
      apply lookup_singleton_Some in Hl as [_ Hl]. done.
    + vm_compute. reflexivity.
    + reflexivity.
    + vm_compute. reflexivity.
Defined.

(** C6 as stated fails once the recognizer has answered -1 for a face:
    resolving that answer has put -1 in the registry, with the empty name,
    and the enrollment of carol then adds no entry. *)
Lemma enrollment_label_taken :
  start_session train_ok fs_session "/db" "carol" camera_frame
    = Some (carol_setup, carol_session)
  ∧ let s1 := (capture_loop train_ok carol_setup [unknown_turn]
                 carol_session []).1.2 in
    s_saveFaceFlag s1 = true
    ∧ s_names s1 !! (-1) = Some ""
    ∧ ¬ enrollment_as_specified train_ok carol_setup 1400000001
          (mkMat 64 64) s1.
Proof.
  split; [apply carol_start|]. cbv zeta.
  set (s1 := (capture_loop train_ok carol_setup [unknown_turn]
                carol_session []).1.2).
  assert (Hnames : s_names s1 = <[-1 := ""]> {[ 0 := "alice"; 1 := "bob" ]}).
  { vm_compute. reflexivity. }
  assert (Hn2l : s_name2label s1 = {[ "alice" := 0; "bob" := 1 ]}).
  { vm_compute. reflexivity. }
  split; [vm_compute; reflexivity|]. split.
  { rewrite Hnames. apply lookup_insert_eq. }
  intros Hspec.
  destruct Hspec as (_ & _ & (l & Hl & Heq) & _).
  - split.
    + rewrite Hn2l. vm_compute. reflexivity.
    + intros l Hl. rewrite Hnames in Hl.
      apply lookup_insert_Some in Hl as [[_ Hl]|[_ Hl]]; [done|].
      apply lookup_insert_Some in Hl as [[_ Hl]|[_ Hl]]; [done|].
      apply lookup_singleton_Some in Hl as [_ Hl]. done.
  - reflexivity.
  - assert (Hsame : s_names (enroll_face train_ok carol_setup 1400000001
                               (mkMat 64 64) s1).2 = s_names s1).
    { vm_compute. reflexivity. }
    rewrite Hsame in Heq. apply (f_equal (.!! l)) in Heq.
    rewrite lookup_insert_eq, Hl in Heq. done.
Qed.

(** ** The dataset loader *)

Lemma map_insert_lookup `{Countable K} {V} (k k' : K) (v : V)
    (m : gmap K V) :
  map_insert k v m !! k'
  = match m !! k' with
    | Some w => Some w
    | None => if decide (k = k') then Some v else None
    end.
Proof.
  unfold map_insert. destruct (m !! k) as [w|] eqn:Hk.
  - destruct (m !! k') as [w'|] eqn:Hk'; [done|].
    destruct (decide (k = k')) as [->|]; [congruence|done].
  - rewrite lookup_insert. destruct (decide (k = k')) as [->|].
    + by rewrite Hk.
    + by destruct (m !! k').
Qed.

Lemma map_insert_idemp `{Countable K} {V} (k : K) (v : V) (m : gmap K V) :
  map_insert k v (map_insert k v m) = map_insert k v m.
Proof.
  apply map_eq. intros k'. rewrite !map_insert_lookup.
  destruct (m !! k'); [done|]. by destruct (decide (k = k')).
Qed.

Lemma add_samples_S m i name_i d :
  add_samples m i name_i
    {| images := images d ++ [canonical_Mat];
       labels := labels d ++ [Z.of_nat i];
       names := map_insert (Z.of_nat i) name_i (names d) |}
  = add_samples (S m) i name_i d.
Proof.
  unfold add_samples. simpl. rewrite <- !app_assoc. simpl. f_equal.
  destruct (decide (m = 0%nat)); [done|]. apply map_insert_idemp.
Qed.

Lemma resize_decodes fs path :
  decodes fs path →
  resize (fs_imread fs path) STD_FACE_REC_SIZE STD_FACE_REC_SIZE
  = Some canonical_Mat.
Proof. unfold decodes, resize. by intros ->. Qed.

Section Loader.
Variable fs : FileSystem.

(** The loop over the files of one person directory, when every regular
    file it visits decodes. *)
Lemma load_images_spec faceImagePath i name_i items_face types_face js d :
  (∀ j, j ∈ js → types_face !!! j = DIRITEM_FILE →
        decodes fs (path_join faceImagePath (items_face !!! j))) →
  load_images fs faceImagePath i name_i items_face types_face js d
  = (Returned,
     add_samples
       (length (filter (λ j, types_face !!! j = DIRITEM_FILE) js)) i name_i d).
Proof.
  revert d. induction js as [|j js IH]; intros d Hdec; simpl.
  - unfold add_samples. simpl. rewrite !app_nil_r. by destruct d.
  - rewrite filter_cons.
    destruct (decide (types_face !!! j = DIRITEM_FILE)) as [Hj|Hj].
    + rewrite bool_decide_eq_true_2 by done. simpl.
      rewrite resize_decodes by (apply Hdec; [by left|done]).
      rewrite IH by (intros j' Hj'; apply Hdec; by right).
      simpl. f_equal. apply add_samples_S.
    + rewrite bool_decide_eq_false_2 by done. simpl.
      apply IH. intros j' Hj'. apply Hdec. by right.
Qed.

(** The same loop over a cataloged directory. *)
Lemma load_images_catalog faceImagePath i name_i lp d :
  Forall (λ f, decodes fs (path_join faceImagePath f)) (regular_files lp) →
  load_images fs faceImagePath i name_i lp.*1 lp.*2
    (seq 0%nat (length lp.*1)) d
  = (Returned, add_samples (length (regular_files lp)) i name_i d).
Proof.
  intros Hdec. rewrite load_images_spec.
  - pose proof (length_filter_indices (A:=string)
                  (λ t, t = DIRITEM_FILE) lp) as Hlen.
    rewrite Hlen. unfold regular_files. by rewrite length_fmap.
  - intros j Hj Ht. apply elem_of_seq in Hj as [_ Hj]. simpl in Hj.
    rewrite length_fmap in Hj.
    destruct (lookup_lt_is_Some_2 lp j Hj) as [[n t] Hnt].
    assert (lp.*1 !!! j = n) as ->.
    { apply list_lookup_total_correct. by rewrite list_lookup_fmap, Hnt. }
    assert (lp.*2 !!! j = t) as Ht'.
    { apply list_lookup_total_correct. by rewrite list_lookup_fmap, Hnt. }
    rewrite Forall_forall in Hdec. apply Hdec. unfold regular_files.
    apply list_elem_of_fmap. exists (n, t). split; [done|].
    apply list_elem_of_filter. split; [simpl; congruence|].
    by eapply list_elem_of_lookup_2.
Qed.

End Loader.

(** *** The descriptors of the process *)

Lemma nofile_pos fs : (0 < nofile fs)%nat.
Proof. unfold nofile. lia. Qed.

Lemma at_open_free fs opened :
  (opened < nofile fs)%nat → at_open fs opened = fs.
Proof.
  intros H. unfold at_open. by rewrite (proj2 (Nat.ltb_lt _ _) H).
Qed.

Lemma opendir_at_open fs opened p entries :
  fs_opendir (at_open fs opened) p = Some entries →
  (opened < nofile fs)%nat.
Proof.
  unfold at_open. destruct (opened <? nofile fs)%nat eqn:E; [|done].
  intros _. by apply Nat.ltb_lt.
Qed.

Lemma catalog_at_open fs opened p lp :
  catalog (at_open fs opened) p = Some lp →
  (opened < nofile fs)%nat ∧ catalog fs p = Some lp.
Proof.
  intros Hlp.
  assert (Hlt : (opened < nofile fs)%nat).
  { unfold catalog in Hlp.
    destruct (fs_opendir (at_open fs opened) p) as [entries|] eqn:Hop;
      [|done].
    by eapply opendir_at_open. }
  split; [done|]. by rewrite (at_open_free _ _ Hlt) in Hlp.
Qed.

Lemma catalog_at_open_None fs opened p :
  catalog fs p = None → catalog (at_open fs opened) p = None.
Proof.
  intros Hnone.
  destruct (catalog (at_open fs opened) p) as [lp|] eqn:Hlp; [|done].
  apply catalog_at_open in Hlp as [_ Hlp]. congruence.
Qed.

Lemma decodes_at_open fs opened p :
  decodes (at_open fs opened) p → decodes fs p.
Proof.
  unfold decodes, at_open. by destruct (opened <? nofile fs)%nat.
Qed.

Lemma decodes_at_open_lt fs opened p :
  decodes (at_open fs opened) p → (opened < nofile fs)%nat.
Proof.
  unfold decodes, at_open. destruct (opened <? nofile fs)%nat eqn:E.
  - intros _. by apply Nat.ltb_lt.
  - done.
Qed.

Lemma opened_after_catalog fs opened p lp :
  catalog (at_open fs opened) p = Some lp →
  opened_after fs opened p = S opened.
Proof.
  unfold catalog, opened_after.
  by destruct (fs_opendir (at_open fs opened) p).
Qed.

Lemma opened_after_le fs opened p :
  (opened ≤ opened_after fs opened p ≤ S opened)%nat.
Proof.
  unfold opened_after. destruct (fs_opendir _ p); lia.
Qed.

Section Persons.
Variable fs : FileSystem.
Variable datapath : string.

(** The catalog of the faces directory. *)
Variable l : list (string * DirectoryItemType).

Lemma load_persons_face_vectors ix items_face types_face opened d :
  load_persons fs (faces_path datapath) l.*1 l.*2 ix items_face types_face
    opened d
  = load_persons fs (faces_path datapath) l.*1 l.*2 ix [] [] opened d.
Proof.
  destruct ix as [|i ix]; simpl; [done|].
  destruct (negb (bool_decide (l.*2 !!! i = DIRITEM_DIR))); [|done].
  revert items_face types_face d.
  induction ix as [|i' ix IH]; intros items_face types_face d; simpl;
    [done|].
  destruct (negb (bool_decide (l.*2 !!! i' = DIRITEM_DIR))); [|done].
  apply IH.
Qed.

(** The loop over person directories that are valid, in a process that
    has the descriptors for them: one per directory, and one more for the
    image being read. *)
Lemma load_persons_spec ix items_face types_face opened d :
  (∀ i, i ∈ ix → l.*2 !!! i = DIRITEM_DIR →
        valid_person fs datapath (l.*1 !!! i)) →
  (opened + length (filter (λ i, l.*2 !!! i = DIRITEM_DIR) ix)
   < nofile fs)%nat →
  load_persons fs (faces_path datapath) l.*1 l.*2 ix items_face types_face
    opened d
  = (Returned, foldl (visit fs datapath l) d ix,
     (opened + length (filter (λ i, l.*2 !!! i = DIRITEM_DIR) ix))%nat).
Proof.
  revert items_face types_face opened d.
  induction ix as [|i ix IH]; intros items_face types_face opened d Hok Hfd;
    simpl.
  { by rewrite Nat.add_0_r. }
  rewrite filter_cons in Hfd |- *. unfold visit at 2.
  destruct (decide (l.*2 !!! i = DIRITEM_DIR)) as [Hi|Hi].
  - rewrite bool_decide_eq_true_2 by done. simpl in Hfd |- *.
    destruct (Hok i) as (lp & Hlp & Hdec); [by left|done|].
    rewrite (at_open_free fs opened) by lia.
    pose proof (traverseDirectory_catalog fs
                  (path_join (faces_path datapath) (l.*1 !!! i))
                  items_face types_face) as Htr.
    unfold person_path in Hlp. rewrite Hlp in Htr. rewrite Htr. simpl.
    rewrite (opened_after_catalog fs opened _ lp)
      by (by rewrite at_open_free by lia).
    rewrite (at_open_free fs (S opened)) by lia.
    rewrite load_images_catalog by done.
    unfold image_count, person_path. rewrite Hlp. simpl.
    rewrite IH; [|intros j Hj; apply Hok; by right|lia].
    f_equal. lia.
  - rewrite bool_decide_eq_false_2 by done. simpl.
    apply IH; [|done]. intros j Hj. apply Hok. by right.
Qed.

Lemma visit_labels ix d :
  labels (foldl (visit fs datapath l) d ix) = labels d ++ (ix ≫= pushed fs datapath l).
Proof.
  revert d. induction ix as [|i ix IH]; intros d; simpl.
  - by rewrite app_nil_r.
  - rewrite IH. unfold visit, pushed.
    destruct (decide (l.*2 !!! i = DIRITEM_DIR)); simpl; [|done].
    by rewrite <- app_assoc.
Qed.

Lemma visit_images ix d :
  images (foldl (visit fs datapath l) d ix)
  = images d ++ replicate (length (ix ≫= pushed fs datapath l)) canonical_Mat.
Proof.
  revert d. induction ix as [|i ix IH]; intros d; simpl.
  - by rewrite app_nil_r.
  - rewrite IH, length_app. unfold visit, pushed.
    destruct (decide (l.*2 !!! i = DIRITEM_DIR)); simpl; [|done].
    rewrite <- app_assoc, length_replicate. f_equal.
    by rewrite replicate_add.
Qed.

Lemma visit_names_keep ix d z v :
  names d !! z = Some v → names (foldl (visit fs datapath l) d ix) !! z = Some v.
Proof.
  revert d. induction ix as [|i ix IH]; intros d Hz; simpl; [done|].
  apply IH. unfold visit.
  destruct (decide (l.*2 !!! i = DIRITEM_DIR)); [|done].
  unfold add_samples. simpl.
  destruct (decide (image_count fs datapath (l.*1 !!! i) = 0%nat)); [done|].
  by rewrite map_insert_lookup, Hz.
Qed.

Lemma visit_names_new ix d i :
  i ∈ ix → l.*2 !!! i = DIRITEM_DIR →
  image_count fs datapath (l.*1 !!! i) ≠ 0%nat →
  names d !! Z.of_nat i = None →
  NoDup ix →
  names (foldl (visit fs datapath l) d ix) !! Z.of_nat i = Some (l.*1 !!! i).
Proof.
  revert d. induction ix as [|j ix IH]; intros d Hin Hdir Hcount Hfree Hnd.
  - by apply elem_of_nil in Hin.
  - simpl. apply NoDup_cons in Hnd as [Hj Hnd].
    apply elem_of_cons in Hin as [<-|Hin].
    + apply visit_names_keep. unfold visit.
      rewrite decide_True by done. unfold add_samples. simpl.
      rewrite decide_False by done.
      rewrite map_insert_lookup, Hfree. by rewrite decide_True.
    + apply IH; try done. unfold visit.
      destruct (decide (l.*2 !!! j = DIRITEM_DIR)); [|done].
      unfold add_samples. simpl.
      destruct (decide (image_count fs datapath (l.*1 !!! j) = 0%nat));
        [done|].
      rewrite map_insert_lookup, Hfree.
      rewrite decide_False; [done|]. intros Heq.
      apply Nat2Z.inj in Heq. subst j. done.
Qed.

End Persons.

Lemma lookup_total_pair {A B : Type} `{!Inhabited A, !Inhabited B}
    (l : list (A * B)) (i : nat) :
  (i < length l)%nat → l !! i = Some (l.*1 !!! i, l.*2 !!! i).
Proof.
  intros Hi. destruct (lookup_lt_is_Some_2 l i Hi) as [[a b] Hab].
  rewrite Hab. f_equal. f_equal; symmetry; apply list_lookup_total_correct;
    by rewrite list_lookup_fmap, Hab.
Qed.

Lemma lookup_pair_total {A B : Type} `{!Inhabited A, !Inhabited B}
    (l : list (A * B)) (i : nat) (a : A) (b : B) :
  l !! i = Some (a, b) →
  (i < length l)%nat ∧ l.*1 !!! i = a ∧ l.*2 !!! i = b.
Proof.
  intros Hab. split; [by eapply lookup_lt_Some|].
  split; apply list_lookup_total_correct; by rewrite list_lookup_fmap, Hab.
Qed.

Lemma fmap_lookup_total_take {T : Type} `{!Inhabited T} (l : list T)
    (k : nat) :
  (k ≤ length l)%nat → (λ j, l !!! j) <$> seq 0%nat k = take k l.
Proof.
  intros Hk. apply list_eq. intros i. rewrite list_lookup_fmap.
  destruct (decide (i < k)%nat) as [Hi|Hi].
  - rewrite lookup_seq_lt, lookup_take_lt by done. simpl.
    rewrite list_lookup_lookup_total_lt by lia. done.
  - rewrite lookup_seq_ge, lookup_take_ge by lia. done.
Qed.

Lemma length_bind {A B : Type} (f : A → list B) (l : list A) :
  length (l ≫= f) = sum_list (length ∘ f <$> l).
Proof.
  induction l as [|x l IH]; [done|].
  rewrite bind_cons, length_app, fmap_cons, IH. done.
Qed.

Section Counts.
Variable fs : FileSystem.
Variable datapath : string.
Variable l : list (string * DirectoryItemType).

Lemma sum_files_of (k : list (string * DirectoryItemType)) :
  sum_list (files_of fs datapath <$> k)
  = sum_list (image_count fs datapath <$> person_dirs k).
Proof.
  unfold person_dirs. induction k as [|e k IH]; [done|].
  rewrite fmap_cons, filter_cons. unfold files_of at 1. simpl.
  destruct (decide (e.2 = DIRITEM_DIR)); simpl; by rewrite IH.
Qed.

(** The number of labels pushed while the first [k] entries are visited. *)
Lemma length_pushed (k : nat) :
  (k ≤ length l)%nat →
  length (seq 0%nat k ≫= pushed fs datapath l)
  = sum_list (image_count fs datapath <$> person_dirs (take k l)).
Proof.
  intros Hk. rewrite length_bind, <- sum_files_of.
  rewrite <- (fmap_lookup_total_take l k Hk), <- list_fmap_compose.
  f_equal. apply Forall_fmap_ext_1, Forall_forall. intros i Hi.
  apply elem_of_seq in Hi as [_ Hi]. simpl in Hi.
  destruct (lookup_pair_total l i _ _ (lookup_total_pair l i ltac:(lia)))
    as (_ & _ & _).
  simpl. unfold pushed, files_of.
  rewrite (list_lookup_total_fmap fst l i), (list_lookup_total_fmap snd l i)
    by lia.
  destruct (decide ((l !!! i).2 = DIRITEM_DIR)); [|done].
  apply length_replicate.
Qed.

(** The labels pushed are the indices, in the catalog, of the person
    directories that have an image. *)
Lemma elem_of_pushed (z : Z) :
  z ∈ seq 0%nat (length l) ≫= pushed fs datapath l
  ↔ ∃ i p, z = Z.of_nat i ∧ l !! i = Some (p, DIRITEM_DIR)
           ∧ (0 < image_count fs datapath p)%nat.
Proof.
  rewrite list_elem_of_bind. split.
  - intros (i & Hz & Hi). apply elem_of_seq in Hi as [_ Hi]. simpl in Hi.
    unfold pushed in Hz.
    destruct (decide (l.*2 !!! i = DIRITEM_DIR)) as [Hd|]; [|by
      apply elem_of_nil in Hz].
    apply elem_of_replicate in Hz as [-> Hn].
    exists i, (l.*1 !!! i). split; [done|]. split; [|lia].
    rewrite <- Hd. by apply lookup_total_pair.
  - intros (i & p & -> & Hi & Hn).
    apply lookup_pair_total in Hi as (Hlt & Hp & Hd).
    exists i. split.
    + unfold pushed. rewrite decide_True by done.
      apply elem_of_replicate. split; [done|]. rewrite Hp. lia.
    + apply elem_of_seq. lia.
Qed.

End Counts.

Lemma elem_person_dirs (l : list (string * DirectoryItemType)) i p :
  l !! i = Some (p, DIRITEM_DIR) → p ∈ person_dirs l.
Proof.
  intros Hi. unfold person_dirs. apply list_elem_of_fmap.
  exists (p, DIRITEM_DIR). split; [done|].
  apply list_elem_of_filter. split; [done|]. by eapply list_elem_of_lookup_2.
Qed.

Lemma person_dirs_lookup (l : list (string * DirectoryItemType)) p :
  p ∈ person_dirs l → ∃ i, l !! i = Some (p, DIRITEM_DIR).
Proof.
  unfold person_dirs. intros ([n t] & -> & Hin)%list_elem_of_fmap.
  apply list_elem_of_filter in Hin as [Ht Hin]. simpl in Ht. subst t.
  by apply list_elem_of_lookup in Hin.
Qed.

Lemma persons_catalog fs datapath l :
  catalog fs (faces_path datapath) = Some l →
  persons fs datapath = person_dirs l.
Proof. intros Hl. unfold persons. by rewrite Hl. Qed.

Section Load.
Variable fs : FileSystem.
Variable datapath : string.
Variable l : list (string * DirectoryItemType).
Hypothesis Hl : catalog fs (faces_path datapath) = Some l.

Lemma loadFaceData_at_catalog d0 :
  loadFaceData_at fs 0 datapath d0
  = load_persons fs (faces_path datapath) l.*1 l.*2
      (seq 0%nat (length l)) [] [] 1 (mkFaceData [] [] ∅).
Proof.
  unfold loadFaceData_at. fold (faces_path datapath).
  rewrite (at_open_free fs 0) by apply nofile_pos.
  pose proof (traverseDirectory_catalog fs (faces_path datapath) [] [])
    as Htr. rewrite Hl in Htr. rewrite Htr. simpl.
  rewrite (opened_after_catalog fs 0 _ l)
    by (by rewrite at_open_free by apply nofile_pos).
  by rewrite length_fmap.
Qed.

Lemma loadFaceData_catalog d0 :
  loadFaceData fs datapath d0
  = (load_persons fs (faces_path datapath) l.*1 l.*2
       (seq 0%nat (length l)) [] [] 1 (mkFaceData [] [] ∅)).1.
Proof. unfold loadFaceData. by rewrite loadFaceData_at_catalog. Qed.

Lemma length_person_indices (k : nat) :
  (k ≤ length l)%nat →
  length (filter (λ i, l.*2 !!! i = DIRITEM_DIR) (seq 0%nat k))
  = length (person_dirs (take k l)).
Proof.
  intros Hk. unfold person_dirs. rewrite length_fmap.
  etransitivity;
    [|exact (length_filter_indices (A:=string) (λ t, t = DIRITEM_DIR)
               (take k l))].
  rewrite length_fmap, length_take, Nat.min_l by done.
  f_equal. apply filter_ext_elem. intros i Hi.
  apply elem_of_seq in Hi as [_ Hi]. simpl in Hi.
  rewrite !list_lookup_total_alt, !list_lookup_fmap.
  by rewrite lookup_take_lt by done.
Qed.

Lemma valid_prefix (k : nat) :
  Forall (valid_person fs datapath) (person_dirs (take k l)) →
  ∀ i, i ∈ seq 0%nat k → l.*2 !!! i = DIRITEM_DIR →
       valid_person fs datapath (l.*1 !!! i).
Proof.
  intros Hok i Hi Hd. apply elem_of_seq in Hi as [_ Hi]. simpl in Hi.
  destruct (decide (i < length l)%nat) as [Hlt|Hge].
  - rewrite Forall_forall in Hok. apply Hok.
    apply (elem_person_dirs _ i). rewrite lookup_take_lt by done.
    rewrite <- Hd. by apply lookup_total_pair.
  - rewrite (list_lookup_total_alt l.*2), lookup_ge_None_2 in Hd; [done|].
    rewrite length_fmap. lia.
Qed.

(** A valid layout loads completely, in a process that has the
    descriptors for it. *)
Lemma loadFaceData_at_valid d0 :
  Forall (valid_person fs datapath) (person_dirs l) →
  (length (person_dirs l) + 1 < nofile fs)%nat →
  loadFaceData_at fs 0 datapath d0
  = (Returned,
     foldl (visit fs datapath l) (mkFaceData [] [] ∅)
       (seq 0%nat (length l)),
     S (length (person_dirs l))).
Proof.
  intros Hok Hfd. rewrite loadFaceData_at_catalog.
  pose proof (length_person_indices (length l) ltac:(done)) as Hlen.
  rewrite take_ge in Hlen by done.
  rewrite load_persons_spec.
  - by rewrite Hlen.
  - apply valid_prefix. by rewrite take_ge.
  - rewrite Hlen. lia.
Qed.

Lemma loadFaceData_valid d0 :
  Forall (valid_person fs datapath) (person_dirs l) →
  (length (person_dirs l) + 1 < nofile fs)%nat →
  loadFaceData fs datapath d0
  = (Returned,
     foldl (visit fs datapath l) (mkFaceData [] [] ∅)
       (seq 0%nat (length l))).
Proof.
  intros Hok Hfd. unfold loadFaceData.
  by rewrite loadFaceData_at_valid.
Qed.

Lemma load_persons_app ix1 ix2 items_face types_face opened d :
  load_persons fs (faces_path datapath) l.*1 l.*2 (ix1 ++ ix2) items_face
    types_face opened d
  = match load_persons fs (faces_path datapath) l.*1 l.*2 ix1 items_face
            types_face opened d with
    | (Returned, d', opened') =>
        load_persons fs (faces_path datapath) l.*1 l.*2 ix2 [] [] opened' d'
    | thrown => thrown
    end.
Proof.
  revert items_face types_face opened d.
  induction ix1 as [|i ix1 IH]; intros items_face types_face opened d; simpl.
  - apply load_persons_face_vectors.
  - destruct (negb (bool_decide (l.*2 !!! i = DIRITEM_DIR))); [apply IH|].
    destruct (traverseDirectory (at_open fs opened) _ items_face types_face)
      as [r [items' types']].
    destruct (r <? 0); [done|].
    destruct (load_images _ _ i _ items' types' _ d) as [[|e] d'];
      [apply IH|done].
Qed.

(** The visit of a person directory that cannot be cataloged throws. *)
Lemma load_persons_unreadable k ix items_face types_face opened d :
  l.*2 !!! k = DIRITEM_DIR →
  catalog fs (person_path datapath (l.*1 !!! k)) = None →
  load_persons fs (faces_path datapath) l.*1 l.*2 (k :: ix) items_face
    types_face opened d
  = (Thrown ("Cannot read the face image directory "
               +:+ person_path datapath (l.*1 !!! k) +:+ "."), d,
     opened_after fs opened (person_path datapath (l.*1 !!! k))).
Proof.
  intros Hd Hnone. simpl. rewrite bool_decide_eq_true_2 by done. simpl.
  pose proof (traverseDirectory_catalog (at_open fs opened)
                (person_path datapath (l.*1 !!! k)) items_face types_face)
    as Htr.
  rewrite (catalog_at_open_None _ opened _ Hnone) in Htr.
  destruct Htr as (its & tys & Htr).
  unfold person_path in Htr. by rewrite Htr.
Qed.

Lemma load_persons_fails ix items_face types_face opened d :
  (∃ i, i ∈ ix ∧ l.*2 !!! i = DIRITEM_DIR
        ∧ catalog fs (person_path datapath (l.*1 !!! i)) = None) →
  ∃ e, (load_persons fs (faces_path datapath) l.*1 l.*2 ix items_face
          types_face opened d).1.1 = Thrown e.
Proof.
  revert items_face types_face opened d.
  induction ix as [|i ix IH]; intros items_face types_face opened d
    (k & Hk & Hd & Hnone).
  - by apply elem_of_nil in Hk.
  - destruct (decide (l.*2 !!! i = DIRITEM_DIR
                      ∧ catalog fs (person_path datapath (l.*1 !!! i))
                        = None)) as [[Hdi Hni]|Hgood].
    { rewrite load_persons_unreadable by done. eauto. }
    assert (Hrest : ∃ i', i' ∈ ix ∧ l.*2 !!! i' = DIRITEM_DIR
              ∧ catalog fs (person_path datapath (l.*1 !!! i')) = None).
    { exists k. split; [|done].
      apply elem_of_cons in Hk as [->|Hk]; [|done]. by destruct Hgood. }
    simpl. destruct (negb (bool_decide (l.*2 !!! i = DIRITEM_DIR)));
      [by apply IH|].
    destruct (traverseDirectory (at_open fs opened) _ items_face types_face)
      as [r [items' types']].
    destruct (r <? 0); [simpl; eauto|].
    destruct (load_images _ _ i _ items' types' _ d) as [[|e] d'];
      [by apply IH|simpl; eauto].
Qed.

End Load.

(** The distinct labels, when every person directory has an image: the
    indices of the person directories. *)
Lemma label_set_indices fs datapath (l : list (string * DirectoryItemType)) :
  Forall (λ p, 0 < image_count fs datapath p)%nat (person_dirs l) →
  (list_to_set (seq 0%nat (length l) ≫= pushed fs datapath l) : gset Z)
  = list_to_set
      (Z.of_nat <$> filter (λ i, l.*2 !!! i = DIRITEM_DIR)
                      (seq 0%nat (length l.*1))).
Proof.
  intros Hpos. apply set_eq. intros z.
  rewrite !elem_of_list_to_set, elem_of_pushed, list_elem_of_fmap. split.
  - intros (i & p & -> & Hi & _). exists i. split; [done|].
    apply lookup_pair_total in Hi as (Hlt & _ & Hd).
    apply list_elem_of_filter. split; [done|]. apply elem_of_seq.
    rewrite length_fmap. lia.
  - intros (i & -> & Hi). apply list_elem_of_filter in Hi as [Hd Hi].
    apply elem_of_seq in Hi as [_ Hi]. simpl in Hi.
    rewrite length_fmap in Hi.
    exists i, (l.*1 !!! i). split; [done|].
    assert (Hlook : l !! i = Some (l.*1 !!! i, DIRITEM_DIR)).
    { rewrite <- Hd. by apply lookup_total_pair. }
    split; [done|]. rewrite Forall_forall in Hpos. apply Hpos.
    by eapply elem_person_dirs.
Qed.

(** C1, as the code has it: on a valid two-level layout in which every
    person directory holds at least one regular image file, and in a
    process that has the file descriptors for it (the loader closes no
    directory, so it holds one descriptor for the faces directory and one
    per person directory, and needs one more for the image it reads),
    [loadFaceData] returns with as many samples as there are image files
    in the person directories, exactly as many distinct labels as person
    directories, and every image 64 by 64. *)
Theorem loadFaceData_counts (fs : FileSystem) (datapath : string) :
  valid_layout fs datapath →
  Forall (λ p, 0 < image_count fs datapath p)%nat (persons fs datapath) →
  (length (persons fs datapath) + 1 < nofile fs)%nat →
  loader_counts fs datapath.
Proof.
  intros (l & Hl & Hok) Hpos Hfd d0. rewrite (persons_catalog _ _ _ Hl) in *.
  cbv zeta. rewrite (loadFaceData_valid fs datapath l Hl d0 Hok Hfd). simpl.
  rewrite visit_images, visit_labels. simpl.
  rewrite length_replicate. split; [done|]. split.
  { rewrite (length_pushed fs datapath l (length l)) by done.
    by rewrite take_ge. }
  split; [done|]. split.
  - unfold label_set. rewrite visit_labels. simpl.
    rewrite label_set_indices by done.
    rewrite size_list_to_set.
    + etransitivity; [apply length_fmap|].
      transitivity (length (filter
        (λ e : string * DirectoryItemType, e.2 = DIRITEM_DIR) l)).
      { exact (length_filter_indices (A:=string) (λ t, t = DIRITEM_DIR) l). }
      unfold person_dirs. symmetry. apply length_fmap.
    + apply NoDup_fmap_2; [apply _|]. apply NoDup_filter, NoDup_seq.
  - apply Forall_replicate. by split.
Qed.

Lemma fs_stray_valid : valid_layout fs_stray "/db".
Proof.
  exists [("readme.txt", DIRITEM_FILE); ("alice", DIRITEM_DIR)].
  split; [reflexivity|]. repeat constructor.
  exists [("1.jpg", DIRITEM_FILE)]. split; [reflexivity|].
  repeat constructor.
Qed.

Lemma loadFaceData_counts_witness : loader_counts fs_stray "/db".
Proof.
  apply (loadFaceData_counts fs_stray "/db" fs_stray_valid).
  - repeat constructor.
  - vm_compute. lia.
Defined.

(** C1 as stated fails on the database that FaceCollection prepares for a
    new user: the empty directory of carol is a person directory, and no
    label stands for it. *)
Lemma loader_empty_person :
  valid_layout fs_session "/db" ∧ ¬ loader_counts fs_session "/db".
Proof.
  split.
  - exists [("alice", DIRITEM_DIR); ("bob", DIRITEM_DIR);
            ("carol", DIRITEM_DIR)].
    split; [reflexivity|]. repeat constructor.
    + exists [("1.jpg", DIRITEM_FILE)]. split; [reflexivity|].
      repeat constructor.
    + exists [("1.jpg", DIRITEM_FILE)]. split; [reflexivity|].
      repeat constructor.
    + exists []. split; [reflexivity|]. constructor.
  - intros H. destruct (H (mkFaceData [] [] ∅)) as (_ & _ & _ & Hsize & _).
    vm_compute in Hsize. discriminate Hsize.
Qed.

(** C2, as the code has it: on a valid layout, in a process that has the
    file descriptors to load it (one for the faces directory, one per
    person directory, none of them closed, and one for the image being
    read), the label of a person directory is its index in the catalog of
    the faces directory, where hidden entries do not count and other
    visible entries do; the labels in use are the indices of the person
    directories that hold an image, and the registry maps each of them to
    the directory name.  When the catalog holds person directories only,
    each with an image, the labels are 0 to N-1 in the order of
    enumeration. *)
Theorem labels_by_position (fs : FileSystem) (datapath : string)
    (d0 : FaceData) (l : list (string * DirectoryItemType)) :
  catalog fs (faces_path datapath) = Some l →
  Forall (valid_person fs datapath) (person_dirs l) →
  (length (person_dirs l) + 1 < nofile fs)%nat →
  let d := (loadFaceData fs datapath d0).2 in
  (∀ z, z ∈ labels d
        ↔ ∃ i p, z = Z.of_nat i ∧ l !! i = Some (p, DIRITEM_DIR)
                 ∧ (0 < image_count fs datapath p)%nat)
  ∧ (∀ i p, l !! i = Some (p, DIRITEM_DIR) →
            (0 < image_count fs datapath p)%nat →
            names d !! Z.of_nat i = Some p)
  ∧ (Forall (λ e, e.2 = DIRITEM_DIR
                  ∧ (0 < image_count fs datapath e.1)%nat) l →
     labels_dense fs datapath).
Proof.
  intros Hl Hok Hfd. cbv zeta.
  assert (Hrun : ∀ d0, (loadFaceData fs datapath d0).2
            = foldl (visit fs datapath l) (mkFaceData [] [] ∅)
                (seq 0%nat (length l))).
  { intros d. by rewrite (loadFaceData_valid fs datapath l Hl d Hok Hfd). }
  assert (Hlabels : ∀ z,
    z ∈ labels (foldl (visit fs datapath l) (mkFaceData [] [] ∅)
                  (seq 0%nat (length l)))
    ↔ ∃ i p, z = Z.of_nat i ∧ l !! i = Some (p, DIRITEM_DIR)
             ∧ (0 < image_count fs datapath p)%nat).
  { intros z. rewrite visit_labels. simpl. apply elem_of_pushed. }
  assert (Hnames : ∀ i p, l !! i = Some (p, DIRITEM_DIR) →
    (0 < image_count fs datapath p)%nat →
    names (foldl (visit fs datapath l) (mkFaceData [] [] ∅)
             (seq 0%nat (length l))) !! Z.of_nat i = Some p).
  { intros i p Hi Hn. apply lookup_pair_total in Hi as (Hlt & Hp & Hd).
    rewrite <- Hp. apply visit_names_new; try done.
    - apply elem_of_seq. lia.
    - rewrite Hp. lia.
    - apply NoDup_seq. }
  rewrite Hrun. split; [done|]. split; [done|].
  intros Hall d1. cbv zeta. rewrite Hrun, (persons_catalog _ _ _ Hl).
  assert (Hdirs : person_dirs l = l.*1).
  { unfold person_dirs. f_equal. clear -Hall.
    induction Hall as [|e k [He _] _ IH]; [done|].
    rewrite filter_cons_True by done. by rewrite IH. }
  rewrite Hdirs. split.
  - intros k p Hk. apply list_lookup_fmap_Some in Hk as ([n t] & -> & Hk).
    rewrite Forall_forall in Hall.
    destruct (Hall (n, t)) as [Ht Hn]; [by eapply list_elem_of_lookup_2|].
    simpl in *. subst t. by apply Hnames.
  - apply set_eq. intros z. unfold label_set.
    rewrite !elem_of_list_to_set, Hlabels, list_elem_of_fmap.
    rewrite length_fmap. split.
    + intros (i & p & -> & Hi & _). exists i. split; [done|].
      apply elem_of_seq. apply lookup_lt_Some in Hi. lia.
    + intros (i & -> & Hi). apply elem_of_seq in Hi as [_ Hi].
      simpl in Hi. destruct (lookup_lt_is_Some_2 l i Hi) as [[n t] Hnt].
      rewrite Forall_forall in Hall.
      destruct (Hall (n, t)) as [Ht Hn]; [by eapply list_elem_of_lookup_2|].
      simpl in *. subst t. eauto.
Qed.

Lemma labels_by_position_witness :
  names (loadFaceData fs_stray "/db" (mkFaceData [] [] ∅)).2 !! 1
  = Some "alice".
Proof.
  refine (proj1 (proj2 (labels_by_position fs_stray "/db"
                          (mkFaceData [] [] ∅)
                          [("readme.txt", DIRITEM_FILE);
                           ("alice", DIRITEM_DIR)] _ _ _))
            1%nat "alice" _ _).
  - reflexivity.
  - repeat constructor. exists [("1.jpg", DIRITEM_FILE)].
    split; [reflexivity|]. repeat constructor.
  - vm_compute. lia.
  - reflexivity.
  - vm_compute. lia.
Defined.

(** C2 as stated fails when a file stands before a person directory in the
    enumeration: alice, the first person directory, gets label 1. *)
Lemma labels_count_other_entries :
  valid_layout fs_stray "/db" ∧ ¬ labels_dense fs_stray "/db".
Proof.
  split; [apply fs_stray_valid|]. intros H.
  destruct (H (mkFaceData [] [] ∅)) as [Hnames _].
  specialize (Hnames 0%nat "alice" eq_refl).
  vm_compute in Hnames. discriminate Hnames.
Qed.

(** C4, as the code has it: when some directory of the database cannot be
    read, [loadFaceData] ends with a [cv::Exception]; the containers are
    empty on that exit when it is the faces directory that cannot be
    read; when it is a person directory, listed after person directories
    that load (they are valid, and the process has the descriptors for
    them: the loader closes no directory), the exception names it and the
    containers hold the samples of those earlier person directories. *)
Theorem loadFaceData_unreadable (fs : FileSystem) (datapath : string)
    (d0 : FaceData) :
  (catalog fs (faces_path datapath) = None →
   loadFaceData fs datapath d0
   = (Thrown ("Cannot read the face database directory "
                +:+ faces_path datapath +:+ "."),
      mkFaceData [] [] ∅))
  ∧ (unreadable fs datapath →
     ∃ e, (loadFaceData fs datapath d0).1 = Thrown e)
  ∧ (∀ l k p,
       catalog fs (faces_path datapath) = Some l →
       l !! k = Some (p, DIRITEM_DIR) →
       catalog fs (person_path datapath p) = None →
       Forall (valid_person fs datapath) (person_dirs (take k l)) →
       (length (person_dirs (take k l)) + 1 < nofile fs)%nat →
       let run := loadFaceData fs datapath d0 in
       run.1 = Thrown ("Cannot read the face image directory "
                         +:+ person_path datapath p +:+ ".")
       ∧ length (images run.2)
         = sum_list (image_count fs datapath <$> person_dirs (take k l))
       ∧ length (labels run.2) = length (images run.2)).
Proof.
  assert (Hfaces : catalog fs (faces_path datapath) = None →
    loadFaceData fs datapath d0
    = (Thrown ("Cannot read the face database directory "
                 +:+ faces_path datapath +:+ "."), mkFaceData [] [] ∅)).
  { intros Hnone. unfold loadFaceData, loadFaceData_at.
    fold (faces_path datapath).
    rewrite (at_open_free fs 0) by apply nofile_pos.
    pose proof (traverseDirectory_catalog fs (faces_path datapath) [] [])
      as Htr. rewrite Hnone in Htr. destruct Htr as (its & tys & Htr).
    by rewrite Htr. }
  split; [done|]. split.
  - intros [Hnone|(p & Hp & Hnone)].
    + rewrite Hfaces by done. simpl. eauto.
    + unfold persons in Hp.
      destruct (catalog fs (faces_path datapath)) as [l|] eqn:Hl;
        [|by apply elem_of_nil in Hp].
      simpl in Hp. apply person_dirs_lookup in Hp as [i Hi].
      rewrite (loadFaceData_catalog fs datapath l Hl).
      apply load_persons_fails.
      apply lookup_pair_total in Hi as (Hlt & Hn & Hd).
      exists i. rewrite Hn. split; [|done]. apply elem_of_seq. lia.
  - intros l k p Hl Hk Hnone Hok Hfd. cbv zeta.
    rewrite (loadFaceData_catalog fs datapath l Hl).
    apply lookup_pair_total in Hk as (Hlt & Hn & Hd).
    replace (length l) with (k + S (length l - S k))%nat by lia.
    rewrite seq_app, load_persons_app.
    rewrite load_persons_spec;
      [|by apply valid_prefix
       |rewrite (length_person_indices l k) by lia; lia].
    change (seq (0 + k) (S (length l - S k)))
      with (k :: seq (S k) (length l - S k)).
    rewrite load_persons_unreadable by (by rewrite ?Hn).
    rewrite Hn. simpl. split; [done|].
    rewrite visit_images, visit_labels. simpl.
    rewrite length_replicate. split; [|done].
    apply length_pushed. lia.
Qed.

Lemma loadFaceData_unreadable_witness :
  (loadFaceData fs_locked "/db" (mkFaceData [] [] ∅)).1
  = Thrown "Cannot read the face image directory /db/faces/bob."
  ∧ length (images (loadFaceData fs_locked "/db" (mkFaceData [] [] ∅)).2)
    = 2%nat.
Proof.
  destruct (proj2 (proj2 (loadFaceData_unreadable fs_locked "/db"
                            (mkFaceData [] [] ∅)))
              [("alice", DIRITEM_DIR); ("bob", DIRITEM_DIR)] 1%nat "bob")
    as (Hthrown & Hcount & _).
  - reflexivity.
  - reflexivity.
  - reflexivity.
  - repeat constructor.
    exists [("1.jpg", DIRITEM_FILE); ("2.jpg", DIRITEM_FILE)].
    split; [reflexivity|]. repeat constructor.
  - vm_compute. lia.
  - split; [exact Hthrown|]. rewrite Hcount. reflexivity.
Defined.

(** C4 as stated fails when the unreadable directory comes after a person
    directory that loads: the two images of alice are in the containers
    when the exception for the directory of bob is thrown. *)
Lemma loader_partial_dataset :
  unreadable fs_locked "/db" ∧ ¬ fails_empty fs_locked "/db".
Proof.
  split.
  - right. exists "bob". split; [|reflexivity].
    vm_compute. right. left.
  - intros H. destruct (H (mkFaceData [] [] ∅)) as (_ & Himages & _).
    vm_compute in Himages. discriminate Himages.
Qed.

(** * Further properties of the code *)

(** ** The catalog *)

(** X1: the item type tells the two file kinds apart: an entry is typed as
    a directory exactly when [S_ISDIR] holds of its mode, as a file exactly
    when [S_ISREG] holds, and as other exactly when neither does; the
    second [if] never overrides the first, since the file-type bits hold one
    value. *)
Theorem item_type_classification (st_mode : Z) :
  (item_type_of_mode st_mode = DIRITEM_DIR ↔ S_ISDIR st_mode = true)
  ∧ (item_type_of_mode st_mode = DIRITEM_FILE ↔ S_ISREG st_mode = true)
  ∧ (item_type_of_mode st_mode = DIRITEM_OTHER
     ↔ S_ISREG st_mode = false ∧ S_ISDIR st_mode = false).
Proof.
  unfold item_type_of_mode, S_ISDIR, S_ISREG, S_IFREG, S_IFDIR.
  destruct (Z.land st_mode S_IFMT =? 32768) eqn:Hreg;
    destruct (Z.land st_mode S_IFMT =? 16384) eqn:Hdir;
    try (apply Z.eqb_eq in Hreg; apply Z.eqb_eq in Hdir; lia);
    repeat split; try done; by intros [? ?].
Qed.

(** The loop on a listing whose first visible entry that cannot be examined
    is [n]: the entries before it are pushed, then the loop returns -1. *)
Lemma readdir_loop_stops fs dirpath entries pre n post items types :
  visible entries = pre ++ n :: post →
  Forall (λ m, is_Some (fs_stat fs (path_join dirpath m))) pre →
  fs_stat fs (path_join dirpath n) = None →
  ∃ tys, readdir_loop fs dirpath entries items types
         = (-1, (items ++ pre, types ++ tys))
         ∧ Forall2 (λ m t, entry_type fs dirpath m = Some t) pre tys.
Proof.
  revert pre items types.
  induction entries as [|d es IH]; intros pre items types Hv Hpre Hn.
  - by destruct pre.
  - simpl. unfold visible in Hv. rewrite filter_cons in Hv.
    destruct (is_hidden d) eqn:Hd.
    + rewrite decide_False in Hv by done. by apply IH.
    + rewrite decide_True in Hv by done. destruct pre as [|p pre].
      * simpl in Hv. injection Hv as -> Hv. rewrite Hn.
        exists []. rewrite !app_nil_r. split; [done|constructor].
      * simpl in Hv. injection Hv as -> Hv.
        apply Forall_cons in Hpre as [[m Hm] Hpre]. rewrite Hm.
        destruct (IH pre (items ++ [p]) (types ++ [item_type_of_mode m])
                    Hv Hpre Hn) as (tys & -> & HF).
        exists (item_type_of_mode m :: tys). rewrite <- !app_assoc.
        split; [done|]. constructor; [|done].
        unfold entry_type. by rewrite Hm.
Qed.

(** X2: [traverseDirectory] returns 0 exactly when the directory opens and
    every visible entry can be examined with [stat]; the items are then all
    the visible entries, in the order of enumeration, each with the type of
    its own mode. *)
Theorem traverseDirectory_success (fs : FileSystem) (dirpath : string)
    (items0 : list string) (types0 : list DirectoryItemType) :
  let r := traverseDirectory fs dirpath items0 types0 in
  (r.1 = 0
   ↔ ∃ entries, fs_opendir fs dirpath = Some entries
       ∧ Forall (λ n, is_Some (fs_stat fs (path_join dirpath n)))
           (visible entries))
  ∧ (r.1 = 0 →
     r.2.1 = visible (default [] (fs_opendir fs dirpath))
     ∧ Forall2 (λ n t, entry_type fs dirpath n = Some t) r.2.1 r.2.2).
Proof.
  cbv zeta. unfold traverseDirectory.
  destruct (fs_opendir fs dirpath) as [entries|] eqn:Hop; simpl.
  - destruct (readdir_loop_spec fs dirpath entries [] [])
      as (read & rtypes & rest & r & Hrun & HF & Hv & Hr).
    rewrite Hrun. simpl.
    assert (Hok : Forall (λ n, is_Some (fs_stat fs (path_join dirpath n)))
                    read).
    { clear -HF. induction HF as [|n t ns ts Hnt _ IH]; constructor; [|done].
      unfold entry_type in Hnt.
      by destruct (fs_stat fs (path_join dirpath n)). }
    destruct Hr as [[-> ->]|(-> & n & rest' & -> & Hst)].
    + rewrite app_nil_r in Hv. subst read. split; [|done].
      split; [|done]. intros _. by exists entries.
    + split; [|done]. split; [done|]. intros (es & [= <-] & Hall).
      rewrite Hv in Hall. apply Forall_app in Hall as [_ Hall].
      apply Forall_cons in Hall as [[m Hm] _]. congruence.
  - split; [|done]. split; [done|]. by intros (es & ? & _).
Qed.

(** X3: when a visible entry cannot be examined, the call returns -1 and
    leaves in the vectors the visible entries enumerated before the first
    such entry, with their types; nothing of what follows is read. *)
Theorem traverseDirectory_partial (fs : FileSystem) (dirpath : string)
    (items0 : list string) (types0 : list DirectoryItemType)
    (entries pre : list string) (n : string) (post : list string) :
  fs_opendir fs dirpath = Some entries →
  visible entries = pre ++ n :: post →
  Forall (λ m, is_Some (fs_stat fs (path_join dirpath m))) pre →
  fs_stat fs (path_join dirpath n) = None →
  ∃ tys, traverseDirectory fs dirpath items0 types0 = (-1, (pre, tys))
         ∧ Forall2 (λ m t, entry_type fs dirpath m = Some t) pre tys.
Proof.
  intros Hop Hv Hpre Hn. unfold traverseDirectory. rewrite Hop.
  destruct (readdir_loop_stops fs dirpath entries pre n post [] [] Hv Hpre Hn)
    as (tys & Hrun & HF).
  exists tys. split; [exact Hrun|done].
Qed.

Lemma traverseDirectory_partial_witness :
  ∃ tys, traverseDirectory fs_dangling "d" [] [] = (-1, (["a"], tys))
         ∧ Forall2 (λ m t, entry_type fs_dangling "d" m = Some t) ["a"] tys.
Proof.
  apply (traverseDirectory_partial fs_dangling "d" [] []
           ["."; "a"; "ghost"; "b"] ["a"] "ghost" ["b"]).
  - reflexivity.
  - reflexivity.
  - repeat constructor. vm_compute. eauto.
  - reflexivity.
Defined.

(** X4: the modes of hidden entries play no part: two file systems that
    list the directory alike and agree on the [stat] of its visible
    entries give the same result, so a hidden entry that cannot be examined
    does not fail the call. *)
Theorem traverseDirectory_ignores_hidden (fs fs' : FileSystem)
    (dirpath : string) (items0 : list string)
    (types0 : list DirectoryItemType) :
  fs_opendir fs dirpath = fs_opendir fs' dirpath →
  (∀ n, n ∈ visible (default [] (fs_opendir fs dirpath)) →
        fs_stat fs (path_join dirpath n) = fs_stat fs' (path_join dirpath n)) →
  traverseDirectory fs dirpath items0 types0
  = traverseDirectory fs' dirpath items0 types0.
Proof.
  intros Hop Hst. unfold traverseDirectory. rewrite <- Hop.
  destruct (fs_opendir fs dirpath) as [entries|]; [|done]. simpl in Hst.
  clear Hop. generalize (@nil string) (@nil DirectoryItemType).
  induction entries as [|d es IH]; intros items types; simpl; [done|].
  unfold visible in Hst. rewrite filter_cons in Hst.
  fold (visible es) in Hst. destruct (is_hidden d) eqn:Hd.
  - rewrite decide_False in Hst by done. by apply IH.
  - rewrite decide_True in Hst by done.
    rewrite <- (Hst d) by (by left).
    destruct (fs_stat fs (path_join dirpath d)); [|done].
    apply IH. intros n Hn. apply Hst. by right.
Qed.

Lemma traverseDirectory_ignores_hidden_witness :
  traverseDirectory fs_hidden_unknown "d" [] []
  = traverseDirectory fs_hidden_known "d" [] [].
Proof.
  apply (traverseDirectory_ignores_hidden fs_hidden_unknown fs_hidden_known).
  - reflexivity.
  - intros n Hn. change (n ∈ ["a"]) in Hn.
    apply elem_of_cons in Hn as [->|Hn]; [reflexivity|].
    by apply elem_of_nil in Hn.
Defined.

(** ** The loader on any database *)

Lemma add_samples_0 i name_i d : add_samples 0 i name_i d = d.
Proof. unfold add_samples. simpl. rewrite !app_nil_r. by destruct d. Qed.

Lemma resize_canonical src img :
  resize src STD_FACE_REC_SIZE STD_FACE_REC_SIZE = Some img →
  img = canonical_Mat ∧ Mat_empty src = false.
Proof.
  unfold resize. destruct (Mat_empty src); [done|]. simpl.
  by intros [= <-].
Qed.

(** However the loop over the files of a person ends, it has pushed some
    number of canonical images under the label of the person. *)
Lemma load_images_any fs faceImagePath i name_i items_face types_face js d :
  ∃ k, (k ≤ length js)%nat
       ∧ (load_images fs faceImagePath i name_i items_face types_face js d).2
         = add_samples k i name_i d.
Proof.
  revert d. induction js as [|j js IH]; intros d; simpl.
  - exists 0%nat. by rewrite add_samples_0.
  - destruct (negb (bool_decide (types_face !!! j = DIRITEM_FILE))).
    { destruct (IH d) as (k & Hk & ->). exists k. split; [lia|done]. }
    destruct (resize _ STD_FACE_REC_SIZE STD_FACE_REC_SIZE) as [img|] eqn:Hr.
    + apply resize_canonical in Hr as [-> _].
      destruct (IH {| images := images d ++ [canonical_Mat];
                      labels := labels d ++ [Z.of_nat i];
                      names := map_insert (Z.of_nat i) name_i (names d) |})
        as (k & Hk & ->).
      exists (S k). split; [lia|]. apply add_samples_S.
    + exists 0%nat. split; [lia|]. by rewrite add_samples_0.
Qed.

(** When the loop over the files of a person returns, every regular file
    it visited decodes. *)
Lemma load_images_returned fs faceImagePath i name_i items_face types_face
    js d d' :
  load_images fs faceImagePath i name_i items_face types_face js d
    = (Returned, d') →
  ∀ j, j ∈ js → types_face !!! j = DIRITEM_FILE →
       decodes fs (path_join faceImagePath (items_face !!! j)).
Proof.
  revert d. induction js as [|j js IH]; intros d Hrun j' Hj' Hfile.
  - by apply elem_of_nil in Hj'.
  - simpl in Hrun.
    destruct (decide (types_face !!! j = DIRITEM_FILE)) as [Hj|Hj].
    + rewrite bool_decide_eq_true_2 in Hrun by done. simpl in Hrun.
      destruct (resize _ STD_FACE_REC_SIZE STD_FACE_REC_SIZE) as [img|] eqn:Hr;
        [|done].
      apply resize_canonical in Hr as [_ Hdec].
      apply elem_of_cons in Hj' as [->|Hj']; [done|]. by eapply IH.
    + rewrite bool_decide_eq_false_2 in Hrun by done. simpl in Hrun.
      apply elem_of_cons in Hj' as [->|Hj']; [done|]. by eapply IH.
Qed.

Section Returned.
Variable fs : FileSystem.
Variable datapath : string.
Variable l : list (string * DirectoryItemType).

(** When the loop over the entries of the faces directory returns, every
    person directory it visited is a valid one, each has taken one
    descriptor, and the process had one for the last of them. *)
Lemma load_persons_returned ix items_face types_face opened d d' opened' :
  load_persons fs (faces_path datapath) l.*1 l.*2 ix items_face types_face
    opened d = (Returned, d', opened') →
  (∀ i, i ∈ ix → l.*2 !!! i = DIRITEM_DIR →
        valid_person fs datapath (l.*1 !!! i))
  ∧ opened'
    = (opened + length (filter (λ i, l.*2 !!! i = DIRITEM_DIR) ix))%nat
  ∧ (filter (λ i, l.*2 !!! i = DIRITEM_DIR) ix ≠ [] →
     (opened' ≤ nofile fs)%nat).
Proof.
  revert items_face types_face opened d.
  induction ix as [|i ix IH]; intros items_face types_face opened d Hrun.
  - simpl in Hrun. injection Hrun as _ <-. split; [|split; [simpl; lia|done]].
    by intros i ?%elem_of_nil.
  - simpl in Hrun. rewrite filter_cons.
    destruct (decide (l.*2 !!! i = DIRITEM_DIR)) as [Hi|Hi].
    + rewrite bool_decide_eq_true_2 in Hrun by done. simpl in Hrun.
      pose proof (traverseDirectory_catalog (at_open fs opened)
                    (path_join (faces_path datapath) (l.*1 !!! i))
                    items_face types_face) as Htr.
      destruct (catalog (at_open fs opened)
                  (path_join (faces_path datapath) (l.*1 !!! i)))
        as [lp|] eqn:Hlp.
      2:{ destruct Htr as (its & tys & Htr). by rewrite Htr in Hrun. }
      rewrite Htr in Hrun. simpl in Hrun.
      rewrite (opened_after_catalog _ _ _ _ Hlp) in Hrun.
      apply catalog_at_open in Hlp as [Hlt Hlp].
      destruct (load_images (at_open fs (S opened)) _ i _ lp.*1 lp.*2 _ d)
        as [[|e] d1] eqn:Him; [|done].
      destruct (IH _ _ _ _ Hrun) as (Hvalid & -> & Hle).
      split; [|split].
      * intros i' Hi' Hdir.
        apply elem_of_cons in Hi' as [->|Hi']; [|by apply Hvalid].
        exists lp. split; [done|]. apply Forall_forall. intros f Hf.
        unfold regular_files in Hf.
        apply list_elem_of_fmap in Hf as ([n t] & -> & Hin).
        apply list_elem_of_filter in Hin as [Ht Hin]. simpl in Ht. subst t.
        apply list_elem_of_lookup in Hin as [j Hj].
        apply lookup_pair_total in Hj as (Hlt' & Hn & Hty). simpl.
        rewrite <- Hn. apply (decodes_at_open fs (S opened)).
        eapply (load_images_returned _ _ _ _ _ _ _ _ _ Him j); [|done].
        apply elem_of_seq. rewrite length_fmap. lia.
      * simpl. lia.
      * intros _.
        destruct (filter (λ i0, l.*2 !!! i0 = DIRITEM_DIR) ix) as [|j js]
          eqn:Hf.
        -- simpl. lia.
        -- by apply Hle.
    + rewrite bool_decide_eq_false_2 in Hrun by done. simpl in Hrun.
      destruct (IH _ _ _ _ Hrun) as (Hvalid & -> & Hle).
      split; [|split; [done|done]].
      intros i' Hi' Hdir.
      apply elem_of_cons in Hi' as [->|Hi']; [done|]. by apply Hvalid.
Qed.

(** When the loop returns and every person directory it visited holds an
    image file, the process still had a descriptor for the last image it
    read. *)
Lemma load_persons_returned_images ix items_face types_face opened d d'
    opened' :
  load_persons fs (faces_path datapath) l.*1 l.*2 ix items_face types_face
    opened d = (Returned, d', opened') →
  (∀ i, i ∈ ix → l.*2 !!! i = DIRITEM_DIR →
        image_count fs datapath (l.*1 !!! i) ≠ 0%nat) →
  filter (λ i, l.*2 !!! i = DIRITEM_DIR) ix ≠ [] →
  (opened' < nofile fs)%nat.
Proof.
  revert items_face types_face opened d.
  induction ix as [|i ix IH]; intros items_face types_face opened d Hrun
    Himg Hne; [done|].
  simpl in Hrun. rewrite filter_cons in Hne.
  destruct (decide (l.*2 !!! i = DIRITEM_DIR)) as [Hi|Hi].
  - rewrite bool_decide_eq_true_2 in Hrun by done. simpl in Hrun.
    pose proof (traverseDirectory_catalog (at_open fs opened)
                  (path_join (faces_path datapath) (l.*1 !!! i))
                  items_face types_face) as Htr.
    destruct (catalog (at_open fs opened)
                (path_join (faces_path datapath) (l.*1 !!! i)))
      as [lp|] eqn:Hlp.
    2:{ destruct Htr as (its & tys & Htr). by rewrite Htr in Hrun. }
    rewrite Htr in Hrun. simpl in Hrun.
    rewrite (opened_after_catalog _ _ _ _ Hlp) in Hrun.
    apply catalog_at_open in Hlp as [Hlt Hlp].
    destruct (load_images (at_open fs (S opened)) _ i _ lp.*1 lp.*2 _ d)
      as [[|e] d1] eqn:Him; [|done].
    assert (Hnext : (S opened < nofile fs)%nat).
    { specialize (Himg i ltac:(by left) Hi).
      unfold image_count, person_path in Himg. rewrite Hlp in Himg.
      simpl in Himg.
      destruct (regular_files lp) as [|f fs'] eqn:Hfiles; [done|].
      assert (Hf : f ∈ regular_files lp) by (rewrite Hfiles; by left).
      unfold regular_files in Hf.
      apply list_elem_of_fmap in Hf as ([n t] & -> & Hin).
      apply list_elem_of_filter in Hin as [Ht Hin]. simpl in Ht. subst t.
      apply list_elem_of_lookup in Hin as [j Hj].
      apply lookup_pair_total in Hj as (Hlt' & Hn & Hty).
      apply (decodes_at_open_lt fs (S opened)
               (path_join (path_join (faces_path datapath) (l.*1 !!! i))
                  (lp.*1 !!! j))).
      eapply (load_images_returned _ _ _ _ _ _ _ _ _ Him j); [|done].
      apply elem_of_seq. rewrite length_fmap. lia. }
    destruct (filter (λ i0, l.*2 !!! i0 = DIRITEM_DIR) ix) as [|j js] eqn:Hf.
    + destruct (load_persons_returned _ _ _ _ _ _ _ Hrun) as (_ & Hop & _).
      rewrite Hf in Hop. simpl in Hop. lia.
    + eapply IH; [exact Hrun| |done].
      intros i' Hi'. apply Himg. by right.
  - rewrite bool_decide_eq_false_2 in Hrun by done. simpl in Hrun.
    eapply IH; [exact Hrun| |done]. intros i' Hi'. apply Himg. by right.
Qed.

End Returned.

(** X5: [loadFaceData] returns, instead of throwing, only on a valid
    layout (the faces directory and every person directory it lists can
    be cataloged, and every regular file of a person directory decodes to
    an image that is not empty) whose person directories are fewer than
    the descriptors of the process; and it does return on every valid
    layout when the process has two descriptors more than there are
    person directories.  The loader closes no directory: a database with
    more person directories than the process has descriptors never
    loads. *)
Theorem loadFaceData_returns (fs : FileSystem) (datapath : string)
    (d0 : FaceData) :
  ((loadFaceData fs datapath d0).1 = Returned →
   valid_layout fs datapath
   ∧ (length (persons fs datapath) < nofile fs)%nat)
  ∧ (valid_layout fs datapath →
     (length (persons fs datapath) + 1 < nofile fs)%nat →
     (loadFaceData fs datapath d0).1 = Returned).
Proof.
  split.
  - intros Hret.
    destruct (catalog fs (faces_path datapath)) as [l|] eqn:Hl.
    + rewrite (persons_catalog _ _ _ Hl).
      rewrite (loadFaceData_catalog fs datapath l Hl) in Hret.
      destruct (load_persons fs (faces_path datapath) l.*1 l.*2
                  (seq 0%nat (length l)) [] [] 1 (mkFaceData [] [] ∅))
        as [[o d] opened'] eqn:Hrun.
      simpl in Hret. subst o.
      destruct (load_persons_returned fs datapath l _ _ _ _ _ _ _ Hrun)
        as (Hvalid & -> & Hle).
      pose proof (length_person_indices l (length l) ltac:(done)) as Hlen.
      rewrite take_ge in Hlen by done. split.
      * exists l. split; [done|]. apply Forall_forall. intros p Hp.
        apply person_dirs_lookup in Hp as [i Hi].
        apply lookup_pair_total in Hi as (Hlt & Hn & Hd). rewrite <- Hn.
        apply Hvalid; [|done]. apply elem_of_seq. lia.
      * destruct (filter (λ i, l.*2 !!! i = DIRITEM_DIR)
                    (seq 0%nat (length l))) as [|j js] eqn:Hf.
        -- rewrite <- Hlen. simpl. apply nofile_pos.
        -- rewrite <- Hlen. specialize (Hle ltac:(done)). simpl in *. lia.
    + unfold loadFaceData, loadFaceData_at in Hret.
      fold (faces_path datapath) in Hret.
      rewrite (at_open_free fs 0) in Hret by apply nofile_pos.
      pose proof (traverseDirectory_catalog fs (faces_path datapath) [] [])
        as Htr. rewrite Hl in Htr. destruct Htr as (its & tys & Htr).
      by rewrite Htr in Hret.
  - intros (l & Hl & Hok) Hfd. rewrite (persons_catalog _ _ _ Hl) in Hfd.
    by rewrite (loadFaceData_valid fs datapath l Hl).
Qed.

Lemma loadFaceData_returns_witness :
  (loadFaceData fs_stray "/db" (mkFaceData [] [] ∅)).1 = Returned
  ∧ ∃ e, (loadFaceData fs_tight "/db" (mkFaceData [] [] ∅)).1 = Thrown e.
Proof.
  split.
  - apply (proj2 (loadFaceData_returns fs_stray "/db" (mkFaceData [] [] ∅))
             fs_stray_valid).
    vm_compute. lia.
  - vm_compute. eauto.
Defined.

(** X24: the descriptors that a database needs.  When every person
    directory holds an image file, [loadFaceData] returns exactly when the
    layout is valid and the process has two descriptors more than there
    are person directories: one for the faces directory, one per person
    directory, none of which is closed, and one for the image being read.
    A valid database with more person directories than that never
    loads. *)
Theorem loadFaceData_descriptors (fs : FileSystem) (datapath : string)
    (d0 : FaceData) :
  Forall (λ p, 0 < image_count fs datapath p)%nat (persons fs datapath) →
  persons fs datapath ≠ [] →
  (loadFaceData fs datapath d0).1 = Returned
  ↔ valid_layout fs datapath
    ∧ (length (persons fs datapath) + 1 < nofile fs)%nat.
Proof.
  intros Hpos Hne. split.
  - intros Hret.
    destruct (catalog fs (faces_path datapath)) as [l|] eqn:Hl.
    2:{ unfold persons in Hne. by rewrite Hl in Hne. }
    rewrite (persons_catalog _ _ _ Hl) in Hpos, Hne |- *.
    rewrite (loadFaceData_catalog fs datapath l Hl) in Hret.
    destruct (load_persons fs (faces_path datapath) l.*1 l.*2
                (seq 0%nat (length l)) [] [] 1 (mkFaceData [] [] ∅))
      as [[o d] opened'] eqn:Hrun.
    simpl in Hret. subst o.
    pose proof (length_person_indices l (length l) ltac:(done)) as Hlen.
    rewrite take_ge in Hlen by done.
    destruct (load_persons_returned fs datapath l _ _ _ _ _ _ _ Hrun)
      as (Hvalid & Hopened & _).
    split.
    + exists l. split; [done|]. apply Forall_forall. intros p Hp.
      apply person_dirs_lookup in Hp as [i Hi].
      apply lookup_pair_total in Hi as (Hlt & Hn & Hd). rewrite <- Hn.
      apply Hvalid; [|done]. apply elem_of_seq. lia.
    + assert (Hlt : (opened' < nofile fs)%nat).
      { eapply (load_persons_returned_images fs datapath l _ _ _ _ _ _ _
                  Hrun).
        - intros i Hi Hd. apply elem_of_seq in Hi as [_ Hi]. simpl in Hi.
          rewrite Forall_forall in Hpos.
          assert (Hp : l.*1 !!! i ∈ person_dirs l).
          { apply (elem_person_dirs l i). rewrite <- Hd.
            by apply lookup_total_pair. }
          specialize (Hpos _ Hp). lia.
        - intros Hnil. rewrite Hnil in Hlen. simpl in Hlen.
          symmetry in Hlen. by apply nil_length_inv in Hlen. }
      rewrite Hopened, Hlen in Hlt. lia.
  - intros [(l & Hl & Hok) Hfd]. rewrite (persons_catalog _ _ _ Hl) in Hfd.
    by rewrite (loadFaceData_valid fs datapath l Hl).
Qed.

Lemma loadFaceData_descriptors_witness :
  (loadFaceData fs_tight "/db" (mkFaceData [] [] ∅)).1 = Returned
  ↔ valid_layout fs_tight "/db"
    ∧ (length (persons fs_tight "/db") + 1 < nofile fs_tight)%nat.
Proof.
  apply (loadFaceData_descriptors fs_tight "/db" (mkFaceData [] [] ∅)).
  - repeat constructor.
  - discriminate.
Defined.

Lemma loaded_inv_mono n n' items d :
  (n ≤ n')%nat → loaded_inv n items d → loaded_inv n' items d.
Proof.
  intros Hn (H1 & H2 & H3 & H4 & H5 & H6). repeat split; try done.
  - by apply H3.
  - by apply H3.
  - eapply Forall_impl; [exact H4|]. simpl. lia.
Qed.

Lemma StronglySorted_replicate (k : nat) (z : Z) :
  StronglySorted Z.le (replicate k z).
Proof.
  induction k as [|k IH]; simpl; constructor; [done|].
  apply Forall_replicate. lia.
Qed.

Lemma add_samples_inv k a name_a items d :
  loaded_inv a items d → items !! a = Some name_a →
  loaded_inv (S a) items (add_samples k a name_a d).
Proof.
  intros (H1 & H2 & H3 & H4 & H5 & H6) Ha.
  unfold loaded_inv, add_samples. simpl.
  split. { rewrite !length_app, !length_replicate. lia. }
  split. { apply Forall_app. split; [done|]. by apply Forall_replicate. }
  split.
  { intros z. rewrite elem_of_app, elem_of_replicate, H3.
    destruct (decide (k = 0%nat)) as [->|Hk].
    - split; [intros [?|[_ ?]]; done|by left].
    - rewrite map_insert_lookup. destruct (names d !! z) as [v|] eqn:Hz.
      + split; [done|]. intros _. left. done.
      + destruct (decide (Z.of_nat a = z)) as [<-|Hne].
        * split; [done|]. intros _. by right.
        * split; [|by intros [? ?]]. intros [[? ?]|[? _]]; done. }
  split.
  { apply Forall_app. split.
    - eapply Forall_impl; [exact H4|]. simpl. lia.
    - apply Forall_replicate. lia. }
  split.
  { apply StronglySorted_app. split; [|split; [done|]].
    - intros x1 x2 Hx1 Hx2. apply elem_of_replicate in Hx2 as [-> _].
      rewrite Forall_forall in H4. specialize (H4 x1 Hx1). lia.
    - apply StronglySorted_replicate. }
  intros z name. destruct (decide (k = 0%nat)); [apply H6|].
  rewrite map_insert_lookup. destruct (names d !! z) as [v|] eqn:Hz.
  - intros [= <-]. by apply H6.
  - destruct (decide (Z.of_nat a = z)) as [<-|]; [|done].
    intros [= <-]. eauto.
Qed.

(** The loop over the entries keeps the invariant, however it ends. *)
Lemma load_persons_inv fs faceDataPath items_data types_data m a items_face
    types_face opened d :
  (a + m ≤ length items_data)%nat → loaded_inv a items_data d →
  loaded_inv (a + m) items_data
    (load_persons fs faceDataPath items_data types_data (seq a m) items_face
       types_face opened d).1.2.
Proof.
  revert a items_face types_face opened d.
  induction m as [|m IH]; intros a items_face types_face opened d Hlen Hinv;
    simpl.
  - by rewrite Nat.add_0_r.
  - replace (a + S m)%nat with (S a + m)%nat by lia.
    destruct (negb (bool_decide (types_data !!! a = DIRITEM_DIR))).
    { apply IH; [lia|]. eapply loaded_inv_mono; [|done]. lia. }
    destruct (traverseDirectory (at_open fs opened) _ items_face types_face)
      as [r [items' types']].
    destruct (r <? 0); simpl.
    { eapply loaded_inv_mono; [|done]. lia. }
    destruct (load_images_any
                (at_open fs
                   (opened_after fs opened
                      (path_join faceDataPath (items_data !!! a))))
                (path_join faceDataPath (items_data !!! a)) a
                (items_data !!! a) items' types'
                (seq 0%nat (length items')) d) as (k & _ & Hk).
    assert (Hnext : loaded_inv (S a) items_data
              (add_samples k a (items_data !!! a) d)).
    { apply add_samples_inv; [done|].
      apply list_lookup_lookup_total_lt. lia. }
    destruct (load_images _ _ a _ items' types' _ d) as [[|e] d1];
      simpl in Hk; subst d1.
    + apply IH; [lia|done].
    + simpl. eapply loaded_inv_mono; [|done]. lia.
Qed.

Lemma catalog_fst fs dir l :
  catalog fs dir = Some l → l.*1 = visible (default [] (fs_opendir fs dir)).
Proof.
  unfold catalog. destruct (fs_opendir fs dir) as [entries|]; [|done].
  simpl. intros Hm%mapM_Some_1.
  induction Hm as [|n e ns es Hne _ IH]; [done|].
  rewrite fmap_cons, IH. f_equal.
  destruct (entry_type fs dir n); [|done]. by injection Hne as <-.
Qed.

Lemma loadFaceData_inv fs datapath d0 :
  loaded_inv
    (length (visible (default [] (fs_opendir fs (faces_path datapath)))))
    (visible (default [] (fs_opendir fs (faces_path datapath))))
    (loadFaceData fs datapath d0).2.
Proof.
  assert (Hempty : ∀ n items, loaded_inv n items (mkFaceData [] [] ∅)).
  { intros n items. unfold loaded_inv. simpl. repeat split; try done.
    - by intros ?%elem_of_nil.
    - intros [v Hv]. by rewrite lookup_empty in Hv.
    - constructor. }
  unfold loadFaceData, loadFaceData_at. fold (faces_path datapath).
  rewrite (at_open_free fs 0) by apply nofile_pos.
  pose proof (traverseDirectory_catalog fs (faces_path datapath) [] [])
    as Htr.
  destruct (catalog fs (faces_path datapath)) as [l|] eqn:Hl.
  - rewrite Htr. simpl. rewrite <- (catalog_fst _ _ _ Hl).
    apply (load_persons_inv fs (faces_path datapath) l.*1 l.*2
             (length l.*1) 0%nat [] []); [simpl; lia|apply Hempty].
  - destruct Htr as (its & tys & ->). simpl. apply Hempty.
Qed.

(** X6: however [loadFaceData] ends, with a return or with an exception,
    the images and labels it leaves in the containers go in pairs, every
    image is 64 by 64, and the labels in use are exactly the keys of the
    label-to-name registry. *)
Theorem loadFaceData_containers (fs : FileSystem) (datapath : string)
    (d0 : FaceData) :
  let d := (loadFaceData fs datapath d0).2 in
  length (images d) = length (labels d)
  ∧ Forall canonical (images d)
  ∧ ∀ z, z ∈ labels d ↔ is_Some (names d !! z).
Proof.
  cbv zeta. destruct (loadFaceData_inv fs datapath d0)
    as (H1 & H2 & H3 & _). done.
Qed.

(** X7: the labels that [loadFaceData] pushes are never negative and stay
    below the number of visible entries of the faces directory; they are
    pushed in increasing order; and the registry maps a label to the name
    of the visible entry at that index. *)
Theorem loadFaceData_label_range (fs : FileSystem) (datapath : string)
    (d0 : FaceData) :
  let d := (loadFaceData fs datapath d0).2 in
  let listed := visible (default [] (fs_opendir fs (faces_path datapath))) in
  Forall (λ z, 0 ≤ z < Z.of_nat (length listed)) (labels d)
  ∧ StronglySorted Z.le (labels d)
  ∧ ∀ z name, names d !! z = Some name →
              ∃ i, z = Z.of_nat i ∧ listed !! i = Some name.
Proof.
  cbv zeta. destruct (loadFaceData_inv fs datapath d0)
    as (_ & _ & _ & H4 & H5 & H6). done.
Qed.

(** ** The batch tool *)

Lemma map_index_resolve (names : gmap Z string) (p : Z) :
  (map_index p names).1 = resolve names p.
Proof. unfold map_index, resolve. by destruct (names !! p). Qed.

Lemma map_index_stable (names : gmap Z string) (p q : Z) :
  resolve (map_index p names).2 q = resolve names q.
Proof.
  unfold map_index, resolve. destruct (names !! p) as [v|] eqn:Hp; [done|].
  simpl. rewrite lookup_insert. destruct (decide (p = q)) as [<-|]; [|done].
  by rewrite Hp.
Qed.

Lemma map_index_grows (names : gmap Z string) (p k : Z) (v : string) :
  (map_index p names).2 !! k = Some v
  ↔ names !! k = Some v ∨ (names !! p = None ∧ k = p ∧ v = "").
Proof.
  unfold map_index. destruct (names !! p) as [w|] eqn:Hp; simpl.
  - split; [by left|]. by intros [?|[? _]].
  - rewrite lookup_insert. destruct (decide (p = k)) as [<-|Hne].
    + rewrite Hp. split; [intros [= <-]; by right|].
      intros [?|(_ & _ & ->)]; done.
    + split; [by left|]. intros [?|(_ & -> & _)]; done.
Qed.

Section Batch.
Variable show_double : float → string.
Variable train_result : list Mat → list Z → outcome.

Lemma recognize_loop_inside gray w h out faces i names ssInfo drawn :
  Forall (λ f, inside gray (face_rect f)) faces →
  recognize_loop show_double gray w h out faces i names ssInfo drawn
  = (Returned,
     (foldl (λ m f, (map_index (face_prediction f) m).2) names faces,
      match faces with
      | [] => ssInfo
      | _ :: _ =>
          (if bool_decide (0 < i)%nat then ssInfo +:+ "," else ssInfo)
            +:+ join_comma (face_object show_double names <$> faces)
      end,
      drawn ++ (if out then face_annotation names <$> faces else []))).
Proof.
  intros Hin. revert i names ssInfo drawn.
  induction Hin as [|f faces Hf Hin IH]; intros i names ssInfo drawn.
  - simpl. destruct out; by rewrite ?app_nil_r.
  - destruct (inside_resize gray (face_rect f) w h Hf) as [fr Hres].
    rewrite (recognize_loop_step _ _ _ _ _ _ _ _ _ _ _ _ _
               (inside_roi _ _ Hf) Hres).
    pose proof (map_index_resolve names (face_prediction f)) as H1.
    pose proof (map_index_stable names (face_prediction f)) as H2.
    cbn [foldl fmap list_fmap].
    destruct (map_index (face_prediction f) names) as [strName names1].
    simpl in H1, H2. subst strName. rewrite IH. simpl.
    assert (Hobj : face_object show_double names1 <$> faces
                   = face_object show_double names <$> faces).
    { apply list_fmap_ext. intros _ g _. unfold face_object. by rewrite H2. }
    assert (Hann : face_annotation names1 <$> faces
                   = face_annotation names <$> faces).
    { apply list_fmap_ext. intros _ g _. unfold face_annotation.
      by rewrite H2. }
    rewrite Hobj, Hann. f_equal. f_equal.
    + f_equal. fold (face_object show_double names f).
      destruct faces as [|g faces]; [done|].
      simpl. by rewrite !string_app_assoc.
    + destruct out; [|done]. by rewrite <- app_assoc.
Qed.

(** X8: when every detected rectangle lies inside the image, the batch
    loop returns and the stream holds one JSON object per detected face,
    in the order of detection, separated by commas, each with the name
    that the starting registry gives for the predicted label (the empty
    name for a label that is not registered); with an output image asked
    for, one annotation per face is drawn, in the same order. *)
Theorem recognize_loop_json (gray : Mat) (w h : Z) (out : bool)
    (faces : list Face) (names : gmap Z string) :
  Forall (λ f, inside gray (face_rect f)) faces →
  ∃ names',
    recognize_loop show_double gray w h out faces 0 names "" []
    = (Returned,
       (names', join_comma (face_object show_double names <$> faces),
        if out then face_annotation names <$> faces else [])).
Proof.
  intros Hin. rewrite recognize_loop_inside by done.
  eexists. f_equal. f_equal. f_equal. by destruct faces.
Qed.

(** X9: whatever the batch loop does and however it ends, it never changes
    or removes an entry of the registry: the registry afterwards holds the
    entries it had, and besides them only predicted labels with the empty
    name. *)
Theorem recognize_loop_registry (gray : Mat) (w h : Z) (out : bool)
    (faces : list Face) (i : nat) (names : gmap Z string) (ssInfo : string)
    (drawn : list Annotation) :
  let names' :=
    (recognize_loop show_double gray w h out faces i names ssInfo drawn)
      .2.1.1 in
  names ⊆ names'
  ∧ ∀ k v, names' !! k = Some v →
           names !! k = Some v
           ∨ (v = "" ∧ k ∈ face_prediction <$> faces).
Proof.
  cbv zeta. revert i names ssInfo drawn.
  induction faces as [|f faces IH]; intros i names ssInfo drawn; simpl.
  - split; [done|]. intros k v Hk. by left.
  - destruct (Mat_roi gray (face_rect f)) as [face|].
    2:{ simpl. split; [done|]. intros k v Hk. by left. }
    destruct (resize face w h) as [fr|].
    2:{ simpl. split; [done|]. intros k v Hk. by left. }
    pose proof (map_index_grows names (face_prediction f)) as Hg.
    destruct (map_index (face_prediction f) names) as [strName names1].
    simpl in Hg.
    destruct (IH (S i) names1
                (( if bool_decide (0 < i)%nat then ssInfo +:+ ","
                   else ssInfo)
                   +:+ json_face show_double strName (face_confidence f)
                         (face_rect f))
                (if out
                 then drawn ++ [mkAnnotation (face_rect f)
                                  (Z.max (rx (face_rect f) - 10) 0,
                                   Z.max (ry (face_rect f) - 10) 0)
                                  strName (face_confidence f)]
                 else drawn)) as [Hsub Hnew].
    split.
    + etransitivity; [|exact Hsub]. apply map_subseteq_spec.
      intros k v Hk. apply Hg. by left.
    + intros k v Hk. destruct (Hnew k v Hk) as [Hk1|[-> Hin]].
      * apply Hg in Hk1 as [?|(_ & -> & ->)]; [by left|].
        right. split; [done|]. apply elem_of_cons. by left.
      * right. split; [done|]. apply elem_of_cons. by right.
Qed.

End Batch.

(** When the call returns, the layout is valid, its person directories
    are fewer than the descriptors of the process, and each of them, with
    the faces directory, holds one descriptor. *)
Lemma loadFaceData_at_returned fs datapath d0 d opened :
  loadFaceData_at fs 0 datapath d0 = (Returned, d, opened) →
  valid_layout fs datapath
  ∧ (length (persons fs datapath) < nofile fs)%nat
  ∧ opened = S (length (persons fs datapath)).
Proof.
  intros Hret.
  destruct (catalog fs (faces_path datapath)) as [l|] eqn:Hl.
  - rewrite (persons_catalog _ _ _ Hl).
    rewrite (loadFaceData_at_catalog fs datapath l Hl) in Hret.
    destruct (load_persons_returned fs datapath l _ _ _ _ _ _ _ Hret)
      as (Hvalid & -> & Hle).
    pose proof (length_person_indices l (length l) ltac:(done)) as Hlen.
    rewrite take_ge in Hlen by done. rewrite <- Hlen.
    split; [|split; [|done]].
    + exists l. split; [done|]. apply Forall_forall. intros p Hp.
      apply person_dirs_lookup in Hp as [i Hi].
      apply lookup_pair_total in Hi as (Hlt & Hn & Hd). rewrite <- Hn.
      apply Hvalid; [|done]. apply elem_of_seq. lia.
    + destruct (filter (λ i, l.*2 !!! i = DIRITEM_DIR)
                  (seq 0%nat (length l))) as [|j js] eqn:Hf.
      * simpl. apply nofile_pos.
      * specialize (Hle ltac:(done)). simpl in *. lia.
  - unfold loadFaceData_at in Hret. fold (faces_path datapath) in Hret.
    rewrite (at_open_free fs 0) in Hret by apply nofile_pos.
    pose proof (traverseDirectory_catalog fs (faces_path datapath) [] [])
      as Htr. rewrite Hl in Htr. destruct Htr as (its & tys & Htr).
    by rewrite Htr in Hret.
Qed.

Section NoImage.
Variable fs : FileSystem.
Variable datapath : string.
Variable l : list (string * DirectoryItemType).

(** Person directories without an image file: each takes its descriptor,
    and no image is read. *)
Lemma load_persons_no_image ix items_face types_face opened d :
  (∀ i, i ∈ ix → l.*2 !!! i = DIRITEM_DIR →
        valid_person fs datapath (l.*1 !!! i)
        ∧ image_count fs datapath (l.*1 !!! i) = 0%nat) →
  (opened + length (filter (λ i, l.*2 !!! i = DIRITEM_DIR) ix)
   ≤ nofile fs)%nat →
  load_persons fs (faces_path datapath) l.*1 l.*2 ix items_face types_face
    opened d
  = (Returned, d,
     (opened + length (filter (λ i, l.*2 !!! i = DIRITEM_DIR) ix))%nat).
Proof.
  revert items_face types_face opened d.
  induction ix as [|i ix IH]; intros items_face types_face opened d Hok Hfd;
    simpl.
  { by rewrite Nat.add_0_r. }
  rewrite filter_cons in Hfd |- *.
  destruct (decide (l.*2 !!! i = DIRITEM_DIR)) as [Hi|Hi].
  - rewrite bool_decide_eq_true_2 by done. simpl in Hfd |- *.
    destruct (Hok i) as ((lp & Hlp & Hdec) & Hzero); [by left|done|].
    rewrite (at_open_free fs opened) by lia.
    pose proof (traverseDirectory_catalog fs
                  (path_join (faces_path datapath) (l.*1 !!! i))
                  items_face types_face) as Htr.
    unfold person_path in Hlp. rewrite Hlp in Htr. rewrite Htr. simpl.
    rewrite (opened_after_catalog fs opened _ lp)
      by (by rewrite at_open_free by lia).
    unfold image_count, person_path in Hzero. rewrite Hlp in Hzero.
    simpl in Hzero. apply nil_length_inv in Hzero.
    rewrite load_images_catalog by (rewrite Hzero; constructor).
    rewrite Hzero, add_samples_0. simpl.
    rewrite IH; [|intros j Hj; apply Hok; by right|lia].
    f_equal. lia.
  - rewrite bool_decide_eq_false_2 by done. simpl.
    apply IH; [|done]. intros j Hj. apply Hok. by right.
Qed.

End NoImage.

(** A valid layout without any image file loads as an empty dataset, when
    the process has a descriptor for each of its directories. *)
Lemma loadFaceData_no_image fs datapath d0 :
  valid_layout fs datapath →
  Forall (λ p, image_count fs datapath p = 0%nat) (persons fs datapath) →
  (length (persons fs datapath) < nofile fs)%nat →
  loadFaceData_at fs 0 datapath d0
  = (Returned, mkFaceData [] [] ∅, S (length (persons fs datapath))).
Proof.
  intros (l & Hl & Hok) Hzero Hfd.
  rewrite (persons_catalog _ _ _ Hl) in Hzero, Hfd |- *.
  rewrite (loadFaceData_at_catalog fs datapath l Hl).
  pose proof (length_person_indices l (length l) ltac:(done)) as Hlen.
  rewrite take_ge in Hlen by done.
  rewrite (load_persons_no_image fs datapath l).
  - by rewrite Hlen.
  - intros i Hi Hd. apply elem_of_seq in Hi as [_ Hi]. simpl in Hi.
    assert (Hp : l.*1 !!! i ∈ person_dirs l).
    { apply (elem_person_dirs l i). rewrite <- Hd.
      by apply lookup_total_pair. }
    rewrite Forall_forall in Hok, Hzero. split; [by apply Hok|].
    by apply Hzero.
  - rewrite Hlen. lia.
Qed.

Section BatchMain.
Variable show_double : float → string.
Variable train_result : list Mat → list Z → outcome.



(** X11: on a database whose faces directory exists and is a valid layout
    but holds no image file at all, the batch tool reads [images[0]] of an
    empty vector: its behaviour is undefined, and the model records no
    output.  (With person directories in excess of the descriptors of the
    process, the loader throws before that, and the tool exits with
    status 1.) *)
Theorem FaceRecognitionImage_empty_dataset (fs : FileSystem)
    (prog fn_cascade dir_data fn_inimage fn_outinfo : string)
    (rest : list string) (faces : list Face) :
  fs_access fs (dir_data +:+ "/faces") = true →
  valid_layout fs dir_data →
  Forall (λ p, image_count fs dir_data p = 0%nat) (persons fs dir_data) →
  FaceRecognitionImage_main show_double train_result fs
    (prog :: fn_cascade :: dir_data :: fn_inimage :: fn_outinfo :: rest) faces
  = mkBatchRun
      (if bool_decide (length (persons fs dir_data) < nofile fs)%nat
       then Undefined else Exit 1)
      None None.
Proof.
  intros Hacc Hvalid Hzero.
  unfold FaceRecognitionImage_main, FaceRecognitionImage_recognize.
  rewrite Hacc. simpl.
  destruct (decide (length (persons fs dir_data) < nofile fs)%nat)
    as [Hfd|Hfd].
  - rewrite bool_decide_eq_true_2 by done.
    rewrite (loadFaceData_no_image fs dir_data _ Hvalid Hzero Hfd). simpl.
    by destruct rest.
  - rewrite bool_decide_eq_false_2 by done.
    destruct (loadFaceData_at fs 0 dir_data (mkFaceData [] [] ∅))
      as [[[|e] d] opened] eqn:Hload.
    + apply loadFaceData_at_returned in Hload as (_ & Hlt & _). done.
    + by destruct rest.
Qed.

End BatchMain.

Lemma FaceRecognitionImage_empty_dataset_witness :
  FaceRecognitionImage_main show_fixed train_ok fs_fresh
    ["FaceRecognitionImage"; "cascade.xml"; "/db"; "in.jpg"; "out.json"] []
  = mkBatchRun Undefined None None.
Proof.
  refine (eq_trans
            (FaceRecognitionImage_empty_dataset show_fixed train_ok fs_fresh
               "FaceRecognitionImage" "cascade.xml" "/db" "in.jpg" "out.json"
               [] [] _ _ _) _).
  - reflexivity.
  - exists [("carol", DIRITEM_DIR)]. split; [reflexivity|].
    repeat constructor. exists []. split; [reflexivity|constructor].
  - repeat constructor.
  - vm_compute. reflexivity.
Defined.

Lemma recognize_loop_json_witness :
  ∃ names',
    recognize_loop show_fixed (mkMat 240 320) 64 64 true [unknown_face] 0
      {[ 0 := "alice" ]} "" []
    = (Returned,
       (names',
        join_comma (face_object show_fixed {[ 0 := "alice" ]}
                      <$> [unknown_face]),
        face_annotation {[ 0 := "alice" ]} <$> [unknown_face])).
Proof.
  apply (recognize_loop_json show_fixed (mkMat 240 320) 64 64 true
           [unknown_face] {[ 0 := "alice" ]}).
  repeat constructor; simpl; lia.
Defined.

(** ** The live tool *)

Lemma map_insert_subseteq `{Countable K} {V} (k : K) (v : V) (m : gmap K V) :
  m ⊆ map_insert k v m.
Proof.
  unfold map_insert. destruct (m !! k) eqn:Hk; [done|].
  by apply insert_subseteq.
Qed.

Lemma map_index_subseteq (k : Z) (m : gmap Z string) : m ⊆ (map_index k m).2.
Proof.
  unfold map_index. destruct (m !! k) eqn:Hk; [done|].
  by apply insert_subseteq.
Qed.




Section Live.
Variable train_result : list Mat → list Z → outcome.
Variable cfg : Setup.
Hypothesis Harea : im_width cfg * im_height cfg ≠ 0.






End Live.



(** X13: when the live tool reaches its loop, the face size of the setup
    is the 64x64 of the loader, the dataset is not empty, its images and
    labels go in pairs and all have that size, the recognizer is trained
    on it, no save is pending, and every label in use is not negative and
    is registered under a name. *)
Theorem start_session_ready (train_result : list Mat → list Z → outcome)
    (fs : FileSystem) (dir_data name : string) (frame0 : Mat) (cfg : Setup)
    (s : Session) :
  start_session train_result fs dir_data name frame0 = Some (cfg, s) →
  im_width cfg = STD_FACE_REC_SIZE ∧ im_height cfg = STD_FACE_REC_SIZE
  ∧ session_inv cfg s ∧ model_fresh s ∧ s_images s ≠ []
  ∧ s_saveFaceFlag s = false ∧ s_saveProtraitFlag s = false
  ∧ (∀ z, z ∈ s_labels s → 0 ≤ z ∧ is_Some (s_names s !! z)).
Proof.
  unfold start_session.
  pose proof (loadFaceData_inv fs dir_data (mkFaceData [] [] ∅)) as Hinv.
  destruct (loadFaceData fs dir_data (mkFaceData [] [] ∅)) as [[|e] d];
    [|done].
  simpl in Hinv. destruct Hinv as (Hlen & Hcan & Hkeys & Hrange & _ & _).
  destruct (images d) as [|m0 ms] eqn:Himg; [done|].
  destruct (train_result (m0 :: ms) (labels d)); [|done].
  intros [= <- <-]. simpl.
  pose proof Hcan as Hcan0. apply Forall_cons in Hcan0 as [[Hc Hr] _].
  split; [done|]. split; [done|]. split; [|split; [|split; [|split]]].
  - split; [done|]. split; [|done]. simpl.
    eapply Forall_impl; [exact Hcan|].
    intros [r c] [Hc' Hr']. simpl in *. by rewrite Hc, Hr, Hc', Hr'.
  - done.
  - done.
  - done.
  - split; [done|]. intros z Hz. split.
    + rewrite Forall_forall in Hrange. by apply Hrange.
    + by apply Hkeys.
Qed.

Lemma start_session_ready_witness :
  im_width carol_setup = STD_FACE_REC_SIZE
  ∧ im_height carol_setup = STD_FACE_REC_SIZE
  ∧ session_inv carol_setup carol_session ∧ model_fresh carol_session
  ∧ s_images carol_session ≠ []
  ∧ s_saveFaceFlag carol_session = false
  ∧ s_saveProtraitFlag carol_session = false
  ∧ (∀ z, z ∈ s_labels carol_session
          → 0 ≤ z ∧ is_Some (s_names carol_session !! z)).
Proof.
  apply (start_session_ready train_ok fs_session "/db" "carol" camera_frame
           carol_setup carol_session).
  vm_compute. reflexivity.
Defined.

Section Served.
Variable train_result : list Mat → list Z → outcome.
Variable cfg : Setup.


End Served.



(** X15: the escape key ends the loop at the end of its turn: the turns
    that the camera would still provide play no part, whether the turn
    ends with an exception or not.  The key is what [waitKey] returns,
    converted to [char]: every value whose low eight bits are 27 is the
    escape key, with whatever flags [waitKey] sets above them. *)
Theorem capture_loop_escape (train_result : list Mat → list Z → outcome)
    (cfg : Setup) (pre : list Turn) (t : Turn) (post : list Turn)
    (s : Session) (shown : list (list Annotation)) :
  char_of_int (turn_key t) = 27 →
  capture_loop train_result cfg (pre ++ t :: post) s shown
  = capture_loop train_result cfg (pre ++ [t]) s shown.
Proof.
  intros Hkey. revert s shown.
  induction pre as [|p pre IH]; intros s shown; simpl.
  - assert (Hex : ∀ s1 drawn ex,
      process_frame train_result cfg t s = (Returned, s1, drawn, ex) →
      ex = true).
    { unfold process_frame. rewrite Hkey. simpl. intros s1 drawn ex.
      repeat (case_match; simplify_eq; try done). by intros [= _ _ <-]. }
    destruct (process_frame train_result cfg t s) as [[[o1 s1] drawn] ex].
    destruct o1 as [|e]; [|done]. by rewrite (Hex s1 drawn ex eq_refl).
  - destruct (process_frame train_result cfg p s) as [[[o1 s1] drawn] ex].
    destruct o1 as [|e]; [|done]. destruct ex; [done|]. apply IH.
Qed.

Lemma capture_loop_escape_witness :
  capture_loop train_ok carol_setup
    ([unknown_turn] ++ escape_turn_flagged :: [idle_turn; unknown_turn])
    carol_session []
  = capture_loop train_ok carol_setup
      ([unknown_turn] ++ [escape_turn_flagged]) carol_session [].
Proof.
  apply (capture_loop_escape train_ok carol_setup [unknown_turn]
           escape_turn_flagged [idle_turn; unknown_turn] carol_session []).
  reflexivity.
Defined.

(** Inserting the pairs of a list by name, without overwriting: a name gets
    the label it had, or else the label of its first pair in the list. *)
Lemma foldl_map_insert_first (kvs : list (Z * string)) (m0 : gmap string Z)
    (n : string) (l : Z) :
  foldl (λ m kv, map_insert kv.2 kv.1 m) m0 kvs !! n = Some l
  ↔ m0 !! n = Some l
    ∨ (m0 !! n = None
       ∧ ∃ pre post, kvs = pre ++ (l, n) :: post ∧ n ∉ pre.*2).
Proof.
  revert m0. induction kvs as [|[k v] kvs IH]; intros m0; simpl.
  - split; [by left|]. intros [?|(_ & pre & post & Heq & _)]; [done|].
    by destruct pre.
  - rewrite IH, map_insert_lookup. simpl.
    destruct (m0 !! n) as [x|] eqn:Hn.
    + split; (intros [?|[? _]]; [by left|done]).
    + destruct (decide (v = n)) as [->|Hne].
      * split.
        -- intros [[= ->]|[? _]]; [|done]. right. split; [done|].
           exists [], kvs. split; [done|]. apply not_elem_of_nil.
        -- intros [?|(_ & pre & post & Heq & Hpre)]; [done|].
           destruct pre as [|p pre].
           ++ simpl in Heq. injection Heq as -> _. by left.
           ++ simpl in Heq. injection Heq as <- _. exfalso. apply Hpre.
              rewrite fmap_cons. simpl. apply elem_of_cons. by left.
      * split.
        -- intros [?|(_ & pre & post & -> & Hpre)]; [done|].
           right. split; [done|]. exists ((k, v) :: pre), post.
           split; [done|]. rewrite fmap_cons. simpl.
           rewrite elem_of_cons. intros [?|?]; [by subst|done].
        -- intros [?|(_ & pre & post & Heq & Hpre)]; [done|].
           right. split; [done|]. destruct pre as [|p pre].
           ++ simpl in Heq. by injection Heq as _ ->.
           ++ simpl in Heq. injection Heq as <- ->. exists pre, post.
              split; [done|]. intros Hin. apply Hpre. rewrite fmap_cons.
              apply elem_of_cons. by right.
Qed.

(** X16: [name2label], as the live tool builds it from the registry of the
    loader, sends a name to a label exactly when that label is the least
    one registered under the name. *)
Theorem build_name2label_least (names : gmap Z string) (n : string) (l : Z) :
  build_name2label names !! n = Some l
  ↔ names !! l = Some n ∧ ∀ l', names !! l' = Some n → l ≤ l'.
Proof.
  unfold build_name2label. rewrite foldl_map_insert_first.
  rewrite lookup_empty.
  assert (Hsorted : StronglySorted label_le
                      (merge_sort label_le (map_to_list names))).
  { apply StronglySorted_merge_sort.
    - intros a b c. unfold label_le. lia.
    - intros a b. unfold label_le. lia. }
  assert (Hperm := merge_sort_Permutation label_le (map_to_list names)).
  assert (Hnodup : NoDup (merge_sort label_le (map_to_list names))).
  { rewrite Hperm. apply NoDup_map_to_list. }
  assert (Hin : ∀ k v, (k, v) ∈ merge_sort label_le (map_to_list names)
                       ↔ names !! k = Some v).
  { intros k v. rewrite Hperm. apply elem_of_map_to_list. }
  split.
  - intros [?|(_ & pre & post & Heq & Hpre)]; [done|].
    rewrite Heq in Hsorted, Hin. split.
    + apply Hin. apply elem_of_app. right. by left.
    + intros l' Hl'. apply Hin in Hl'.
      apply elem_of_app in Hl' as [Hl'|Hl'].
      * exfalso. apply Hpre. apply list_elem_of_fmap. by exists (l', n).
      * apply elem_of_cons in Hl' as [[= ->]|Hl']; [done|].
        apply StronglySorted_app_1_r in Hsorted.
        apply StronglySorted_inv in Hsorted as [_ Hall].
        rewrite Forall_forall in Hall. exact (Hall _ Hl').
  - intros [Hl Hleast]. right. split; [done|].
    apply Hin in Hl as Hmem.
    apply list_elem_of_split in Hmem as (pre & post & Heq).
    exists pre, post. split; [done|]. intros Hn.
    apply list_elem_of_fmap in Hn as ([l' n'] & Hn' & Hmem'). simpl in Hn'.
    subst n'. rewrite Heq in Hsorted, Hin, Hnodup.
    assert (Hl' : names !! l' = Some n).
    { apply Hin. apply elem_of_app. by left. }
    pose proof (Hleast l' Hl') as Hle.
    assert (Hge : label_le (l', n) (l, n)).
    { apply (StronglySorted_app_1_elem_of _ _ _ _ _ Hsorted Hmem').
      by left. }
    unfold label_le in Hge. simpl in Hge.
    assert (l' = l) as -> by lia.
    apply NoDup_app in Hnodup as (_ & Hdisj & _).
    apply (Hdisj _ Hmem'). by left.
Qed.

(** A relation between sessions that the blocks of the loop body respect
    holds between the start and the end of the loop. *)
Section Lift.
Variable train_result : list Mat → list Z → outcome.
Variable cfg : Setup.
Variable R : Session → Session → Prop.
Hypothesis R_refl : ∀ s, R s s.
Hypothesis R_trans : ∀ s1 s2 s3, R s1 s2 → R s2 s3 → R s1 s3.
Hypothesis R_enroll :
  ∀ now m s, R s (enroll_face train_result cfg now m s).2.
Hypothesis R_protrait :
  ∀ now orig face_i s, R s (save_protrait cfg now orig face_i s).2.
Hypothesis R_index :
  ∀ s prediction,
    R s (mkSession (s_images s) (s_labels s)
           (map_index prediction (s_names s)).2 (s_name2label s)
           (s_model s) (s_saveFaceFlag s) (s_saveProtraitFlag s)
           (s_saveImageCount s) (s_written s)).
Hypothesis R_flags :
  ∀ s f p,
    R s (mkSession (s_images s) (s_labels s) (s_names s) (s_name2label s)
           (s_model s) f p (s_saveImageCount s) (s_written s)).

Lemma process_face_lift gray orig now f s :
  R s (process_face train_result cfg gray orig now f s).1.2.
Proof.
  unfold process_face.
  destruct (Mat_roi gray (face_rect f)) as [face|]; [|apply R_refl].
  destruct (resize face (im_width cfg) (im_height cfg)) as [fr|];
    [|apply R_refl].
  assert (H1 : R s (if s_saveFaceFlag s
                    then enroll_face train_result cfg now fr s
                    else (Returned, s)).2).
  { destruct (s_saveFaceFlag s); [apply R_enroll|apply R_refl]. }
  destruct (if s_saveFaceFlag s then enroll_face train_result cfg now fr s
            else (Returned, s)) as [[|e] s1]; [|exact H1].
  simpl in H1.
  assert (H2 : R s1 (if s_saveProtraitFlag s1
                     then save_protrait cfg now orig (face_rect f) s1
                     else (Returned, s1)).2).
  { destruct (s_saveProtraitFlag s1); [apply R_protrait|apply R_refl]. }
  destruct (if s_saveProtraitFlag s1
            then save_protrait cfg now orig (face_rect f) s1
            else (Returned, s1)) as [[|e] s2]; simpl in H2.
  2:{ simpl. by apply (R_trans _ s1). }
  pose proof (R_index s2 (face_prediction f)) as H3.
  destruct (map_index (face_prediction f) (s_names s2)) as [strName names2].
  simpl in *. apply (R_trans _ s1); [done|]. by apply (R_trans _ s2).
Qed.

Lemma process_faces_lift gray orig now faces s drawn :
  R s (process_faces train_result cfg gray orig now faces s drawn).1.2.
Proof.
  revert s drawn. induction faces as [|f faces IH]; intros s drawn; simpl.
  - apply R_refl.
  - pose proof (process_face_lift gray orig now f s) as H1.
    destruct (process_face train_result cfg gray orig now f s)
      as [[[|e] s1] [a|]]; simpl in H1; try done;
      (apply (R_trans _ s1); [done|apply IH]).
Qed.

Lemma process_frame_lift t s :
  R s (process_frame train_result cfg t s).1.1.2.
Proof.
  unfold process_frame.
  destruct (resize (turn_frame t) STD_DETECT_FRAME_WIDTH
              STD_DETECT_FRAME_HEIGHT) as [orig|]; [|apply R_refl].
  destruct (cvtColor orig) as [gray|]; [|apply R_refl].
  pose proof (process_faces_lift gray orig (turn_now t) (turn_faces t) s [])
    as H1.
  destruct (process_faces train_result cfg gray orig (turn_now t)
              (turn_faces t) s []) as [[[|e] s1] drawn]; simpl in H1;
    [|done].
  destruct (char_of_int (turn_key t) =? 27); [done|].
  destruct (char_of_int (turn_key t) =? 112).
  { simpl. apply (R_trans _ s1); [done|]. apply R_flags. }
  destruct (char_of_int (turn_key t) =? 32); [|done].
  simpl. apply (R_trans _ s1); [done|]. apply R_flags.
Qed.

Lemma capture_loop_lift turns s shown :
  R s (capture_loop train_result cfg turns s shown).1.2.
Proof.
  revert s shown. induction turns as [|t turns IH]; intros s shown; simpl.
  - apply R_refl.
  - pose proof (process_frame_lift t s) as H1.
    destruct (process_frame train_result cfg t s)
      as [[[[|e] s1] drawn] ex]; simpl in H1; [|done].
    destruct ex; [done|]. apply (R_trans _ s1); [done|apply IH].
Qed.

End Lift.

(** X17: every sample that the live tool enrolls during a session carries
    one and the same label, whatever is detected and whichever keys are
    pressed: the label that [name2label] had for the name of the user at
    the start, and -1 when it had none; samples are only ever appended. *)
Theorem capture_loop_user_label (train_result : list Mat → list Z → outcome)
    (cfg : Setup) (turns : list Turn) (s : Session)
    (shown : list (list Annotation)) :
  let s' := (capture_loop train_result cfg turns s shown).1.2 in
  ∃ k, s_labels s'
       = s_labels s
         ++ replicate k (default (-1) (s_name2label s !! expectName cfg)).
Proof.
  cbv zeta.
  enough (H : same_user cfg s
                (capture_loop train_result cfg turns s shown).1.2)
    by (exact (proj2 H)).
  apply capture_loop_lift.
  - intros s0. split; [done|]. exists 0%nat. by rewrite app_nil_r.
  - intros s1 s2 s3 [Hu1 [k1 Hk1]] [Hu2 [k2 Hk2]]. split; [congruence|].
    exists (k1 + k2)%nat.
    rewrite Hk2, Hk1, Hu1, <- app_assoc. by rewrite replicate_add.
  - intros now m s0. unfold enroll_face, imwrite, same_user, user_label.
    destruct (has_encoder cfg _); simpl;
      [|split; [done|]; exists 0%nat; by rewrite app_nil_r].
    replace (match s_name2label s0 !! expectName cfg with
             | Some l => l
             | None => -1
             end) with (default (-1) (s_name2label s0 !! expectName cfg))
      by (by destruct (s_name2label s0 !! expectName cfg)).
    assert (Hu : default (-1)
                   (map_insert (expectName cfg)
                      (default (-1) (s_name2label s0 !! expectName cfg))
                      (s_name2label s0) !! expectName cfg)
                 = default (-1) (s_name2label s0 !! expectName cfg)).
    { rewrite map_insert_lookup.
      destruct (s_name2label s0 !! expectName cfg); [done|].
      by rewrite decide_True. }
    destruct (train_result _ _); simpl; (split; [exact Hu|by exists 1%nat]).
  - intros now orig face_i s0. unfold save_protrait, same_user, user_label.
    destruct (Mat_roi orig face_i) as [protrait|]; simpl.
    2:{ split; [done|]. exists 0%nat. by rewrite app_nil_r. }
    unfold imwrite.
    destruct (resize protrait STD_PROTRAIT_SIZE STD_PROTRAIT_SIZE); simpl;
      [destruct (has_encoder cfg _); simpl|];
      (split; [done|]; exists 0%nat; by rewrite app_nil_r).
  - intros s0 p. split; [done|]. exists 0%nat. simpl.
    by rewrite app_nil_r.
  - intros s0 f p. split; [done|]. exists 0%nat. simpl.
    by rewrite app_nil_r.
Qed.

(** ** Name2Protraits on any file system *)

Lemma readdir_loop_scan fs dir entries items types :
  (readdir_loop fs dir entries items types).2
  = (items ++ (scan fs dir (visible entries)).*1,
     types ++ (scan fs dir (visible entries)).*2).
Proof.
  revert items types.
  induction entries as [|d es IH]; intros items types; simpl.
  - by rewrite !app_nil_r.
  - unfold visible. rewrite filter_cons. fold (visible es).
    destruct (is_hidden d) eqn:Hd.
    + rewrite decide_False by done. apply IH.
    + rewrite decide_True by done. simpl. unfold entry_type.
      destruct (fs_stat fs (path_join dir d)) as [m|]; simpl.
      * rewrite IH, <- !app_assoc. done.
      * by rewrite !app_nil_r.
Qed.

Lemma traverseDirectory_listing fs dir items0 types0 :
  (traverseDirectory fs dir items0 types0).2
  = ((listing fs dir).*1, (listing fs dir).*2).
Proof.
  unfold traverseDirectory, listing.
  destruct (fs_opendir fs dir) as [entries|]; [|done].
  by rewrite readdir_loop_scan.
Qed.

Lemma protraits_loop_find fs dir name
    (pre l : list (string * DirectoryItemType)) ssInfo :
  protraits_loop fs dir name (pre ++ l).*1 (pre ++ l).*2
    (seq (length pre) (length l)) ssInfo
  = match List.find (λ e, bool_decide (name = e.1)) l with
    | Some (_, DIRITEM_DIR) =>
        let r := traverseDirectory fs (path_join dir name) [] [] in
        usrprotraits_loop (path_join dir name) r.2.1 r.2.2
          (seq 0%nat (length r.2.1)) ssInfo true
    | _ => ssInfo
    end.
Proof.
  revert pre. induction l as [|[n t] l IH]; intros pre; [done|].
  cbn [length seq protraits_loop List.find].
  assert (Hn : (pre ++ (n, t) :: l).*1 !!! length pre = n).
  { rewrite fmap_app, fmap_cons.
    rewrite <- (length_fmap fst pre). by rewrite list_lookup_total_middle. }
  assert (Ht : (pre ++ (n, t) :: l).*2 !!! length pre = t).
  { rewrite fmap_app, fmap_cons.
    rewrite <- (length_fmap snd pre). by rewrite list_lookup_total_middle. }
  rewrite Hn, Ht. simpl.
  destruct (bool_decide (name = n)) eqn:Hname.
  - destruct t; simpl; try done.
    by destruct (traverseDirectory fs (path_join dir name) [] [])
      as [r [items types]].
  - specialize (IH (pre ++ [(n, t)])).
    rewrite <- app_assoc, length_app in IH. simpl in IH.
    rewrite Nat.add_1_r in IH. exact IH.
Qed.

Lemma Name2Protraits_ssInfo_paths fs dir_data name :
  Name2Protraits_ssInfo fs dir_data name
  = join_comma (quoted <$> portrait_paths fs dir_data name).
Proof.
  unfold Name2Protraits_ssInfo, portrait_paths.
  fold (protraits_path dir_data).
  destruct (fs_access fs (protraits_path dir_data)); [|done].
  pose proof (traverseDirectory_listing fs (protraits_path dir_data) [] [])
    as Hl.
  destruct (traverseDirectory fs (protraits_path dir_data) [] [])
    as [r [items types]]. simpl in Hl. injection Hl as -> ->.
  rewrite length_fmap.
  pose proof (protraits_loop_find fs (protraits_path dir_data) name []
                (listing fs (protraits_path dir_data)) "") as Hf.
  cbn [app length] in Hf. rewrite Hf. clear Hf.
  destruct (List.find _ _) as [[n t]|]; [|done].
  destruct t; try done. cbv zeta.
  rewrite (traverseDirectory_listing fs
             (path_join (protraits_path dir_data) name) [] []).
  simpl. rewrite usrprotraits_loop_spec, indexed_paths_catalog.
  destruct (path_join _ <$> regular_files _); [done|].
  by rewrite string_app_nil_l.
Qed.

(** On a directory that can be cataloged, the listing is the catalog. *)
Lemma listing_catalog fs dir l : catalog fs dir = Some l → listing fs dir = l.
Proof.
  unfold catalog, listing.
  destruct (fs_opendir fs dir) as [entries|]; [|done]. simpl.
  revert l. induction (visible entries) as [|n ns IH]; intros l; simpl.
  - by intros [= <-].
  - destruct (entry_type fs dir n) as [t|]; [|done]. simpl.
    destruct (mapM (λ n0, pair n0 <$> entry_type fs dir n0) ns) as [l'|];
      [|done].
    simpl. intros [= <-]. by rewrite (IH l').
Qed.

Lemma scan_visible fs dir entries :
  Forall (λ e, is_hidden e.1 = false) (scan fs dir (visible entries)).
Proof.
  assert (Hv : Forall (λ n, is_hidden n = false) (visible entries)).
  { apply Forall_forall. intros n. apply visible_not_hidden. }
  induction Hv as [|n ns Hn _ IH]; simpl; [constructor|].
  destruct (entry_type fs dir n); by constructor.
Qed.

Lemma find_hidden_name (name : string)
    (l : list (string * DirectoryItemType)) :
  is_hidden name = true →
  Forall (λ e, is_hidden e.1 = false) l →
  List.find (λ e, bool_decide (name = e.1)) l = None.
Proof.
  intros Hname. induction 1 as [|e l He _ IH]; simpl; [done|].
  rewrite bool_decide_eq_false_2; [done|]. intros ->. congruence.
Qed.

(** X18: Name2Protraits on any file system, readable or not.  It returns
    0, and when the output file opens its line is the first word of the
    array of the portrait paths read off the listings: those of the
    regular files that [traverseDirectory] gets to in the directory of the
    name, when [protraits] exists and the first entry of that name that
    [traverseDirectory] gets to in it is a directory, and none otherwise.
    A directory that does not open or an entry that cannot be examined
    cuts a listing short and is never reported. *)
Theorem Name2Protraits_any_database (fs : FileSystem)
    (prog dir_data name fn_info : string) :
  Name2Protraits_main fs [prog; dir_data; name; fn_info]
  = (0, if fs_ofstream fs fn_info
        then Some ["[" +:+ extract_word
                             (join_comma
                                (quoted <$> portrait_paths fs dir_data name))
                   +:+ "]"]
        else None).
Proof.
  unfold Name2Protraits_main, write_info.
  rewrite Name2Protraits_ssInfo_paths.
  by destruct (fs_ofstream fs fn_info).
Qed.

(** X19: a name that begins with a dot never matches an entry, since
    [traverseDirectory] leaves such entries out: for [.], [..] and every
    hidden name the tool writes the empty array, whatever the database
    holds. *)
Theorem Name2Protraits_hidden_name (fs : FileSystem)
    (prog dir_data name fn_info : string) :
  is_hidden name = true →
  Name2Protraits_main fs [prog; dir_data; name; fn_info]
  = (0, if fs_ofstream fs fn_info then Some ["[]"] else None).
Proof.
  intros Hname. unfold Name2Protraits_main, write_info.
  rewrite Name2Protraits_ssInfo_paths.
  assert (Hnone : portrait_paths fs dir_data name = []).
  { unfold portrait_paths.
    destruct (fs_access fs (protraits_path dir_data)); [|done].
    unfold listing.
    by rewrite (find_hidden_name name _ Hname (scan_visible _ _ _)). }
  rewrite Hnone. by destruct (fs_ofstream fs fn_info).
Qed.

Lemma Name2Protraits_hidden_name_witness :
  Name2Protraits_main fs_portraits ["Name2Protraits"; "/db"; ".."; "out.json"]
  = (0, if fs_ofstream fs_portraits "out.json" then Some ["[]"] else None).
Proof.
  apply (Name2Protraits_hidden_name fs_portraits "Name2Protraits" "/db" ".."
           "out.json").
  reflexivity.
Defined.

(** ** What reaches the output files *)








(** X22: the live tool never renames or removes a registered label,
    whatever is detected and whichever keys are pressed: at the end of the
    loop the registry of names holds the entries it had at the start, and
    besides them only labels with the empty name, which displaying an
    unregistered prediction adds, and the label of the user with the name
    of the user. *)
Theorem capture_loop_registry (train_result : list Mat → list Z → outcome)
    (cfg : Setup) (turns : list Turn) (s : Session)
    (shown : list (list Annotation)) :
  let s' := (capture_loop train_result cfg turns s shown).1.2 in
  s_names s ⊆ s_names s'
  ∧ ∀ k v, s_names s' !! k = Some v →
           s_names s !! k = Some v ∨ v = ""
           ∨ (k = default (-1) (s_name2label s !! expectName cfg)
              ∧ v = expectName cfg).
Proof.
  cbv zeta.
  enough (H : registry_grows cfg s
                (capture_loop train_result cfg turns s shown).1.2)
    by (exact (proj2 H)).
  apply capture_loop_lift.
  - intros s0. split; [done|]. split; [done|]. intros k v Hk. by left.
  - intros s1 s2 s3 (Hu1 & Hs1 & Hn1) (Hu2 & Hs2 & Hn2).
    split; [congruence|]. split; [by etransitivity|].
    intros k v Hk. destruct (Hn2 k v Hk) as [Hk2|[->|[-> ->]]].
    + by apply Hn1.
    + right. by left.
    + right. right. by rewrite <- Hu1.
  - intros now m s0.
    unfold enroll_face, imwrite, registry_grows, user_label.
    destruct (has_encoder cfg _); simpl;
      [|split; [done|]; split; [done|]; intros k v Hk; by left].
    replace (match s_name2label s0 !! expectName cfg with
             | Some l => l
             | None => -1
             end) with (default (-1) (s_name2label s0 !! expectName cfg))
      by (by destruct (s_name2label s0 !! expectName cfg)).
    assert (Hu : default (-1)
                   (map_insert (expectName cfg)
                      (default (-1) (s_name2label s0 !! expectName cfg))
                      (s_name2label s0) !! expectName cfg)
                 = default (-1) (s_name2label s0 !! expectName cfg)).
    { rewrite map_insert_lookup.
      destruct (s_name2label s0 !! expectName cfg); [done|].
      by rewrite decide_True. }
    assert (Hn : ∀ k v,
      map_insert (default (-1) (s_name2label s0 !! expectName cfg))
        (expectName cfg) (s_names s0) !! k = Some v →
      s_names s0 !! k = Some v ∨ v = ""
      ∨ (k = default (-1) (s_name2label s0 !! expectName cfg)
         ∧ v = expectName cfg)).
    { intros k v. rewrite map_insert_lookup.
      destruct (s_names s0 !! k) as [w|]; [by left|].
      destruct (decide _) as [<-|]; [|done]. intros [= <-]. by right; right. }
    destruct (train_result _ _); simpl;
      (split; [exact Hu|]); (split; [apply map_insert_subseteq|exact Hn]).
  - intros now orig face_i s0. unfold save_protrait, registry_grows.
    destruct (Mat_roi orig face_i) as [protrait|]; simpl.
    2:{ split; [done|]. split; [done|]. intros k v Hk. by left. }
    unfold imwrite.
    destruct (resize protrait STD_PROTRAIT_SIZE STD_PROTRAIT_SIZE); simpl;
      [destruct (has_encoder cfg _); simpl|];
      (split; [done|]; split; [done|]; intros k v Hk; by left).
  - intros s0 p. split; [done|]. simpl.
    split; [apply map_index_subseteq|]. intros k v Hk.
    apply map_index_grows in Hk as [?|(_ & _ & ->)]; [by left|].
    right. by left.
  - intros s0 f p. split; [done|]. split; [done|]. intros k v Hk. by left.
Qed.

Lemma no_space_take_word (s : string) : no_space (take_word s) = true.
Proof.
  induction s as [|c s IH]; [done|]. simpl.
  destruct (isspace c) eqn:Hc; [done|]. simpl. by rewrite Hc.
Qed.

Lemma write_info_one_word fs fn ssInfo text :
  write_info fs fn ssInfo = Some text →
  ∃ w, text = ["[" +:+ w +:+ "]"] ∧ no_space w = true.
Proof.
  unfold write_info. destruct (fs_ofstream fs fn); [|done].
  intros [= <-]. exists (extract_word ssInfo). split; [done|].
  apply no_space_take_word.
Qed.

(** X23: whatever the two batch tools find, the file they write is one
    line that holds one word between its brackets: no whitespace ever
    reaches the output, whatever the names of the database and the
    arguments are. *)
Theorem output_line_one_word :
  (∀ fs argv text,
     (Name2Protraits_main fs argv).2 = Some text →
     ∃ w, text = ["[" +:+ w +:+ "]"] ∧ no_space w = true)
  ∧ (∀ show_double train_result fs argv faces text,
       br_outinfo (FaceRecognitionImage_main show_double train_result fs
                     argv faces) = Some text →
       ∃ w, text = ["[" +:+ w +:+ "]"] ∧ no_space w = true).
Proof.
  split.
  - intros fs argv text. unfold Name2Protraits_main.
    destruct argv as [|a0 [|a1 [|a2 [|a3 [|a4 argv]]]]]; try done.
    simpl. apply write_info_one_word.
  - intros show_double train_result fs argv faces text.
    destruct (FaceRecognitionImage_recognize show_double train_result fs
                argv faces)
      as [e|[[[[[opened fn] fn'] out] ssInfo] drawn]] eqn:Hrun.
    { unfold FaceRecognitionImage_main. by rewrite Hrun. }
    rewrite (FaceRecognitionImage_outinfo _ _ _ _ _ _ _ _ _ _ _ Hrun).
    apply write_info_one_word.
Qed.
